(** * Kaleidoscope-Testing: the Driver (cycle scheduler) of Papilio

    A shallow embedding of [src/Driver.cpp] and a verification of the
    properties its specification states about it.

    The Driver is stateful C++: every method reads and writes the members
    of one [Driver] object, writes diagnostics to the stream [out_], calls
    into the firmware ([::loop()]) and into the assertion objects, and may
    terminate the process ([exit(1)] in the destructor of [ErrorStream]).
    The embedding is a state monad over a [Machine] (the Driver's members,
    the state of the firmware, and the trace of everything the Driver did
    to its collaborators) whose outcomes are a normal return, a process
    exit, or, for the one unbounded loop of [skipTime], running out of
    fuel.

    Embedded are the scheduler and the evaluation of assertions: [cycle],
    [cycles], [skipTime], [cycleInternal], [processKeyboardReport],
    [processKeyboardReportAssertion], [checkCycleDurationSet],
    [checkStatus], the report consumer, the streams and the destructor.
    The methods that only forward to the simulated key matrix ([keyDown],
    [keyUp], [tapKey], [clearAllKeys], [initKeyboard]) take no part in
    scheduling; they are embedded apart, in the module [Keys], as the
    calls they make.  The banner of the constructor is left out. *)

From Stdlib Require Import ZArith QArith Qround List Bool Lia.
Import ListNotations.
Local Open Scope Z_scope.

(** ** Values of type [double]

    [Driver::skipTime] takes its time span as a [double] and compares it
    with the elapsed time.  A [double] is a finite number (a rational), an
    infinity or a NaN; comparisons with a NaN are false. *)
Module Double.

Inductive double : Type :=
| Finite (q : Q)
| PosInf
| NegInf
| NaN.

(** Conversion of an integer (the elapsed simulated time). *)
Definition of_int (z : Z) : double := Finite (inject_Z z).

(** The C++ operator [<] on doubles. *)
Definition ltb (x y : double) : bool :=
  match x, y with
  | NaN, _ | _, NaN => false
  | Finite a, Finite b => match (a ?= b)%Q with Lt => true | _ => false end
  | Finite _, PosInf => true
  | NegInf, Finite _ => true
  | NegInf, PosInf => true
  | _, _ => false
  end.

(** [x <= 0] as the C++ operator would decide it. *)
Definition le_zero (x : double) : Prop :=
  match x with
  | Finite q => (q <= 0)%Q
  | NegInf => True
  | PosInf | NaN => False
  end.

End Double.
Import Double.

(** ** Diagnostics

    What is streamed into [log()] and [error()].  The text formatting is
    not part of the model: a message is its kind together with the values
    streamed into it. *)
Inductive LogMsg : Type :=
| MsgNewline                                  (* "\n" *)
| MsgRunningSingleCycle                       (* "Running single scan cycle\n" *)
| MsgRunningCycles (n : Z)                    (* "Running <n> scan cycles\n" *)
| MsgSkipping (delta_t : double)              (* "Skipping dt >= <delta_t> ms\n" *)
| MsgSkipped (elapsed_time : double) (cycle_id : Z)
                                              (* "<e> ms (<c> cycles) skipped\n" *)
| MsgProcessingOnStop (size : nat)            (* "Processing <n> cycle assertions on stop\n" *)
| MsgProcessingReport (overall in_cycle cycle_id : Z)
                                              (* "Processing keyboard report <o> (<i>. in cycle <c>)\n" *)
| MsgQueuedReportAssertions (size : nat)      (* "<n> queued report assertions\n" *)
| MsgPermanentReportAssertions (size : nat)   (* "<n> permanent report assertions\n" *)
| MsgScanCycle (cycle_id : Z)                 (* "Scan cycle <c>\n" *)
| MsgNoReports                                (* "No keyboard reports processed\n" *)
| MsgReportsProcessed (in_cycle : Z)          (* "<n> keyboard reports processed\n" *)
| MsgProcessingQueuedCycle (size : nat)       (* "Processing <n> queued cycle assertions\n" *)
| MsgProcessingPermanentCycle (size : nat)    (* "Processing <n> permanent cycle assertions\n" *)
| MsgAllTestsPassed                           (* "All tests passed.\n" *)
| MsgBannerLine                               (* "####...####\n" *)
| MsgTestingDone.                             (* "Testing done\n" *)

Inductive ErrorMsg : Type :=
| ErrLeftOverAssertions (size : nat)  (* "There are <n> left over assertions in the queue" *)
| ErrNotAllPassed                     (* "Not all assertions passed\n" *)
| ErrErrorsOccurred                   (* "Errors occurred\n" *)
| ErrReportWithoutQueued              (* "Encountered a report without assertions being queued" *)
| ErrCycleDurationNotSet              (* "Please set test.cycle_duration_ to a value in [ms] greater zero ..." *)
| ErrEmptyQueue                       (* popFront on an empty queue *)
| ErrTerminating.                     (* "Terminating with exit code 1" *)

(** ** The assertion queue *)

(** Modelled from the spec: the class of the members
    [queued_keyboard_report_assertions_], [permanent_keyboard_report_assertions_],
    [queued_cycle_assertions_] and [permanent_cycle_assertions_] is declared
    in a header that is not part of the sources; [Driver.cpp] only calls
    it.  Section 4.1 of the specification gives its contract: an ordered
    sequence consumed front to back; [pushBack] appends to it; [popFront]
    removes and returns the earliest pushed assertion and fails on an empty
    queue; [add] inserts, duplicates allowed; [size], [empty], [clear];
    [directAccess] reads and iterates without removal. *)
Module AssertionQueue.
Section Queue.
Context {A : Type}.

(** Modelled from the spec: the ordered sequence of section 4.1. *)
Definition t : Type := list A.

(** Modelled from the spec: [empty()]. *)
Definition empty (q : t) : bool :=
  match q with [] => true | _ :: _ => false end.

(** Modelled from the spec: [size()]. *)
Definition size (q : t) : nat := length q.

(** Modelled from the spec: [pushBack(assertion)] appends to the ordered
    sequence. *)
Definition pushBack (a : A) (q : t) : t := q ++ [a].

(** Modelled from the spec: [add(assertion)] inserts into the permanent
    collection; duplicates are allowed. *)
Definition add (a : A) (q : t) : t := q ++ [a].

(** Modelled from the spec: [popFront()] removes and returns the earliest
    pushed assertion; [None] is its failure on an empty queue. *)
Definition popFront (q : t) : option (A * t) :=
  match q with
  | [] => None
  | a :: q' => Some (a, q')
  end.

(** Modelled from the spec: [clear()]. *)
Definition clear (q : t) : t := [].

(** Modelled from the spec: [directAccess()] reads without removal. *)
Definition directAccess (q : t) : list A := q.
End Queue.
End AssertionQueue.

Section Model.

(** The collaborators of the Driver.  [A] are the assertion objects (the
    shared pointers to [_Assertion]), [Report] is the payload of a keyboard
    report ([HID_KeyboardReport_Data_t]), [Subject] the state of the
    firmware under test, which the Driver only reaches through [::loop()]. *)
Context {A Report Subject : Type}.

(** ** The members of [Driver] *)

(** Modelled from the spec: the members of [Driver] are declared in
    [Driver.h], which is not part of the sources.  Their names are those
    [Driver.cpp] uses; [debug_], [cycle_duration_] and
    [abort_on_first_error_] have the types of the constructor's arguments;
    the others follow section 3 of the specification: four assertion queues,
    the current report, and the run-level counters, which are integers (the
    cycle id, the elapsed simulated time, the report counts) next to the
    aggregate pass flag.  The counters are mathematical integers: the model
    describes the runs in which no counter leaves the range of its C++
    type. *)
Record Driver : Type := mkDriver {
  debug_ : bool;
  cycle_duration_ : Z;
  abort_on_first_error_ : bool;
  queued_keyboard_report_assertions_ : list A;
  permanent_keyboard_report_assertions_ : list A;
  queued_cycle_assertions_ : list A;
  permanent_cycle_assertions_ : list A;
  current_keyboard_report_ : Report;
  cycle_id_ : Z;
  time_ : Z;
  scan_cycles_default_count_ : Z;
  assertions_passed_ : bool;
  error_if_report_without_queued_assertions_ : bool;
  n_overall_keyboard_reports_ : Z;
  n_keyboard_reports_in_cycle_ : Z
}.

Definition set_queued_keyboard_report_assertions_ (q : list A) (d : Driver) : Driver :=
  mkDriver (debug_ d) (cycle_duration_ d) (abort_on_first_error_ d)
    q (permanent_keyboard_report_assertions_ d)
    (queued_cycle_assertions_ d) (permanent_cycle_assertions_ d)
    (current_keyboard_report_ d) (cycle_id_ d) (time_ d)
    (scan_cycles_default_count_ d) (assertions_passed_ d)
    (error_if_report_without_queued_assertions_ d)
    (n_overall_keyboard_reports_ d) (n_keyboard_reports_in_cycle_ d).

Definition set_permanent_keyboard_report_assertions_ (q : list A) (d : Driver) : Driver :=
  mkDriver (debug_ d) (cycle_duration_ d) (abort_on_first_error_ d)
    (queued_keyboard_report_assertions_ d) q
    (queued_cycle_assertions_ d) (permanent_cycle_assertions_ d)
    (current_keyboard_report_ d) (cycle_id_ d) (time_ d)
    (scan_cycles_default_count_ d) (assertions_passed_ d)
    (error_if_report_without_queued_assertions_ d)
    (n_overall_keyboard_reports_ d) (n_keyboard_reports_in_cycle_ d).

Definition set_queued_cycle_assertions_ (q : list A) (d : Driver) : Driver :=
  mkDriver (debug_ d) (cycle_duration_ d) (abort_on_first_error_ d)
    (queued_keyboard_report_assertions_ d) (permanent_keyboard_report_assertions_ d)
    q (permanent_cycle_assertions_ d)
    (current_keyboard_report_ d) (cycle_id_ d) (time_ d)
    (scan_cycles_default_count_ d) (assertions_passed_ d)
    (error_if_report_without_queued_assertions_ d)
    (n_overall_keyboard_reports_ d) (n_keyboard_reports_in_cycle_ d).

Definition set_permanent_cycle_assertions_ (q : list A) (d : Driver) : Driver :=
  mkDriver (debug_ d) (cycle_duration_ d) (abort_on_first_error_ d)
    (queued_keyboard_report_assertions_ d) (permanent_keyboard_report_assertions_ d)
    (queued_cycle_assertions_ d) q
    (current_keyboard_report_ d) (cycle_id_ d) (time_ d)
    (scan_cycles_default_count_ d) (assertions_passed_ d)
    (error_if_report_without_queued_assertions_ d)
    (n_overall_keyboard_reports_ d) (n_keyboard_reports_in_cycle_ d).

Definition set_current_keyboard_report_ (r : Report) (d : Driver) : Driver :=
  mkDriver (debug_ d) (cycle_duration_ d) (abort_on_first_error_ d)
    (queued_keyboard_report_assertions_ d) (permanent_keyboard_report_assertions_ d)
    (queued_cycle_assertions_ d) (permanent_cycle_assertions_ d)
    r (cycle_id_ d) (time_ d)
    (scan_cycles_default_count_ d) (assertions_passed_ d)
    (error_if_report_without_queued_assertions_ d)
    (n_overall_keyboard_reports_ d) (n_keyboard_reports_in_cycle_ d).

Definition set_cycle_id_ (c : Z) (d : Driver) : Driver :=
  mkDriver (debug_ d) (cycle_duration_ d) (abort_on_first_error_ d)
    (queued_keyboard_report_assertions_ d) (permanent_keyboard_report_assertions_ d)
    (queued_cycle_assertions_ d) (permanent_cycle_assertions_ d)
    (current_keyboard_report_ d) c (time_ d)
    (scan_cycles_default_count_ d) (assertions_passed_ d)
    (error_if_report_without_queued_assertions_ d)
    (n_overall_keyboard_reports_ d) (n_keyboard_reports_in_cycle_ d).

Definition set_time_ (t : Z) (d : Driver) : Driver :=
  mkDriver (debug_ d) (cycle_duration_ d) (abort_on_first_error_ d)
    (queued_keyboard_report_assertions_ d) (permanent_keyboard_report_assertions_ d)
    (queued_cycle_assertions_ d) (permanent_cycle_assertions_ d)
    (current_keyboard_report_ d) (cycle_id_ d) t
    (scan_cycles_default_count_ d) (assertions_passed_ d)
    (error_if_report_without_queued_assertions_ d)
    (n_overall_keyboard_reports_ d) (n_keyboard_reports_in_cycle_ d).

Definition set_assertions_passed_ (b : bool) (d : Driver) : Driver :=
  mkDriver (debug_ d) (cycle_duration_ d) (abort_on_first_error_ d)
    (queued_keyboard_report_assertions_ d) (permanent_keyboard_report_assertions_ d)
    (queued_cycle_assertions_ d) (permanent_cycle_assertions_ d)
    (current_keyboard_report_ d) (cycle_id_ d) (time_ d)
    (scan_cycles_default_count_ d) b
    (error_if_report_without_queued_assertions_ d)
    (n_overall_keyboard_reports_ d) (n_keyboard_reports_in_cycle_ d).

Definition set_n_overall_keyboard_reports_ (n : Z) (d : Driver) : Driver :=
  mkDriver (debug_ d) (cycle_duration_ d) (abort_on_first_error_ d)
    (queued_keyboard_report_assertions_ d) (permanent_keyboard_report_assertions_ d)
    (queued_cycle_assertions_ d) (permanent_cycle_assertions_ d)
    (current_keyboard_report_ d) (cycle_id_ d) (time_ d)
    (scan_cycles_default_count_ d) (assertions_passed_ d)
    (error_if_report_without_queued_assertions_ d)
    n (n_keyboard_reports_in_cycle_ d).

Definition set_n_keyboard_reports_in_cycle_ (n : Z) (d : Driver) : Driver :=
  mkDriver (debug_ d) (cycle_duration_ d) (abort_on_first_error_ d)
    (queued_keyboard_report_assertions_ d) (permanent_keyboard_report_assertions_ d)
    (queued_cycle_assertions_ d) (permanent_cycle_assertions_ d)
    (current_keyboard_report_ d) (cycle_id_ d) (time_ d)
    (scan_cycles_default_count_ d) (assertions_passed_ d)
    (error_if_report_without_queued_assertions_ d)
    (n_overall_keyboard_reports_ d) n.

(** ** Events

    Everything the Driver does to the outside, in order: lines on the
    log and error streams (stamped with the time and cycle id that
    [DriverStream_::reactOnLineStart] prints in front of them), the line
    the report consumer writes to [std::cout], and the calls into the
    assertions and into the firmware. *)
Inductive Event : Type :=
| EvLog (t c : Z) (msg : LogMsg)
| EvError (t c : Z) (msg : ErrorMsg)
| EvCout
| EvSetDriver (a : A)
| EvLoop
| EvEval (a : A) (passed : bool)
| EvReport (a : A).

Record Machine : Type := mkMachine {
  driver : Driver;
  subject : Subject;
  trace : list Event
}.

(** ** Outcomes and the monad of Driver methods *)
Inductive Outcome (X : Type) : Type :=
| Done (x : X) (m : Machine)
| Exited (code : Z) (m : Machine)
| OutOfFuel (m : Machine).
Arguments Done {X} x m.
Arguments Exited {X} code m.
Arguments OutOfFuel {X} m.

Definition machine_of {X} (o : Outcome X) : Machine :=
  match o with
  | Done _ m | Exited _ m | OutOfFuel m => m
  end.

Definition M (X : Type) : Type := Machine -> Outcome X.

Definition ret {X} (x : X) : M X := fun m => Done x m.

Definition bind {X Y} (c : M X) (f : X -> M Y) : M Y :=
  fun m =>
    match c m with
    | Done x m' => f x m'
    | Exited code m' => Exited code m'
    | OutOfFuel m' => OutOfFuel m'
    end.

Notation "x <- c ;; k" := (bind c (fun x => k))
  (at level 61, c at next level, right associativity).
Notation "c ;; k" := (bind c (fun _ => k))
  (at level 61, right associativity).

Definition get_driver : M Driver := fun m => Done (driver m) m.

Definition modify_driver (f : Driver -> Driver) : M unit :=
  fun m => Done tt (mkMachine (f (driver m)) (subject m) (trace m)).

Definition emit (e : Event) : M unit :=
  fun m => Done tt (mkMachine (driver m) (subject m) (trace m ++ [e])).

(** [exit(code)] *)
Definition exit {X} (code : Z) : M X := fun m => Exited code m.

Definition when (b : bool) (c : M unit) : M unit :=
  if b then c else ret tt.

(** A range-based [for] over a container. *)
Fixpoint forM_ {X} (l : list X) (body : X -> M unit) : M unit :=
  match l with
  | [] => ret tt
  | x :: l' => body x ;; forM_ l' body
  end.

(** [for(int i = 0; i < n; ++i) body] for [n] already clipped at 0. *)
Fixpoint repeatM (n : nat) (body : M unit) : M unit :=
  match n with
  | O => ret tt
  | S n' => body ;; repeatM n' body
  end.

(** ** The streams

    [log() << ...]: a [LogStream] temporary; the line goes to [out_]. *)
Definition log (msg : LogMsg) : M unit :=
  d <- get_driver ;;
  emit (EvLog (time_ d) (cycle_id_ d) msg).

(** [error() << ...]: an [ErrorStream] temporary.  Its destructor runs at
    the end of the statement and calls [exit(1)] when
    [abort_on_first_error_] is set. *)
Definition error (msg : ErrorMsg) : M unit :=
  d <- get_driver ;;
  emit (EvError (time_ d) (cycle_id_ d) msg) ;;
  when (abort_on_first_error_ d) (exit 1).

(** ** The assertions and the firmware

    Both are collaborators outside [Driver.cpp].  [assertion->eval()] reads
    the Driver the assertion looks at and resolves to a boolean; it changes
    nothing.  [eval a d] is what it resolves to when that Driver is in the
    state [d]; the Driver passes its own state, which is what an assertion
    bound to this Driver by [setDriver] reads.  [::loop()] runs one scan cycle of the firmware: from the state
    of the firmware it determines the reports of this cycle, in the order
    in which they are sent, and the next state.  The firmware does not see
    the Driver, so the reports of a cycle do not depend on how the Driver
    handles them. *)
Variable eval : A -> Driver -> bool.
Variable loop : Subject -> list Report * Subject.

(** [assertion->setDriver(this)]: the call is recorded on the trace. *)
Definition setDriver (a : A) : M unit := emit (EvSetDriver a).

(** [Driver::processKeyboardReportAssertion] *)
Definition processKeyboardReportAssertion (a : A) : M unit :=
  d <- get_driver ;;
  let assertion_passed := eval a d in
  emit (EvEval a assertion_passed) ;;
  when (negb assertion_passed || debug_ d) (emit (EvReport a)) ;;
  modify_driver (fun d =>
    set_assertions_passed_ (assertions_passed_ d && assertion_passed) d).

(** Modelled from the spec: [Driver::processCycleAssertions] is defined in
    [Driver.h], which is not part of the sources.  Section 4.2 of the
    specification: every entry of the list is evaluated under the
    evaluation policy shared by the report and the cycle assertions: call
    [eval()]; if it returns false or the debug flag is set call
    [report(sink)]; AND the result into the aggregate pass flag. *)
Definition processCycleAssertion (a : A) : M unit :=
  d <- get_driver ;;
  let assertion_passed := eval a d in
  emit (EvEval a assertion_passed) ;;
  when (negb assertion_passed || debug_ d) (emit (EvReport a)) ;;
  modify_driver (fun d =>
    set_assertions_passed_ (assertions_passed_ d && assertion_passed) d).

(** Modelled from the spec: [Driver::processCycleAssertions(list)] applies
    this policy to every entry of the list, in order. *)
Definition processCycleAssertions (l : list A) : M unit :=
  forM_ l processCycleAssertion.

(** [Driver::processKeyboardReport] *)
Definition processKeyboardReport (report_data : Report) : M unit :=
  modify_driver (set_current_keyboard_report_ report_data) ;;
  modify_driver (fun d =>
    set_n_overall_keyboard_reports_ (n_overall_keyboard_reports_ d + 1) d) ;;
  modify_driver (fun d =>
    set_n_keyboard_reports_in_cycle_ (n_keyboard_reports_in_cycle_ d + 1) d) ;;
  d <- get_driver ;;
  log (MsgProcessingReport (n_overall_keyboard_reports_ d)
         (n_keyboard_reports_in_cycle_ d) (cycle_id_ d)) ;;
  let n_assertions_queued :=
    AssertionQueue.size (queued_keyboard_report_assertions_ d) in
  log (MsgQueuedReportAssertions n_assertions_queued) ;;
  (if negb (AssertionQueue.empty (queued_keyboard_report_assertions_ d)) then
     match AssertionQueue.popFront (queued_keyboard_report_assertions_ d) with
     | Some (a, q') =>
         modify_driver (set_queued_keyboard_report_assertions_ q') ;;
         processKeyboardReportAssertion a
     | None => error ErrEmptyQueue
     end
   else ret tt) ;;
  d <- get_driver ;;
  (if negb (AssertionQueue.empty (permanent_keyboard_report_assertions_ d)) then
     log (MsgPermanentReportAssertions
            (AssertionQueue.size (permanent_keyboard_report_assertions_ d))) ;;
     forM_ (AssertionQueue.directAccess (permanent_keyboard_report_assertions_ d))
           processKeyboardReportAssertion
   else ret tt) ;;
  d <- get_driver ;;
  when ((n_assertions_queued =? 0)%nat
        && error_if_report_without_queued_assertions_ d)
       (error ErrReportWithoutQueued).

(** [Driver::KeyboardReportConsumer::processKeyboardReport] *)
Definition KeyboardReportConsumer_processKeyboardReport (report_data : Report)
  : M unit :=
  emit EvCout ;;
  processKeyboardReport report_data.

(** The firmware reaches its next state. *)
Definition set_subject (w : Subject) : M unit :=
  fun m => Done tt (mkMachine (driver m) w (trace m)).

(** What happens inside [::loop()]: every report of this scan cycle goes
    through the report consumer, one after the other, before [loop]
    returns. *)
Definition loop_reports : M unit :=
  fun m =>
    let (reports, w') := loop (subject m) in
    (forM_ reports KeyboardReportConsumer_processKeyboardReport ;;
     set_subject w') m.

(** The call [::loop()] of [cycleInternal]. *)
Definition run_loop : M unit :=
  emit EvLoop ;;
  loop_reports.

(** [Driver::cycleInternal] *)
Definition cycleInternal (on_stop_assertion_list : list A)
                         (only_log_reports : bool) : M unit :=
  modify_driver (fun d => set_cycle_id_ (cycle_id_ d + 1) d) ;;
  modify_driver (set_n_keyboard_reports_in_cycle_ 0) ;;
  d <- get_driver ;;
  when (negb only_log_reports) (log (MsgScanCycle (cycle_id_ d))) ;;
  (if AssertionQueue.empty on_stop_assertion_list then
     forM_ on_stop_assertion_list setDriver
   else ret tt) ;;
  run_loop ;;
  d <- get_driver ;;
  (if n_keyboard_reports_in_cycle_ d =? 0 then
     when (negb only_log_reports) (log MsgNoReports)
   else
     log (MsgReportsProcessed (n_keyboard_reports_in_cycle_ d))) ;;
  modify_driver (fun d => set_time_ (time_ d + cycle_duration_ d) d) ;;
  (if negb (AssertionQueue.empty on_stop_assertion_list) then
     log (MsgProcessingOnStop (length on_stop_assertion_list)) ;;
     processCycleAssertions on_stop_assertion_list
   else ret tt) ;;
  d <- get_driver ;;
  (if negb (AssertionQueue.empty (queued_cycle_assertions_ d)) then
     log (MsgProcessingQueuedCycle
            (AssertionQueue.size (queued_cycle_assertions_ d))) ;;
     processCycleAssertions
       (AssertionQueue.directAccess (queued_cycle_assertions_ d)) ;;
     modify_driver (fun d =>
       set_queued_cycle_assertions_
         (AssertionQueue.clear (queued_cycle_assertions_ d)) d)
   else ret tt) ;;
  d <- get_driver ;;
  (if negb (AssertionQueue.empty (permanent_cycle_assertions_ d)) then
     log (MsgProcessingPermanentCycle
            (AssertionQueue.size (permanent_cycle_assertions_ d))) ;;
     processCycleAssertions
       (AssertionQueue.directAccess (permanent_cycle_assertions_ d))
   else ret tt).

(** [Driver::cycle] *)
Definition cycle (on_stop_assertion_list : list A) : M unit :=
  log MsgRunningSingleCycle ;;
  cycleInternal on_stop_assertion_list true ;;
  log MsgNewline.

(** The [for] loop of [Driver::cycles]: [n] scan cycles, each followed by
    the per-cycle assertions. *)
Definition cycles_loop (n : nat) (cycle_assertion_list : list A) : M unit :=
  repeatM n (cycleInternal cycle_assertion_list true).

(** [Driver::cycles] *)
Definition cycles (n : Z) (on_stop_assertion_list cycle_assertion_list : list A)
  : M unit :=
  d <- get_driver ;;
  let n := if n =? 0 then scan_cycles_default_count_ d else n in
  log (MsgRunningCycles n) ;;
  (if negb (AssertionQueue.empty on_stop_assertion_list) then
     forM_ on_stop_assertion_list setDriver
   else ret tt) ;;
  cycles_loop (Z.to_nat n) cycle_assertion_list ;;
  (if negb (AssertionQueue.empty on_stop_assertion_list) then
     log (MsgProcessingOnStop (length on_stop_assertion_list)) ;;
     processCycleAssertions on_stop_assertion_list
   else ret tt) ;;
  log MsgNewline.

(** [Driver::checkCycleDurationSet] *)
Definition checkCycleDurationSet : M unit :=
  d <- get_driver ;;
  when (cycle_duration_ d =? 0) (error ErrCycleDurationNotSet).

(** The [while] loop of [Driver::skipTime].  It is the one unbounded loop
    of the Driver; [fuel] bounds the number of iterations the model is
    willing to run and is only consumed by an iteration that is really
    entered.  The result is the last value of [elapsed_time]. *)
Fixpoint skipTime_loop (fuel : nat) (delta_t : double) (start_time : Z)
                       (elapsed_time : double) : M double :=
  if Double.ltb elapsed_time delta_t then
    match fuel with
    | O => fun m => OutOfFuel m
    | S fuel' =>
        cycleInternal [] true ;;
        d <- get_driver ;;
        skipTime_loop fuel' delta_t start_time
                      (Double.of_int (time_ d - start_time))
    end
  else ret elapsed_time.

(** [Driver::skipTime] *)
Definition skipTime (fuel : nat) (delta_t : double)
                    (on_stop_assertion_list : list A) : M unit :=
  checkCycleDurationSet ;;
  d <- get_driver ;;
  let start_cycle := cycle_id_ d in
  log (MsgSkipping delta_t) ;;
  (if negb (AssertionQueue.empty on_stop_assertion_list) then
     forM_ on_stop_assertion_list setDriver
   else ret tt) ;;
  d <- get_driver ;;
  let start_time := time_ d in
  elapsed_time <- skipTime_loop fuel delta_t start_time (Double.of_int 0) ;;
  d <- get_driver ;;
  log (MsgSkipped elapsed_time (cycle_id_ d)) ;;
  (if negb (AssertionQueue.empty on_stop_assertion_list) then
     log (MsgProcessingOnStop (length on_stop_assertion_list)) ;;
     processCycleAssertions on_stop_assertion_list
   else ret tt) ;;
  log MsgNewline.

(** [Driver::checkStatus] *)
Definition checkStatus : M bool :=
  d <- get_driver ;;
  let success := true in
  success <-
    (if negb (AssertionQueue.empty (queued_keyboard_report_assertions_ d)) then
       error (ErrLeftOverAssertions
                (AssertionQueue.size (queued_keyboard_report_assertions_ d))) ;;
       ret false
     else ret success) ;;
  success <-
    (if negb (assertions_passed_ d) then
       error ErrNotAllPassed ;; ret false
     else ret success) ;;
  if success then
    log MsgAllTestsPassed ;; ret true
  else
    error ErrErrorsOccurred ;; ret false.

(** [Driver::footerText] *)
Definition footerText : M unit :=
  log MsgNewline ;;
  log MsgBannerLine ;;
  log MsgTestingDone ;;
  log MsgBannerLine ;;
  log MsgNewline.

(** [Driver::~Driver] *)
Definition Driver_destroy : M unit :=
  footerText ;;
  ok <- checkStatus ;;
  if negb ok then error ErrTerminating ;; exit 1 else ret tt.

(** ** Reading a trace

    What a run did is read off the events it appended to the trace: the
    scan cycles it ran, the assertions it evaluated (in order) and whether
    all of them passed, the assertions it bound to the Driver, the errors
    it reported and the reports that reached the consumer. *)
Fixpoint ticks (tr : list Event) : nat :=
  match tr with
  | [] => O
  | EvLoop :: tr' => S (ticks tr')
  | _ :: tr' => ticks tr'
  end.

Fixpoint evaluated (tr : list Event) : list A :=
  match tr with
  | [] => []
  | EvEval a _ :: tr' => a :: evaluated tr'
  | _ :: tr' => evaluated tr'
  end.

Fixpoint all_passed (tr : list Event) : bool :=
  match tr with
  | [] => true
  | EvEval _ passed :: tr' => passed && all_passed tr'
  | _ :: tr' => all_passed tr'
  end.

Fixpoint bound (tr : list Event) : list A :=
  match tr with
  | [] => []
  | EvSetDriver a :: tr' => a :: bound tr'
  | _ :: tr' => bound tr'
  end.

Fixpoint errors (tr : list Event) : list ErrorMsg :=
  match tr with
  | [] => []
  | EvError _ _ e :: tr' => e :: errors tr'
  | _ :: tr' => errors tr'
  end.

Fixpoint reports_delivered (tr : list Event) : nat :=
  match tr with
  | [] => O
  | EvCout :: tr' => S (reports_delivered tr')
  | _ :: tr' => reports_delivered tr'
  end.

(** No assertion is registered with the Driver. *)
Definition no_assertions (d : Driver) : Prop :=
  queued_keyboard_report_assertions_ d = [] /\
  permanent_keyboard_report_assertions_ d = [] /\
  queued_cycle_assertions_ d = [] /\
  permanent_cycle_assertions_ d = [].


(** The members no method of [Driver.cpp] writes: the configuration and
    the two permanent collections. *)
Definition setup (d : Driver) :=
  (debug_ d, cycle_duration_ d, abort_on_first_error_ d,
   error_if_report_without_queued_assertions_ d, scan_cycles_default_count_ d,
   permanent_keyboard_report_assertions_ d, permanent_cycle_assertions_ d).

(** The events of a run that only evaluates the assertions [l]. *)
Definition evaluation_of (l : list A) (ev : list Event) : Prop :=
  evaluated ev = l /\ ticks ev = O /\ bound ev = [] /\ errors ev = [] /\
  reports_delivered ev = O.

(** The bookkeeping of [processKeyboardReport]: the report is stored, the
    two report counters are incremented and the queued report assertions
    lose their head. *)
Definition report_taken (r : Report) (d : Driver) : Driver :=
  set_queued_keyboard_report_assertions_
    (tl (queued_keyboard_report_assertions_ d))
    (set_n_keyboard_reports_in_cycle_ (n_keyboard_reports_in_cycle_ d + 1)
       (set_n_overall_keyboard_reports_ (n_overall_keyboard_reports_ d + 1)
          (set_current_keyboard_report_ r d))).

(** A report arrives in strict mode and no report assertion is queued. *)
Definition underflow (d : Driver) : bool :=
  AssertionQueue.empty (queued_keyboard_report_assertions_ d)
  && error_if_report_without_queued_assertions_ d.

(** The state the Driver reaches by appending [e] to its trace. *)
Definition with_event (e : Event) (m : Machine) : Machine :=
  mkMachine (driver m) (subject m) (trace m ++ [e]).

(** ** Outcome triples

    [hoare P Q QE QF c]: started in a state satisfying [P], the method [c]
    returns in a state satisfying [Q], or terminates the process with an
    exit code and in a state satisfying [QE], or runs out of fuel in a
    state satisfying [QF]. *)
Definition hoare {X} (P Q : Machine -> Prop) (QE : Z -> Machine -> Prop)
                 (QF : Machine -> Prop) (c : M X) : Prop :=
  forall m, P m ->
    match c m with
    | Done _ m' => Q m'
    | Exited code m' => QE code m'
    | OutOfFuel m' => QF m'
    end.

Definition never_exits : Z -> Machine -> Prop := fun _ _ => False.
Definition never_starves : Machine -> Prop := fun _ => False.
Definition anywhere : Machine -> Prop := fun _ => True.

(** The process was terminated by a strict-mode error under
    abort-on-first-error. *)
Definition strict_abort (code : Z) (m : Machine) : Prop :=
  code = 1 /\
  abort_on_first_error_ (driver m) = true /\
  error_if_report_without_queued_assertions_ (driver m) = true.

(** Abort-on-first-error is off, or the Driver is not in strict mode: no
    report can terminate the process. *)
Definition lenient (m : Machine) : Prop :=
  abort_on_first_error_ (driver m) = false \/
  error_if_report_without_queued_assertions_ (driver m) = false.

(** The clock of the Driver: the cycle id, the simulated time, the number
    of scan cycles on the trace and the duration of a cycle. *)
Definition clock (c t : Z) (k : nat) (d : Z) (m : Machine) : Prop :=
  cycle_id_ (driver m) = c /\ time_ (driver m) = t /\
  ticks (trace m) = k /\ cycle_duration_ (driver m) = d.

(** No assertion is registered and the aggregate flag is [b]. *)
Definition idle (b : bool) (m : Machine) : Prop :=
  no_assertions (driver m) /\ assertions_passed_ (driver m) = b.


(** No cycle assertion is registered. *)
Definition no_cycle_assertions (d : Driver) : Prop :=
  queued_cycle_assertions_ d = [] /\ permanent_cycle_assertions_ d = [].


(** The trace begins with [tr0]: the trace of a run grows at its end. *)
Definition grows (tr0 : list Event) (m : Machine) : Prop :=
  exists ev, trace m = tr0 ++ ev.

(** What [checkStatus] looks for: queued report assertions are left over,
    or an assertion failed earlier in the run. *)
Definition unfinished (d : Driver) : bool :=
  negb (AssertionQueue.empty (queued_keyboard_report_assertions_ d))
  || negb (assertions_passed_ d).

(** ** Further predicates on states and traces *)

(** The aggregate pass flag is the flag [b0] the run started with, ANDed
    with the results of the evaluations the run appended to the trace
    [tr0] it started with. *)
Definition aggregates (tr0 : list Event) (b0 : bool) (m : Machine) : Prop :=
  exists ev,
    trace m = tr0 ++ ev /\
    assertions_passed_ (driver m) = b0 && all_passed ev.

(** The process was terminated with exit code 1 right after an error
    diagnostic: the diagnostic is the last event of the trace. *)
Definition diagnosed (code : Z) (m : Machine) : Prop :=
  code = 1 /\
  abort_on_first_error_ (driver m) = true /\
  exists tr t c e, trace m = tr ++ [EvError t c e].

(** The time span [delta_t] is out of reach of scan cycles of duration [d]:
    however many of them have run, the elapsed time is below it. *)
Definition out_of_reach (d : Z) (delta_t : double) : Prop :=
  forall i : nat, Double.ltb (Double.of_int (Z.of_nat i * d)) delta_t = true.

(** The assertions evaluated against [k] successive reports when [q] is
    the queue of report assertions and [pr] the permanent report
    assertions: for every report the front of the queue, if there is one,
    and then every permanent assertion. *)
Fixpoint report_evaluations (pr : list A) (k : nat) (q : list A) : list A :=
  match k with
  | O => []
  | S k' => firstn 1 q ++ pr ++ report_evaluations pr k' (tl q)
  end.

(** The errors reported for [k] successive reports when [q] is the queue
    of report assertions: in strict mode, one for every report that finds
    the queue empty. *)
Fixpoint report_errors (strict : bool) (k : nat) (q : list A) : list ErrorMsg :=
  match k with
  | O => []
  | S k' =>
      (if AssertionQueue.empty q && strict then [ErrReportWithoutQueued] else [])
      ++ report_errors strict k' (tl q)
  end.

(** The books of the Driver: its four collections of assertions, its two
    report counters, the assertions evaluated, the errors reported and the
    reports that reached the consumer so far, and the state of the
    firmware; [s] is the strict-mode flag. *)
Definition books (s : bool) (pr pc : list A) (q qc : list A) (o n : Z)
                 (e : list A) (r : list ErrorMsg) (c : nat) (w : Subject)
                 (m : Machine) : Prop :=
  error_if_report_without_queued_assertions_ (driver m) = s /\
  errors (trace m) = r /\
  reports_delivered (trace m) = c /\
  queued_keyboard_report_assertions_ (driver m) = q /\
  permanent_keyboard_report_assertions_ (driver m) = pr /\
  queued_cycle_assertions_ (driver m) = qc /\
  permanent_cycle_assertions_ (driver m) = pc /\
  n_overall_keyboard_reports_ (driver m) = o /\
  n_keyboard_reports_in_cycle_ (driver m) = n /\
  evaluated (trace m) = e /\
  subject m = w.

(** No assertion is registered with the Driver; the assertions evaluated
    so far are [e] and the assertions bound so far are [b]. *)
Definition schedule (e b : list A) (m : Machine) : Prop :=
  no_assertions (driver m) /\ evaluated (trace m) = e /\ bound (trace m) = b.

(** The trace shows, right after the events [tr1], an evaluation of the
    assertion [a] on the Driver [dx]. *)
Definition evaluated_at (a : A) (dx : Driver) (tr1 : list Event) (m : Machine) : Prop :=
  exists tr2, trace m = tr1 ++ EvEval a (eval a dx) :: tr2.

(** The assertions evaluated by [n] successive scan cycles, each followed
    by the cycle assertions [l] of the call, when the firmware starts in
    state [w], [q] is the queue of report assertions and [qc] the queued
    cycle assertions: in every cycle the assertions of its reports, then
    [l], then the queued cycle assertions, which are dropped after their
    first evaluation, then the permanent cycle assertions. *)
Fixpoint cycles_evaluations (pr pc l : list A) (n : nat) (q qc : list A)
                            (w : Subject) : list A :=
  match n with
  | O => []
  | S n' =>
      let k := length (fst (loop w)) in
      report_evaluations pr k q ++ l ++ qc ++ pc
      ++ cycles_evaluations pr pc l n' (skipn k q) [] (snd (loop w))
  end.

(** What a run of [j] scan cycles, each followed by the cycle assertions
    [l], did between the states [m] and [m']. *)
Definition ran (l : list A) (j : nat) (m m' : Machine) : Prop :=
  ticks (trace m') = (ticks (trace m) + j)%nat /\
  evaluated (trace m')
  = evaluated (trace m)
    ++ cycles_evaluations
         (permanent_keyboard_report_assertions_ (driver m))
         (permanent_cycle_assertions_ (driver m)) l j
         (queued_keyboard_report_assertions_ (driver m))
         (queued_cycle_assertions_ (driver m)) (subject m).

(** The number of reports the firmware sends in its next [n] scan cycles,
    from the state [w]. *)
Fixpoint reports_in (n : nat) (w : Subject) : nat :=
  match n with
  | O => O
  | S n' => (length (fst (loop w)) + reports_in n' (snd (loop w)))%nat
  end.

(** The assertions that were asked to report, and the assertions whose
    evaluation failed, in the order of the trace. *)
Fixpoint reported (tr : list Event) : list A :=
  match tr with
  | [] => []
  | EvReport a :: tr' => a :: reported tr'
  | _ :: tr' => reported tr'
  end.

Fixpoint failed (tr : list Event) : list A :=
  match tr with
  | [] => []
  | EvEval a false :: tr' => a :: failed tr'
  | _ :: tr' => failed tr'
  end.

(** The evaluation policy, read off the events [ev]: in debug mode every
    evaluated assertion reports, otherwise the failed ones do. *)
Definition reports_by_policy (dbg : bool) (ev : list Event) : Prop :=
  reported ev = if dbg then evaluated ev else failed ev.

(** Since the trace was [tr0], the Driver followed the evaluation policy,
    and its debug flag is [dbg]. *)
Definition follows_policy (tr0 : list Event) (dbg : bool) (m : Machine) : Prop :=
  debug_ (driver m) = dbg /\
  exists ev, trace m = tr0 ++ ev /\ reports_by_policy dbg ev.

(** The results of the evaluations on a trace, in order. *)
Fixpoint results (tr : list Event) : list (A * bool) :=
  match tr with
  | [] => []
  | EvEval a passed :: tr' => (a, passed) :: results tr'
  | _ :: tr' => results tr'
  end.







End Model.

Arguments Done {A Report Subject X} x m.
Arguments Exited {A Report Subject X} code m.
Arguments OutOfFuel {A Report Subject X} m.

(** ** The simulated key matrix

    [keyDown], [keyUp], [tapKey], [clearAllKeys] and [initKeyboard] write
    one line to the log and call into [KeyboardHardware] and
    [kaleidoscope::hid].  They read the Driver for the stamp of the log
    line and write none of its members, so what they do is the list of
    the lines they log and the calls they make, in order. *)
Module Keys.

(** The key states of [kaleidoscope::hardware::Virtual] the Driver uses. *)
Inductive KeyState : Type :=
| PRESSED
| NOT_PRESSED
| TAP.

Inductive KeyMsg : Type :=
| MsgActivatingKey (row col : Z)   (* "+ Activating key (<row>, <col>)\n" *)
| MsgReleasingKey (row col : Z)    (* "+ Releasing key (<row>, <col>)\n" *)
| MsgTappingKey (row col : Z)      (* "+- Tapping key (<row>, <col>)\n" *)
| MsgClearingAllKeys.              (* "- Clearing all keys\n" *)

Inductive KeyEvent : Type :=
| EvKeyLog (t c : Z) (msg : KeyMsg)
| EvSetKeystate (row col : Z) (state : KeyState)
| EvInitializeKeyboard.

(** The values [c], [c + 1], ... ([j] of them). *)
Fixpoint count_from (c : Z) (j : nat) : list Z :=
  match j with
  | O => []
  | S j' => c :: count_from (c + 1) j'
  end.

(** The keys of a matrix with [rows] rows and [columns] columns, row by
    row. *)
Definition keys_of_matrix (rows columns : Z) : list (Z * Z) :=
  flat_map (fun row => map (fun col => (row, col))
                           (count_from 0 (Z.to_nat columns)))
           (count_from 0 (Z.to_nat rows)).

Section Matrix.
Context {A Report : Type}.

(** [KeyboardHardware.matrix_rows] and [KeyboardHardware.matrix_columns] *)
Variables matrix_rows matrix_columns : Z.

(** [b++] on a [byte]. *)
Definition byte_incr (b : Z) : Z := (b + 1) mod 256.

(** [log() << ...] *)
Definition log (d : @Driver A Report) (msg : KeyMsg) : KeyEvent :=
  EvKeyLog (time_ d) (cycle_id_ d) msg.

(** [Driver::keyDown]; [row] and [col] are the values of its [uint8_t]
    parameters. *)
Definition keyDown (row col : Z) (d : @Driver A Report) : list KeyEvent :=
  [log d (MsgActivatingKey row col); EvSetKeystate row col PRESSED].

(** [Driver::keyUp] *)
Definition keyUp (row col : Z) (d : @Driver A Report) : list KeyEvent :=
  [log d (MsgReleasingKey row col); EvSetKeystate row col NOT_PRESSED].

(** [Driver::tapKey] *)
Definition tapKey (row col : Z) (d : @Driver A Report) : list KeyEvent :=
  [log d (MsgTappingKey row col); EvSetKeystate row col TAP].

(** The inner [for] loop of [Driver::clearAllKeys], from the column [col]
    on.  Its counter is a [byte]; [fuel] bounds the iterations the model
    is willing to run, and [None] is a loop that is still running when the
    fuel is used up. *)
Fixpoint clear_columns (fuel : nat) (row col : Z) : option (list KeyEvent) :=
  if col <? matrix_columns then
    match fuel with
    | O => None
    | S fuel' =>
        option_map (cons (EvSetKeystate row col NOT_PRESSED))
                   (clear_columns fuel' row (byte_incr col))
    end
  else Some [].

(** The outer [for] loop of [Driver::clearAllKeys], from the row [row]
    on. *)
Fixpoint clear_rows (fuel : nat) (row : Z) : option (list KeyEvent) :=
  if row <? matrix_rows then
    match fuel with
    | O => None
    | S fuel' =>
        match clear_columns fuel row 0 with
        | None => None
        | Some evs => option_map (app evs) (clear_rows fuel' (byte_incr row))
        end
    end
  else Some [].

(** [Driver::clearAllKeys] *)
Definition clearAllKeys (fuel : nat) (d : @Driver A Report)
  : option (list KeyEvent) :=
  option_map (cons (log d MsgClearingAllKeys)) (clear_rows fuel 0).

(** [Driver::initKeyboard] *)
Definition initKeyboard (fuel : nat) (d : @Driver A Report)
  : option (list KeyEvent) :=
  option_map (fun evs => evs ++ [EvInitializeKeyboard]) (clearAllKeys fuel d).

End Matrix.
End Keys.

(** ** A small test bench

    Assertions and reports are numbers; assertion [n] expects the current
    report to be [n].  The quiet firmware never sends a report, the chatty
    one sends one report per scan cycle and numbers them. *)
Module Bench.

Definition expects (a : nat) (d : @Driver nat nat) : bool :=
  Nat.eqb a (current_keyboard_report_ d).

Definition quiet (w : unit) : list nat * unit := ([], tt).

Definition chatty (w : nat) : list nat * nat := ([w], S w).

Definition new_driver (cycle_duration : Z) (abort_on_first_error strict : bool)
  : @Driver nat nat :=
  mkDriver false cycle_duration abort_on_first_error [] [] [] [] 0%nat
           0 0 5 true strict 0 0.

Definition quiet_machine (d : @Driver nat nat) : @Machine nat nat unit :=
  mkMachine d tt [].

Definition chatty_machine (d : @Driver nat nat) : @Machine nat nat nat :=
  mkMachine d 0%nat [].

(** A lenient Driver with a cycle duration of 10 and a quiet firmware. *)
Definition calm : @Machine nat nat unit :=
  quiet_machine (new_driver 10 false false).

(** The same Driver with the report assertions 1 and 2 queued. *)
Definition expecting : @Machine nat nat unit :=
  quiet_machine
    (set_queued_keyboard_report_assertions_
       (AssertionQueue.pushBack 2%nat (AssertionQueue.pushBack 1%nat []))
       (new_driver 10 false false)).

(** A strict Driver that goes on after an error, in front of a quiet
    firmware. *)
Definition strict_calm : @Machine nat nat unit :=
  quiet_machine (new_driver 10 false true).

(** A strict Driver with abort-on-first-error in front of the chatty
    firmware. *)
Definition strict_aborting : @Machine nat nat nat :=
  chatty_machine (new_driver 10 true true).


(** A Driver with abort-on-first-error and a left-over queued report
    assertion. *)
Definition aborting_leftover : @Machine nat nat unit :=
  quiet_machine
    (set_queued_keyboard_report_assertions_
       (AssertionQueue.pushBack 1%nat []) (new_driver 10 true false)).

(** Drivers whose cycle duration is not set, without and with
    abort-on-first-error. *)
Definition unset : @Machine nat nat unit :=
  quiet_machine (new_driver 0 false false).

Definition unset_aborting : @Machine nat nat unit :=
  quiet_machine (new_driver 0 true false).

(** A firmware that sends two reports per scan cycle. *)
Definition bursty (w : nat) : list nat * nat := ([w; S w], S (S w)).

(** A lenient Driver in front of the chatty firmware with assertions in
    all four collections: the report assertions 0 and 1 queued, the
    permanent report assertion 0, the queued cycle assertion 3 and the
    permanent cycle assertion 4. *)
Definition busy : @Machine nat nat nat :=
  chatty_machine
    (set_permanent_cycle_assertions_ (AssertionQueue.add 4%nat [])
       (set_queued_cycle_assertions_ (AssertionQueue.pushBack 3%nat [])
          (set_permanent_keyboard_report_assertions_ (AssertionQueue.add 0%nat [])
             (set_queued_keyboard_report_assertions_
                (AssertionQueue.pushBack 1%nat (AssertionQueue.pushBack 0%nat []))
                (new_driver 10 false false))))).

(** A strict Driver that goes on after an error, with the report assertion
    0 queued, in front of the bursty firmware. *)
Definition strict_bursty : @Machine nat nat nat :=
  chatty_machine
    (set_queued_keyboard_report_assertions_
       (AssertionQueue.pushBack 0%nat []) (new_driver 10 false true)).

(** A lenient Driver whose clock runs backwards. *)
Definition backwards : @Machine nat nat unit :=
  quiet_machine (new_driver (-10) false false).


End Bench.

(** * Properties *)
Section Properties.

Context {A Report Subject : Type}.
Variable eval : A -> @Driver A Report -> bool.
Variable loop : Subject -> list Report * Subject.

Local Notation "'Mach'" := (@Machine A Report Subject).
Local Notation "'Ev'" := (@Event A).

(** ** Traces *)
Lemma ticks_app (tr1 tr2 : list Ev) : ticks (tr1 ++ tr2) = (ticks tr1 + ticks tr2)%nat.
Proof.
  induction tr1 as [|e tr1 IH]; [reflexivity|].
  destruct e; cbn; rewrite IH; reflexivity.
Qed.

Lemma evaluated_app (tr1 tr2 : list Ev) :
  evaluated (tr1 ++ tr2) = evaluated tr1 ++ evaluated tr2.
Proof.
  induction tr1 as [|e tr1 IH]; [reflexivity|].
  destruct e; cbn; rewrite IH; reflexivity.
Qed.

Lemma all_passed_app (tr1 tr2 : list Ev) :
  all_passed (tr1 ++ tr2) = all_passed tr1 && all_passed tr2.
Proof.
  induction tr1 as [|e tr1 IH]; [reflexivity|].
  destruct e; cbn; rewrite IH; auto using andb_assoc.
Qed.

Lemma bound_app (tr1 tr2 : list Ev) : bound (tr1 ++ tr2) = bound tr1 ++ bound tr2.
Proof.
  induction tr1 as [|e tr1 IH]; [reflexivity|].
  destruct e; cbn; rewrite IH; reflexivity.
Qed.

Lemma errors_app (tr1 tr2 : list Ev) : errors (tr1 ++ tr2) = errors tr1 ++ errors tr2.
Proof.
  induction tr1 as [|e tr1 IH]; [reflexivity|].
  destruct e; cbn; rewrite IH; reflexivity.
Qed.

Lemma reports_delivered_app (tr1 tr2 : list Ev) :
  reports_delivered (tr1 ++ tr2) = (reports_delivered tr1 + reports_delivered tr2)%nat.
Proof.
  induction tr1 as [|e tr1 IH]; [reflexivity|].
  destruct e; cbn; rewrite IH; reflexivity.
Qed.

(** ** Rules for outcome triples *)
Section Rules.
Context {X Y : Type}.
Variables (P Q R : Mach -> Prop) (QE : Z -> Mach -> Prop) (QF : Mach -> Prop).

Lemma hoare_ret (x : X) : (forall m, P m -> Q m) -> hoare P Q QE QF (ret x).
Proof. intros H m Hm. cbn. auto. Qed.

Lemma hoare_bind (c : M X) (f : X -> M Y) :
  hoare P R QE QF c -> (forall x, hoare R Q QE QF (f x)) ->
  hoare P Q QE QF (bind c f).
Proof.
  intros Hc Hf m Hm. unfold bind. specialize (Hc m Hm).
  destruct (c m) as [x m'| |]; auto. apply Hf. assumption.
Qed.

Lemma hoare_exit (code : Z) : (forall m, P m -> QE code m) -> hoare P Q QE QF (@exit A Report Subject X code).
Proof. intros H m Hm. cbn. auto. Qed.
End Rules.

(** Rules for the primitives. *)
Section PrimitiveRules.
Variables (P Q : Mach -> Prop) (QE : Z -> Mach -> Prop) (QF : Mach -> Prop).

Lemma hoare_get_driver :
  (forall m, P m -> Q m) -> hoare P Q QE QF (@get_driver A Report Subject).
Proof. intros H m Hm. cbn. auto. Qed.

Lemma hoare_modify (g : Driver -> Driver) :
  (forall m, P m -> Q (mkMachine (g (driver m)) (subject m) (trace m))) ->
  hoare P Q QE QF (modify_driver g).
Proof. intros H m Hm. cbn. auto. Qed.

Lemma hoare_emit (e : Ev) :
  (forall m, P m -> Q (with_event e m)) -> hoare P Q QE QF (emit e).
Proof. intros H m Hm. cbn. apply H. assumption. Qed.

Lemma hoare_log (msg : LogMsg) :
  (forall m, P m ->
     Q (with_event (EvLog (time_ (driver m)) (cycle_id_ (driver m)) msg) m)) ->
  hoare P Q QE QF (log msg).
Proof. intros H m Hm. cbn. apply H. assumption. Qed.

Lemma hoare_error (msg : ErrorMsg) :
  (forall m, P m -> abort_on_first_error_ (driver m) = false ->
     Q (with_event (EvError (time_ (driver m)) (cycle_id_ (driver m)) msg) m)) ->
  (forall m, P m -> abort_on_first_error_ (driver m) = true ->
     QE 1 (with_event (EvError (time_ (driver m)) (cycle_id_ (driver m)) msg) m)) ->
  hoare P Q QE QF (error msg).
Proof.
  intros HQ HE m Hm. unfold error, bind, get_driver, emit, when. cbn.
  destruct (abort_on_first_error_ (driver m)) eqn:Ea; cbn.
  - apply HE; assumption.
  - apply HQ; assumption.
Qed.

Lemma hoare_when (b : bool) (c : M unit) :
  (b = true -> hoare P Q QE QF c) -> (b = false -> forall m, P m -> Q m) ->
  hoare P Q QE QF (when b c).
Proof.
  intros Hc Hs. destruct b; cbn.
  - auto.
  - intros m Hm. cbn. auto.
Qed.
End PrimitiveRules.

(** Rules for loops: the loop invariant. *)
Section LoopRules.
Variables (I : Mach -> Prop) (QE : Z -> Mach -> Prop) (QF : Mach -> Prop).

Lemma hoare_forM {X} (l : list X) (body : X -> M unit) :
  (forall x, In x l -> hoare I I QE QF (body x)) -> hoare I I QE QF (forM_ l body).
Proof.
  induction l as [|x l IH]; intros H.
  - apply hoare_ret. auto.
  - cbn [forM_]. eapply hoare_bind.
    + apply H. left. reflexivity.
    + intros _. apply IH. intros y Hy. apply H. right. assumption.
Qed.

Lemma hoare_repeatM (n : nat) (body : M unit) :
  hoare I I QE QF body -> hoare I I QE QF (repeatM n body).
Proof.
  intros H. induction n as [|n IH].
  - apply hoare_ret. auto.
  - cbn [repeatM]. eapply hoare_bind; [exact H | intros _; exact IH].
Qed.
End LoopRules.

(** ** Evaluating assertions *)

(** One evaluation: the assertion is evaluated on the current Driver, it
    reports when it failed or in debug mode, and only the aggregate flag
    changes. *)
Lemma processKeyboardReportAssertion_run (a : A) (m : Mach) :
  processKeyboardReportAssertion eval a m =
  Done tt (mkMachine
             (set_assertions_passed_
                (assertions_passed_ (driver m) && eval a (driver m)) (driver m))
             (subject m)
             (trace m ++ EvEval a (eval a (driver m))
                      :: (if negb (eval a (driver m)) || debug_ (driver m)
                          then [EvReport a] else []))).
Proof.
  unfold processKeyboardReportAssertion, bind, get_driver, emit, when, modify_driver.
  cbn. destruct (negb (eval a (driver m)) || debug_ (driver m)); cbn.
  - rewrite <- app_assoc. reflexivity.
  - reflexivity.
Qed.

Lemma evaluation_of_app (l1 l2 : list A) (ev1 ev2 : list Ev) :
  evaluation_of l1 ev1 -> evaluation_of l2 ev2 ->
  evaluation_of (l1 ++ l2) (ev1 ++ ev2).
Proof.
  intros (E1 & T1 & B1 & R1 & D1) (E2 & T2 & B2 & R2 & D2).
  unfold evaluation_of.
  rewrite evaluated_app, ticks_app, bound_app, errors_app, reports_delivered_app.
  rewrite E1, E2, T1, T2, B1, B2, R1, R2, D1, D2. auto.
Qed.

Lemma set_assertions_passed_twice (b1 b2 : bool) (d : @Driver A Report) :
  set_assertions_passed_ b2 (set_assertions_passed_ b1 d) = set_assertions_passed_ b2 d.
Proof. reflexivity. Qed.

(** A list of assertions: every one is evaluated, in order, the run
    returns, and only the aggregate flag changes: it is ANDed with every
    result. *)
Lemma process_assertions_run (l : list A) (m : Mach) :
  exists ev,
    evaluation_of l ev /\
    forM_ l (processKeyboardReportAssertion eval) m =
    Done tt (mkMachine
               (set_assertions_passed_
                  (assertions_passed_ (driver m) && all_passed ev) (driver m))
               (subject m) (trace m ++ ev)).
Proof.
  revert m. induction l as [|a l IH]; intros m.
  - exists []. split; [unfold evaluation_of; cbn; auto|].
    cbn. rewrite app_nil_r, andb_true_r. destruct m as [[] w tr]; reflexivity.
  - cbn [forM_]. unfold bind at 1. rewrite processKeyboardReportAssertion_run.
    set (rep := if negb (eval a (driver m)) || debug_ (driver m)
                then [EvReport a] else []).
    match goal with |- context [forM_ l _ ?m1] => destruct (IH m1) as (ev & Hev & Hrun) end.
    rewrite Hrun. cbn [driver subject trace].
    assert (Hrep : evaluation_of [a] (EvEval a (eval a (driver m)) :: rep)).
    { unfold evaluation_of, rep.
      destruct (negb (eval a (driver m)) || debug_ (driver m)); cbn; auto. }
    assert (Hpass : all_passed (EvEval a (eval a (driver m)) :: rep) = eval a (driver m)).
    { unfold rep. destruct (negb (eval a (driver m)) || debug_ (driver m)); cbn;
        apply andb_true_r. }
    exists ((EvEval a (eval a (driver m)) :: rep) ++ ev). split.
    + apply (evaluation_of_app [a] l); assumption.
    + f_equal. f_equal.
      * rewrite set_assertions_passed_twice. f_equal.
        rewrite all_passed_app, Hpass. cbn. symmetry. apply andb_assoc.
      * rewrite <- app_assoc. reflexivity.
Qed.

(** ** One report

    The complete behaviour of [processKeyboardReport]: the events it
    appends, the state it reaches and whether it returns. *)
Ltac trace_facts E T B R D :=
  cbn;
  rewrite ?evaluated_app, ?ticks_app, ?bound_app, ?errors_app,
          ?reports_delivered_app, ?all_passed_app, ?E, ?T, ?B, ?R, ?D;
  cbn;
  rewrite <- ?app_assoc, ?app_nil_r, ?andb_true_r.

Lemma processKeyboardReport_run (r : Report) (m : Mach) :
  exists ev,
    evaluated ev =
      firstn 1 (queued_keyboard_report_assertions_ (driver m))
      ++ permanent_keyboard_report_assertions_ (driver m) /\
    ticks ev = O /\ bound ev = [] /\ reports_delivered ev = O /\
    errors ev = (if underflow (driver m) then [ErrReportWithoutQueued] else []) /\
    (forall a q, queued_keyboard_report_assertions_ (driver m) = a :: q ->
       exists ev0 ev1,
         ev = ev0 ++ EvEval a (eval a (report_taken r (driver m))) :: ev1 /\
         evaluated ev0 = [] /\
         evaluated ev1 = permanent_keyboard_report_assertions_ (driver m)) /\
    processKeyboardReport eval r m =
      let m' := mkMachine
                  (set_assertions_passed_
                     (assertions_passed_ (driver m) && all_passed ev)
                     (report_taken r (driver m)))
                  (subject m) (trace m ++ ev) in
      if underflow (driver m) && abort_on_first_error_ (driver m)
      then Exited 1 m' else Done tt m'.
Proof.
  destruct m as [d w tr].
  destruct d as [dbg dur ab q pr qc pc cur cid t dflt ap strict no nc].
  unfold processKeyboardReport, underflow, report_taken.
  destruct q as [|a q]; destruct pr as [|b pr];
    cbn -[forM_ processKeyboardReportAssertion error].
  - (* nothing queued, nothing permanent *)
    exists (EvLog t cid (MsgProcessingReport (no + 1) (nc + 1) cid)
            :: EvLog t cid (MsgQueuedReportAssertions 0)
            :: (if strict then [EvError t cid ErrReportWithoutQueued] else [])).
    destruct strict, ab; cbn; rewrite <- ?app_assoc, ?andb_true_r;
      repeat split; try discriminate.
  - (* nothing queued, permanent assertions *)
    unfold bind at 1. unfold bind at 1. cbn -[forM_ processKeyboardReportAssertion error].
    match goal with |- context [forM_ ?l _ ?m1] =>
      destruct (process_assertions_run l m1) as (ev & (E & T & B & R & D) & Hrun) end.
    rewrite Hrun. cbn -[forM_ processKeyboardReportAssertion error all_passed].
    exists (EvLog t cid (MsgProcessingReport (no + 1) (nc + 1) cid)
            :: EvLog t cid (MsgQueuedReportAssertions 0)
            :: EvLog t cid (MsgPermanentReportAssertions (S (length pr)))
            :: ev ++ (if strict then [EvError t cid ErrReportWithoutQueued] else [])).
    destruct strict, ab; trace_facts E T B R D;
      repeat split; try discriminate.
  - (* a queued assertion, nothing permanent *)
    unfold bind at 1. unfold bind at 1. cbn -[forM_ processKeyboardReportAssertion error].
    rewrite processKeyboardReportAssertion_run.
    cbn -[forM_ processKeyboardReportAssertion error all_passed].
    match goal with |- context [EvEval a ?res :: ?rep] =>
      exists (EvLog t cid (MsgProcessingReport (no + 1) (nc + 1) cid)
              :: EvLog t cid (MsgQueuedReportAssertions (S (length q)))
              :: EvEval a res :: rep);
      destruct (negb res || dbg)
    end.
    all: cbn; rewrite <- ?app_assoc, ?andb_true_r; repeat split; try discriminate.
    all: intros a' q' Heq; injection Heq as <- <-.
    all: eexists [_; _], _; repeat split.
  - (* a queued assertion and permanent assertions *)
    unfold bind at 1. unfold bind at 1. cbn -[forM_ processKeyboardReportAssertion error].
    rewrite processKeyboardReportAssertion_run.
    cbn -[forM_ processKeyboardReportAssertion error all_passed].
    unfold bind at 1. unfold bind at 1. cbn -[forM_ processKeyboardReportAssertion error].
    match goal with |- context [forM_ ?l _ ?m1] =>
      destruct (process_assertions_run l m1) as (ev & (E & T & B & R & D) & Hrun) end.
    rewrite Hrun. cbn -[forM_ processKeyboardReportAssertion error all_passed].
    match goal with |- context [EvEval a ?res :: ?rep] =>
      exists (EvLog t cid (MsgProcessingReport (no + 1) (nc + 1) cid)
              :: EvLog t cid (MsgQueuedReportAssertions (S (length q)))
              :: (EvEval a res :: rep)
              ++ EvLog t cid (MsgPermanentReportAssertions (S (length pr))) :: ev);
      destruct (negb res || dbg)
    end.
    all: trace_facts E T B R D; repeat split; try discriminate.
    all: try (intros a' q' Heq; injection Heq as <- <-;
              eexists [_; _], _; repeat split; cbn; exact E).
    all: unfold ret; rewrite ?andb_assoc; reflexivity.
Qed.

Lemma all_passed_no_evaluation (ev : list Ev) : evaluated ev = [] -> all_passed ev = true.
Proof.
  induction ev as [|e ev IH]; [reflexivity|].
  destruct e; cbn; auto. discriminate.
Qed.

(** ** Invariants

    Rules for a predicate that holds before and after every step. *)
Section InvariantRules.
Variables (I : Mach -> Prop) (QE : Z -> Mach -> Prop) (QF : Mach -> Prop).

Lemma inv_ret {X} (x : X) : hoare I I QE QF (ret x).
Proof. apply hoare_ret. auto. Qed.

Lemma inv_bind {X Y} (c : M X) (f : X -> M Y) :
  hoare I I QE QF c -> (forall x, hoare I I QE QF (f x)) ->
  hoare I I QE QF (bind c f).
Proof. apply hoare_bind. Qed.

Lemma inv_get_driver : hoare I I QE QF (@get_driver A Report Subject).
Proof. apply hoare_get_driver. auto. Qed.

Lemma inv_when (b : bool) (c : M unit) :
  (b = true -> hoare I I QE QF c) -> hoare I I QE QF (when b c).
Proof. intros H. apply hoare_when; auto. Qed.

Lemma inv_set_subject (w : Subject) :
  (forall m, I m -> I (mkMachine (driver m) w (trace m))) ->
  hoare I I QE QF (set_subject w).
Proof. intros H m Hm. cbn. auto. Qed.

(** Evaluating a list of assertions. *)
Lemma inv_assertions (l : list A) :
  (forall m ev, I m -> evaluation_of l ev ->
     I (mkMachine
          (set_assertions_passed_
             (assertions_passed_ (driver m) && all_passed ev) (driver m))
          (subject m) (trace m ++ ev))) ->
  hoare I I QE QF (forM_ l (processKeyboardReportAssertion eval)).
Proof.
  intros H m Hm. destruct (process_assertions_run l m) as (ev & Hev & Hrun).
  rewrite Hrun. auto.
Qed.

Lemma inv_cycle_assertions (l : list A) :
  (forall m ev, I m -> evaluation_of l ev ->
     I (mkMachine
          (set_assertions_passed_
             (assertions_passed_ (driver m) && all_passed ev) (driver m))
          (subject m) (trace m ++ ev))) ->
  hoare I I QE QF (processCycleAssertions eval l).
Proof. apply inv_assertions. Qed.

(** One report. *)
Lemma inv_report (r : Report) :
  (forall m ev, I m ->
     evaluated ev =
       firstn 1 (queued_keyboard_report_assertions_ (driver m))
       ++ permanent_keyboard_report_assertions_ (driver m) ->
     ticks ev = O -> bound ev = [] -> reports_delivered ev = O ->
     errors ev = (if underflow (driver m) then [ErrReportWithoutQueued] else []) ->
     let m' := mkMachine
                 (set_assertions_passed_
                    (assertions_passed_ (driver m) && all_passed ev)
                    (report_taken r (driver m)))
                 (subject m) (trace m ++ ev) in
     if underflow (driver m) && abort_on_first_error_ (driver m)
     then QE 1 m' else I m') ->
  hoare I I QE QF (processKeyboardReport eval r).
Proof.
  intros H m Hm.
  destruct (processKeyboardReport_run r m) as (ev & E & T & B & D & R & _ & Hrun).
  rewrite Hrun. specialize (H m ev Hm E T B D R). cbv zeta in *.
  destruct (underflow (driver m) && abort_on_first_error_ (driver m)); exact H.
Qed.
End InvariantRules.

Lemma inv_loop_reports (I : Mach -> Prop) (QE : Z -> Mach -> Prop) (QF : Mach -> Prop) :
  (forall r, hoare I I QE QF (KeyboardReportConsumer_processKeyboardReport eval r)) ->
  (forall m w, I m -> I (mkMachine (driver m) w (trace m))) ->
  hoare I I QE QF (loop_reports eval loop).
Proof.
  intros Hr Hw m Hm. unfold loop_reports.
  destruct (loop (subject m)) as [reports w'].
  revert m Hm. change (hoare I I QE QF
    (bind (forM_ reports (KeyboardReportConsumer_processKeyboardReport eval))
          (fun _ => set_subject w'))).
  apply inv_bind.
  - apply hoare_forM. intros r _. apply Hr.
  - intros _. apply inv_set_subject. intros m Hm. apply Hw. assumption.
Qed.

Lemma hoare_conj {X} (P1 Q1 P2 Q2 : Mach -> Prop) (QE1 QE2 : Z -> Mach -> Prop)
                 (QF1 QF2 : Mach -> Prop) (c : M X) :
  hoare P1 Q1 QE1 QF1 c -> hoare P2 Q2 QE2 QF2 c ->
  hoare (fun m => P1 m /\ P2 m) (fun m => Q1 m /\ Q2 m)
        (fun code m => QE1 code m /\ QE2 code m) (fun m => QF1 m /\ QF2 m) c.
Proof.
  intros H1 H2 m [Hm1 Hm2]. specialize (H1 m Hm1). specialize (H2 m Hm2).
  destruct (c m); auto.
Qed.

(** Splitting a method into its steps.  [side] proves that a primitive step
    keeps the invariant. *)
Ltac inv_step side :=
  lazymatch goal with
  | |- hoare _ _ _ _ (bind _ _) => apply inv_bind; [|intros ?]
  | |- hoare _ _ _ _ (ret _) => apply inv_ret
  | |- hoare _ _ _ _ get_driver => apply inv_get_driver
  | |- hoare _ _ _ _ (modify_driver _) => apply hoare_modify; side
  | |- hoare _ _ _ _ (setDriver _) => apply hoare_emit; side
  | |- hoare _ _ _ _ (emit _) => apply hoare_emit; side
  | |- hoare _ _ _ _ (log _) => apply hoare_log; side
  | |- hoare _ _ _ _ (error _) => apply hoare_error; side
  | |- hoare _ _ _ _ (exit _) => apply hoare_exit; side
  | |- hoare _ _ _ _ (set_subject _) => apply inv_set_subject; side
  | |- hoare _ _ _ _ (when _ _) => apply inv_when; intros ?
  | |- hoare _ _ _ _ (if ?b then _ else _) => destruct b eqn:?
  | |- hoare _ _ _ _ (forM_ _ (processKeyboardReportAssertion _)) =>
      apply inv_assertions; side
  | |- hoare _ _ _ _ (processCycleAssertions _ _) =>
      apply inv_cycle_assertions; side
  | |- hoare _ _ _ _ (processKeyboardReport _ _) => apply inv_report; side
  | |- hoare _ _ _ _ (KeyboardReportConsumer_processKeyboardReport _ _) =>
      unfold KeyboardReportConsumer_processKeyboardReport
  | |- hoare _ _ _ _ (loop_reports _ _) =>
      apply inv_loop_reports; [intros ?|side]
  | |- hoare _ _ _ _ (run_loop _ _) => unfold run_loop
  | |- hoare _ _ _ _ (forM_ _ _) => apply hoare_forM; intros ? ?
  | |- hoare _ _ _ _ (repeatM _ _) => apply hoare_repeatM
  | |- hoare _ _ _ _ (match ?x with _ => _ end) => destruct x eqn:?
  end.

Ltac open_machine :=
  cbv zeta; intros;
  repeat match goal with
         | m : Machine |- _ => destruct m as [[] ? ?]
         | H : _ /\ _ |- _ => destruct H
         | H : evaluation_of _ _ |- _ => destruct H as (? & ? & ? & ? & ?)
         end;
  unfold underflow, report_taken, with_event, setup in *; cbn in *.

(** *** The setup never changes *)
Ltac setup_side := open_machine; try assumption;
  match goal with |- if ?b then _ else _ => destruct b; assumption end.

Ltac inv_cycleInternal side :=
  unfold cycleInternal;
  match goal with
  | |- hoare _ _ _ _ (bind _ (fun _ => bind _ (fun _ => bind _ (fun _ =>
         bind _ (fun _ => bind (if AssertionQueue.empty ?l then _ else _) _))))) =>
      destruct l
  end;
  cbn [AssertionQueue.empty forM_ negb];
  repeat inv_step side.

Lemma setup_cycleInternal (s : _) (l : list A) (olr : bool) :
  hoare (fun m : Mach => setup (driver m) = s) (fun m => setup (driver m) = s)
        (fun _ m => setup (driver m) = s) (fun m => setup (driver m) = s)
        (cycleInternal eval loop l olr).
Proof. inv_cycleInternal setup_side. Qed.

(** *** Scan cycles bind no assertion *)
Ltac bound_side := open_machine; rewrite ?bound_app; cbn;
  try match goal with H : bound ?ev = [] |- _ => rewrite H end;
  rewrite ?app_nil_r; try assumption;
  match goal with |- if ?b then _ else _ => destruct b; assumption end.

Lemma bound_cycleInternal (b : list A) (l : list A) (olr : bool) :
  hoare (fun m : Mach => bound (trace m) = b) (fun m => bound (trace m) = b)
        (fun _ m => bound (trace m) = b) (fun m => bound (trace m) = b)
        (cycleInternal eval loop l olr).
Proof. inv_cycleInternal bound_side. Qed.

(** *** Only a strict-mode error can terminate a scan cycle *)
Ltac exit_side := open_machine; try exact Logic.I;
  match goal with
  | |- if ?b && ?c then _ else _ =>
      destruct b eqn:Hb; destruct c eqn:Hc; cbn; try exact Logic.I;
      apply andb_prop in Hb; destruct Hb; unfold strict_abort; cbn; auto
  end.

Lemma exit_cycleInternal (l : list A) (olr : bool) :
  hoare (@anywhere A Report Subject) anywhere strict_abort never_starves
        (cycleInternal eval loop l olr).
Proof. inv_cycleInternal exit_side. Qed.

(** *** Without abort-on-first-error, or outside strict mode, a scan cycle
    returns *)
Ltac lenient_side := unfold lenient; open_machine; try assumption;
  match goal with
  | H : _ \/ _ |- if ?b && ?c then _ else _ =>
      destruct b eqn:Hb; destruct c eqn:Hc; cbn; try assumption;
      apply andb_prop in Hb; destruct Hb; destruct H; congruence
  end.

Lemma lenient_cycleInternal (l : list A) (olr : bool) :
  hoare lenient lenient never_exits never_starves (cycleInternal eval loop l olr).
Proof. inv_cycleInternal lenient_side. Qed.

(** *** The clock of a scan cycle *)
Ltac clock_side := unfold clock; open_machine; rewrite ?ticks_app; cbn;
  repeat match goal with H : ticks ?ev = O |- _ => rewrite H; clear H end;
  rewrite ?Nat.add_0_r;
  try match goal with |- if ?b then _ else _ => destruct b end;
  repeat split; subst; auto; try lia.

Lemma clock_cycleInternal (c t : Z) (k : nat) (d : Z) (l : list A) (olr : bool) :
  hoare (clock c t k d) (clock (c + 1) (t + d) (S k) d)
        (fun _ => clock (c + 1) t (S k) d) never_starves
        (cycleInternal eval loop l olr).
Proof.
  unfold cycleInternal.
  (* the cycle id is incremented *)
  apply (hoare_bind _ _ (clock (c + 1) t k d)); [inv_step clock_side|intros _].
  apply (hoare_bind _ _ (clock (c + 1) t k d)); [inv_step clock_side|intros _].
  apply (hoare_bind _ _ (clock (c + 1) t k d)); [inv_step clock_side|intros d0].
  apply (hoare_bind _ _ (clock (c + 1) t k d)); [repeat inv_step clock_side|intros _].
  apply (hoare_bind _ _ (clock (c + 1) t k d)).
  { destruct l; cbn [AssertionQueue.empty forM_]; repeat inv_step clock_side. }
  intros _.
  (* the firmware runs *)
  apply (hoare_bind _ _ (clock (c + 1) t (S k) d)).
  { unfold run_loop. apply (hoare_bind _ _ (clock (c + 1) t (S k) d)).
    - inv_step clock_side.
    - intros _. repeat inv_step clock_side. }
  intros _.
  apply (hoare_bind _ _ (clock (c + 1) t (S k) d)); [inv_step clock_side|intros d1].
  apply (hoare_bind _ _ (clock (c + 1) t (S k) d)); [repeat inv_step clock_side|intros _].
  (* the time advances *)
  apply (hoare_bind _ _ (clock (c + 1) (t + d) (S k) d)); [inv_step clock_side|intros _].
  repeat inv_step clock_side.
Qed.

(** Reading the Driver: the continuation may use what was read. *)
Lemma hoare_read {Y} (P Q : Mach -> Prop) (QE : Z -> Mach -> Prop) (QF : Mach -> Prop)
                 (f : Driver -> M Y) :
  (forall d, hoare (fun m => P m /\ driver m = d) Q QE QF (f d)) ->
  hoare P Q QE QF (bind get_driver f).
Proof. intros H m Hm. unfold bind, get_driver. apply (H (driver m)). auto. Qed.

Lemma hoare_read_fact {Y} (P Q : Mach -> Prop) (QE : Z -> Mach -> Prop)
                      (QF : Mach -> Prop) (phi : Driver -> Prop) (f : Driver -> M Y) :
  (forall m, P m -> phi (driver m)) ->
  (forall d, phi d -> hoare P Q QE QF (f d)) ->
  hoare P Q QE QF (bind get_driver f).
Proof.
  intros Hphi H. apply hoare_read. intros d m [Hm <-].
  apply H; auto.
Qed.

(** The steps of a scan cycle that follow the call of the firmware, when no
    cycle assertion is registered: they evaluate nothing. *)
Ltac after_loop side Hphi :=
  apply inv_bind; [inv_step side|intros ?];
  apply inv_bind; [repeat inv_step side|intros _];
  apply inv_bind; [inv_step side|intros _];
  cbn [AssertionQueue.empty negb];
  apply inv_bind; [inv_step side|intros _];
  apply (hoare_read_fact _ _ _ _ no_cycle_assertions); [exact Hphi|];
  intros ? [-> _]; cbn [AssertionQueue.empty negb];
  apply inv_bind; [inv_step side|intros _];
  apply (hoare_read_fact _ _ _ _ no_cycle_assertions); [exact Hphi|];
  intros ? [_ ->]; cbn [AssertionQueue.empty negb];
  inv_step side.

(** *** A scan cycle with no assertion registered *)
Ltac idle_side := unfold idle, no_assertions; open_machine; subst; cbn in *;
  try match goal with H : evaluated ?ev = [] |- _ =>
        rewrite (all_passed_no_evaluation ev H), andb_true_r end;
  try match goal with |- if ?b then _ else _ => destruct b end;
  solve [auto].

Lemma idle_no_cycle_assertions (b : bool) (m : Mach) :
  idle b m -> no_cycle_assertions (driver m).
Proof. intros [(_ & _ & H1 & H2) _]. split; assumption. Qed.

Lemma idle_cycleInternal (b : bool) (olr : bool) :
  hoare (idle b) (idle b) (fun _ => idle b) never_starves
        (cycleInternal eval loop [] olr).
Proof.
  unfold cycleInternal. cbn [AssertionQueue.empty forM_].
  apply inv_bind; [inv_step idle_side|intros _].
  apply inv_bind; [inv_step idle_side|intros _].
  apply inv_bind; [inv_step idle_side|intros d0].
  apply inv_bind; [repeat inv_step idle_side|intros _].
  apply inv_bind; [inv_step idle_side|intros _].
  apply inv_bind; [repeat inv_step idle_side|intros _].
  after_loop idle_side (idle_no_cycle_assertions b).
Qed.

Lemma hoare_conseq {X} (P P' Q Q' : Mach -> Prop) (QE QE' : Z -> Mach -> Prop)
                   (QF QF' : Mach -> Prop) (c : M X) :
  hoare P' Q' QE' QF' c ->
  (forall m, P m -> P' m) -> (forall m, Q' m -> Q m) ->
  (forall code m, QE' code m -> QE code m) -> (forall m, QF' m -> QF m) ->
  hoare P Q QE QF c.
Proof.
  intros H HP HQ HE HF m Hm. specialize (H m (HP m Hm)).
  destruct (c m); auto.
Qed.

(** ** Runs of scan cycles *)

(** [n] scan cycles advance the clock [n] times; a process exit happens in
    a cycle that was started. *)
Lemma clock_cycles_loop (n : nat) (l : list A) (c t : Z) (k : nat) (d : Z) :
  hoare (clock c t k d)
        (clock (c + Z.of_nat n) (t + Z.of_nat n * d) (k + n) d)
        (fun _ m => exists j, (j < n)%nat /\
                     clock (c + Z.of_nat j + 1) (t + Z.of_nat j * d) (k + j + 1) d m)
        never_starves
        (cycles_loop eval loop n l).
Proof.
  unfold cycles_loop. revert c t k.
  induction n as [|n IH]; intros c t k.
  - apply hoare_ret. intros m Hm.
    replace (c + Z.of_nat 0) with c by lia.
    replace (t + Z.of_nat 0 * d) with t by lia.
    rewrite Nat.add_0_r. assumption.
  - cbn [repeatM]. apply (hoare_bind _ _ (clock (c + 1) (t + d) (S k) d)).
    + eapply hoare_conseq; [apply (clock_cycleInternal c t k d)| | | |]; auto.
      intros code m Hm. exists O. split; [lia|].
      replace (c + Z.of_nat 0 + 1) with (c + 1) by lia.
      replace (t + Z.of_nat 0 * d) with t by lia.
      replace (k + 0 + 1)%nat with (S k) by lia. assumption.
    + intros _. eapply hoare_conseq; [apply (IH (c + 1) (t + d) (S k))| | | |]; auto.
      * intros m Hm.
        replace (c + Z.of_nat (S n)) with (c + 1 + Z.of_nat n) by lia.
        replace (t + Z.of_nat (S n) * d) with (t + d + Z.of_nat n * d) by lia.
        replace (k + S n)%nat with (S k + n)%nat by lia. assumption.
      * intros code m (j & Hj & Hm). exists (S j). split; [lia|].
        replace (c + Z.of_nat (S j) + 1) with (c + 1 + Z.of_nat j + 1) by lia.
        replace (t + Z.of_nat (S j) * d) with (t + d + Z.of_nat j * d) by lia.
        replace (k + S j + 1)%nat with (S k + j + 1)%nat by lia. assumption.
Qed.

Lemma exit_cycles_loop (n : nat) (l : list A) :
  hoare (@anywhere A Report Subject) anywhere strict_abort never_starves
        (cycles_loop eval loop n l).
Proof. apply hoare_repeatM, exit_cycleInternal. Qed.

Lemma lenient_cycles_loop (n : nat) (l : list A) :
  hoare lenient lenient never_exits never_starves (cycles_loop eval loop n l).
Proof. apply hoare_repeatM, lenient_cycleInternal. Qed.

Lemma setup_cycles_loop (s : _) (n : nat) (l : list A) :
  hoare (fun m : Mach => setup (driver m) = s) (fun m => setup (driver m) = s)
        (fun _ m => setup (driver m) = s) (fun m => setup (driver m) = s)
        (cycles_loop eval loop n l).
Proof. apply hoare_repeatM, setup_cycleInternal. Qed.

Lemma idle_cycles_loop (b : bool) (n : nat) :
  hoare (idle b) (idle b) (fun _ => idle b) never_starves
        (cycles_loop eval loop n []).
Proof. apply hoare_repeatM, idle_cycleInternal. Qed.

Lemma clock_now (m : Mach) :
  clock (cycle_id_ (driver m)) (time_ (driver m)) (ticks (trace m))
        (cycle_duration_ (driver m)) m.
Proof. repeat split. Qed.

(** A method that returns when the Driver is lenient. *)
Lemma lenient_returns {X} (c : M X) (m : Mach) :
  hoare lenient lenient never_exits never_starves c ->
  lenient m -> exists x m', c m = Done x m'.
Proof.
  intros H Hm. specialize (H m Hm).
  destruct (c m) as [x m'| |]; [eauto|destruct H|destruct H].
Qed.

(** Claim C8 (amended).  The cycle id is incremented exactly once per scan
    cycle.  When no assertion is registered, a run of [n] scheduled scan
    cycles that returns leaves the cycle id exactly [n] above its value
    before the run, has called the firmware [n] times and leaves the
    aggregate pass flag as it was.  The run returns whenever the Driver is
    lenient; otherwise a strict-mode error under abort-on-first-error may
    terminate the process in a cycle that was started, and then the cycle id
    has grown by the number of cycles started and the flag is unchanged.
    The run never needs fuel. *)
Theorem cycle_id_counts_scan_cycles (n : nat) (m : Mach) :
  no_assertions (driver m) ->
  match cycles_loop eval loop n [] m with
  | Done _ m' =>
      cycle_id_ (driver m') = cycle_id_ (driver m) + Z.of_nat n /\
      ticks (trace m') = (ticks (trace m) + n)%nat /\
      assertions_passed_ (driver m') = assertions_passed_ (driver m)
  | Exited code m' =>
      strict_abort code m' /\
      (exists j, (j < n)%nat /\
         cycle_id_ (driver m') = cycle_id_ (driver m) + Z.of_nat j + 1 /\
         ticks (trace m') = (ticks (trace m) + j + 1)%nat) /\
      assertions_passed_ (driver m') = assertions_passed_ (driver m)
  | OutOfFuel _ => False
  end /\
  (lenient m -> exists m', cycles_loop eval loop n [] m = Done tt m').
Proof.
  intros Hidle. split.
  - pose proof (clock_cycles_loop n [] _ _ _ _ m (clock_now m)) as Hclock.
    pose proof (exit_cycles_loop n [] m Logic.I) as Hexit.
    pose proof (idle_cycles_loop (assertions_passed_ (driver m)) n m
                  (conj Hidle eq_refl)) as Hflag.
    destruct (cycles_loop eval loop n [] m) as [x m'|code m'|m'].
    + destruct Hclock as (Hc & _ & Hk & _). destruct Hflag as [_ Hf]. auto.
    + destruct Hclock as (j & Hj & Hc & _ & Hk & _). destruct Hflag as [_ Hf].
      split; [assumption|]. split; [|assumption]. exists j. auto.
    + assumption.
  - intros Hl. destruct (lenient_returns _ m (lenient_cycles_loop n []) Hl) as ([] & m' & H).
    eauto.
Qed.

(** *** The trace only grows *)
Lemma grows_more (tr0 ev : list Ev) (m m' : Mach) :
  grows tr0 m -> trace m' = trace m ++ ev -> grows tr0 m'.
Proof.
  intros [ev0 H0] H. exists (ev0 ++ ev). rewrite H, H0. symmetry. apply app_assoc.
Qed.

Ltac grows_side := cbv zeta; intros;
  try match goal with |- if ?b then _ else _ => destruct b end;
  solve [ assumption
        | eapply grows_more; [eassumption|cbn; reflexivity]
        | eapply grows_more; [eassumption|cbn; symmetry; apply app_nil_r] ].

Lemma grows_cycleInternal (tr0 : list Ev) (l : list A) (olr : bool) :
  hoare (grows tr0) (grows tr0) (fun _ => grows tr0) (grows tr0)
        (cycleInternal eval loop l olr).
Proof. inv_cycleInternal grows_side. Qed.

Lemma grows_refl (m : Mach) : grows (trace m) m.
Proof. exists []. symmetry. apply app_nil_r. Qed.

(** Claim C2 (the code departs from it).  [cycleInternal] binds no
    assertion of the list it is passed: whatever the list, the scan cycle
    calls the firmware once and the events it appends to the trace contain
    no call of [setDriver].  The guard in front of the binding loop lets the
    loop run only over an empty list. *)
Theorem cycleInternal_binds_no_assertion (l : list A) (olr : bool) (m : Mach) :
  exists ev,
    trace (machine_of (cycleInternal eval loop l olr m)) = trace m ++ ev /\
    bound ev = [] /\ ticks ev = 1%nat.
Proof.
  pose proof (grows_cycleInternal (trace m) l olr m (grows_refl m)) as Hg.
  pose proof (bound_cycleInternal (bound (trace m)) l olr m eq_refl) as Hb.
  pose proof (clock_cycleInternal _ _ _ _ l olr m (clock_now m)) as Hc.
  assert (H : grows (trace m) (machine_of (cycleInternal eval loop l olr m)) /\
              bound (trace (machine_of (cycleInternal eval loop l olr m)))
              = bound (trace m) /\
              ticks (trace (machine_of (cycleInternal eval loop l olr m)))
              = S (ticks (trace m))).
  { destruct (cycleInternal eval loop l olr m); cbn; [| |destruct Hc].
    - destruct Hc as (_ & _ & Hk & _). auto.
    - destruct Hc as (_ & _ & Hk & _). auto. }
  destruct H as ([ev Hev] & Hb' & Hk). exists ev. split; [assumption|].
  rewrite Hev, bound_app in Hb'. rewrite Hev, ticks_app in Hk. split.
  - apply (app_inv_head (bound (trace m))). rewrite app_nil_r. assumption.
  - lia.
Qed.

(** ** Skipping time *)
Lemma skipTime_loop_unfold (fuel : nat) (delta_t : double) (start_time : Z)
                           (elapsed_time : double) :
  skipTime_loop eval loop fuel delta_t start_time elapsed_time =
  if Double.ltb elapsed_time delta_t then
    match fuel with
    | O => fun m => OutOfFuel m
    | S fuel' =>
        bind (cycleInternal eval loop [] true) (fun _ =>
        bind get_driver (fun d =>
        skipTime_loop eval loop fuel' delta_t start_time
                      (Double.of_int (time_ d - start_time))))
    end
  else ret elapsed_time.
Proof. destruct fuel; reflexivity. Qed.

Lemma inv_skipTime_loop (I : Mach -> Prop) (QE : Z -> Mach -> Prop) (QF : Mach -> Prop)
      (fuel : nat) (delta_t : double) (start_time : Z) (elapsed_time : double) :
  hoare I I QE QF (cycleInternal eval loop [] true) ->
  (forall m, I m -> QF m) ->
  hoare I I QE QF (skipTime_loop eval loop fuel delta_t start_time elapsed_time).
Proof.
  intros Hc HF. revert elapsed_time.
  induction fuel as [|fuel IH]; intros elapsed_time; rewrite skipTime_loop_unfold;
    destruct (Double.ltb elapsed_time delta_t); try apply inv_ret.
  - intros m Hm. apply HF. assumption.
  - apply inv_bind; [exact Hc|intros _].
    apply inv_bind; [apply inv_get_driver|intros d]. apply IH.
Qed.

(** The check of the cycle duration, when the duration is not set. *)
Lemma checkCycleDurationSet_unset (m : Mach) :
  cycle_duration_ (driver m) = 0 ->
  checkCycleDurationSet m =
  let m' := with_event (EvError (time_ (driver m)) (cycle_id_ (driver m))
                                ErrCycleDurationNotSet) m in
  if abort_on_first_error_ (driver m) then Exited 1 m' else Done tt m'.
Proof.
  intros H. unfold checkCycleDurationSet, bind, get_driver. rewrite H. cbn.
  unfold error, bind, get_driver, emit, when. cbn.
  destruct (abort_on_first_error_ (driver m)); reflexivity.
Qed.

Lemma checkCycleDurationSet_set (m : Mach) :
  cycle_duration_ (driver m) <> 0 -> checkCycleDurationSet m = Done tt m.
Proof.
  intros H. unfold checkCycleDurationSet, bind, get_driver.
  destruct (Z.eqb_spec (cycle_duration_ (driver m)) 0); [contradiction|reflexivity].
Qed.

(** ** The status check *)
Lemma checkStatus_run (m : Mach) :
  exists ev,
    evaluated ev = [] /\ ticks ev = O /\ bound ev = [] /\
    checkStatus m =
      let m' := mkMachine (driver m) (subject m) (trace m ++ ev) in
      if unfinished (driver m) then
        if abort_on_first_error_ (driver m) then Exited 1 m' else Done false m'
      else Done true m'.
Proof.
  destruct m as [d w tr].
  destruct d as [dbg dur ab q pr qc pc cur cid t dflt ap strict no nc].
  unfold checkStatus, unfinished. cbn.
  destruct q as [|a q], ap, ab; cbn; rewrite <- ?app_assoc; cbn;
    eexists; (split; [|split; [|split; [|reflexivity]]]); reflexivity.
Qed.

Lemma unfinished_spec (d : @Driver A Report) :
  unfinished d = true <->
  queued_keyboard_report_assertions_ d <> [] \/ assertions_passed_ d = false.
Proof.
  unfold unfinished.
  destruct (queued_keyboard_report_assertions_ d) as [|a q];
    destruct (assertions_passed_ d); cbn; split; intros H;
    try discriminate H; try reflexivity;
    try (destruct H as [H|H]; [exfalso; apply H; reflexivity|discriminate H]);
    try (right; reflexivity); try (left; discriminate).
Qed.

(** Claim C7 (amended).  [checkStatus] changes nothing but the trace, and
    there it appends diagnostics only.  When it returns, it returns false
    if and only if queued report assertions are left over or the aggregate
    pass flag is false, and a second call returns the same.  It returns
    whenever abort-on-first-error is off, and also when there is nothing to
    complain about; with abort-on-first-error set and something to complain
    about, its first error diagnostic terminates the process with exit
    code 1 instead. *)
Theorem checkStatus_spec (m : Mach) :
  let failing := queued_keyboard_report_assertions_ (driver m) <> [] \/
                 assertions_passed_ (driver m) = false in
  (forall b m', checkStatus m = Done b m' ->
     (b = false <-> failing) /\
     driver m' = driver m /\ subject m' = subject m /\
     (exists ev, trace m' = trace m ++ ev /\ evaluated ev = [] /\ ticks ev = O) /\
     exists m'', checkStatus m' = Done b m'') /\
  (abort_on_first_error_ (driver m) = false \/ ~ failing ->
     exists b m', checkStatus m = Done b m') /\
  (abort_on_first_error_ (driver m) = true -> failing ->
     exists m', checkStatus m = Exited 1 m' /\ driver m' = driver m).
Proof.
  cbv zeta. pose proof (unfinished_spec (driver m)) as Hspec.
  destruct (checkStatus_run m) as (ev & E & T & _ & Hrun). cbv zeta in Hrun.
  set (m1 := mkMachine (driver m) (subject m) (trace m ++ ev)) in *.
  assert (Hagain : forall b, checkStatus m = Done b m1 ->
                             exists m'', checkStatus m1 = Done b m'').
  { intros b Hb. destruct (checkStatus_run m1) as (ev' & _ & _ & _ & Hrun').
    cbv zeta in Hrun'. rewrite Hrun'. rewrite Hrun in Hb. subst m1. cbn.
    destruct (unfinished (driver m)), (abort_on_first_error_ (driver m));
      try discriminate; injection Hb as <-; eauto. }
  destruct (unfinished (driver m)) eqn:Hu.
  - assert (Hf : queued_keyboard_report_assertions_ (driver m) <> [] \/
                 assertions_passed_ (driver m) = false) by (apply Hspec; reflexivity).
    destruct (abort_on_first_error_ (driver m)) eqn:Ha.
    + split; [intros b m' H; rewrite Hrun in H; discriminate|].
      split; [intros [H|H]; [discriminate|contradiction]|].
      intros _ _. exists m1. split; [assumption|reflexivity].
    + split.
      * intros b m' H. rewrite H in Hrun. injection Hrun as -> ->.
        repeat split; auto. exists ev. auto.
      * split; [intros _; eauto|intros H; discriminate].
  - assert (Hnf : ~ (queued_keyboard_report_assertions_ (driver m) <> [] \/
                     assertions_passed_ (driver m) = false)).
    { intros H. apply Hspec in H. discriminate. }
    split.
    + intros b m' H. rewrite H in Hrun. injection Hrun as -> ->.
      repeat split; auto; try discriminate; try contradiction.
      exists ev. auto.
    + split; [intros _; eauto|intros _ H; contradiction].
Qed.

(** ** Reports and the queue of report assertions *)

(** A report that finds a queued assertion: the call returns. *)
Lemma processKeyboardReport_queued (r : Report) (a : A) (q : list A) (m : Mach) :
  queued_keyboard_report_assertions_ (driver m) = a :: q ->
  exists ev0 ev1,
    evaluated ev0 = [] /\
    evaluated ev1 = permanent_keyboard_report_assertions_ (driver m) /\
    let ev := ev0 ++ EvEval a (eval a (report_taken r (driver m))) :: ev1 in
    processKeyboardReport eval r m =
    Done tt (mkMachine
               (set_assertions_passed_
                  (assertions_passed_ (driver m) && all_passed ev)
                  (report_taken r (driver m)))
               (subject m) (trace m ++ ev)).
Proof.
  intros Hq.
  destruct (processKeyboardReport_run r m) as (ev & _ & _ & _ & _ & _ & Hhead & Hrun).
  destruct (Hhead a q Hq) as (ev0 & ev1 & -> & E0 & E1).
  exists ev0, ev1. repeat split; try assumption.
  cbv zeta in *. rewrite Hrun. unfold underflow. rewrite Hq. reflexivity.
Qed.

(** Claim C1.  A report delivered while report assertions are queued makes
    [processKeyboardReport] return after it removed exactly the front of
    the queue, the assertion pushed first: the queue is one shorter, and the
    removed assertion is evaluated on the Driver that holds this report as
    its current report, before the permanent report assertions are.  For a
    sequence of reports no longer than the queue, the reports consume the
    queue from its front, one assertion per report and in the order in
    which [pushBack] queued them. *)
Theorem processKeyboardReport_consumes_queue_in_order :
  (forall (r : Report) (a : A) (q : list A) (m : Mach),
     queued_keyboard_report_assertions_ (driver m) = a :: q ->
     exists m' ev0 ev1,
       processKeyboardReport eval r m = Done tt m' /\
       AssertionQueue.popFront (queued_keyboard_report_assertions_ (driver m))
       = Some (a, queued_keyboard_report_assertions_ (driver m')) /\
       S (AssertionQueue.size (queued_keyboard_report_assertions_ (driver m')))
       = AssertionQueue.size (queued_keyboard_report_assertions_ (driver m)) /\
       current_keyboard_report_ (report_taken r (driver m)) = r /\
       trace m' =
         trace m ++ ev0 ++ EvEval a (eval a (report_taken r (driver m))) :: ev1 /\
       evaluated ev0 = [] /\
       evaluated ev1 = permanent_keyboard_report_assertions_ (driver m)) /\
  (forall (rs : list Report) (m : Mach),
     (length rs <= length (queued_keyboard_report_assertions_ (driver m)))%nat ->
     exists m' ev,
       forM_ rs (processKeyboardReport eval) m = Done tt m' /\
       queued_keyboard_report_assertions_ (driver m')
       = skipn (length rs) (queued_keyboard_report_assertions_ (driver m)) /\
       trace m' = trace m ++ ev /\
       evaluated ev =
         flat_map (fun a => a :: permanent_keyboard_report_assertions_ (driver m))
                  (firstn (length rs) (queued_keyboard_report_assertions_ (driver m)))) /\
  (forall (a b : A) (q : list A),
     AssertionQueue.popFront (AssertionQueue.pushBack b (a :: q))
     = Some (a, AssertionQueue.pushBack b q)).
Proof.
  split; [|split].
  - intros r a q m Hq.
    destruct (processKeyboardReport_queued r a q m Hq) as (ev0 & ev1 & E0 & E1 & Hrun).
    cbv zeta in Hrun. eexists _, ev0, ev1. split; [exact Hrun|].
    cbn. rewrite Hq. cbn. repeat split; assumption.
  - induction rs as [|r rs IH]; intros m Hlen.
    + exists m, []. cbn. rewrite app_nil_r. auto.
    + destruct (queued_keyboard_report_assertions_ (driver m)) as [|a q] eqn:Hq;
        [cbn in Hlen; lia|].
      destruct (processKeyboardReport_queued r a q m Hq) as (ev0 & ev1 & E0 & E1 & Hrun).
      cbv zeta in Hrun. cbn [forM_]. unfold bind at 1. rewrite Hrun.
      match goal with |- context [forM_ rs _ ?m1] =>
        destruct (IH m1) as (m' & ev & Hrun' & Hq' & Htr & Hev) end.
      { cbn. rewrite Hq. cbn in *. lia. }
      exists m', ((ev0 ++ EvEval a (eval a (report_taken r (driver m))) :: ev1) ++ ev).
      split; [exact Hrun'|]. cbn in Hq', Htr, Hev. rewrite Hq in Hq', Hev.
      cbn in Hq', Hev. repeat split.
      * exact Hq'.
      * rewrite Htr. symmetry. apply app_assoc.
      * rewrite !evaluated_app. cbn. rewrite E0, E1, Hev. reflexivity.
  - reflexivity.
Qed.

(** Claim C3 (amended).  A report that arrives in strict mode while no
    report assertion is queued is reported through the error sink, once, and
    under abort-on-first-error that terminates the process with exit
    code 1.  The error is not accumulated: the aggregate pass flag after the
    report is the flag before it ANDed with the results of the assertions
    evaluated against the report, which are the permanent report
    assertions.  So with no permanent report assertion the flag is
    unchanged, and if it was true and the process goes on, [checkStatus]
    afterwards returns true. *)
Theorem strict_report_error_is_not_accumulated (r : Report) (m : Mach) :
  queued_keyboard_report_assertions_ (driver m) = [] ->
  error_if_report_without_queued_assertions_ (driver m) = true ->
  exists ev,
    let m' := mkMachine
                (set_assertions_passed_
                   (assertions_passed_ (driver m) && all_passed ev)
                   (report_taken r (driver m)))
                (subject m) (trace m ++ ev) in
    processKeyboardReport eval r m =
      (if abort_on_first_error_ (driver m) then Exited 1 m' else Done tt m') /\
    errors ev = [ErrReportWithoutQueued] /\
    evaluated ev = permanent_keyboard_report_assertions_ (driver m) /\
    (permanent_keyboard_report_assertions_ (driver m) = [] ->
       assertions_passed_ (driver m') = assertions_passed_ (driver m) /\
       (assertions_passed_ (driver m) = true ->
        abort_on_first_error_ (driver m) = false ->
        exists m'', checkStatus m' = Done true m'')).
Proof.
  intros Hq Hs.
  destruct (processKeyboardReport_run r m) as (ev & E & _ & _ & _ & R & _ & Hrun).
  exists ev. cbv zeta in *.
  unfold underflow in *. rewrite Hq, Hs in *. cbn in E, R, Hrun.
  repeat split; try assumption.
  - cbn. rewrite H in E. rewrite (all_passed_no_evaluation ev E). apply andb_true_r.
  - intros Hp Ha.
    match goal with |- context [checkStatus ?m1] =>
      destruct (checkStatus_run m1) as (ev' & _ & _ & _ & Hrun') end.
    cbv zeta in Hrun'. rewrite Hrun'. unfold unfinished. cbn.
    rewrite Hq, Hp. rewrite H in E. rewrite (all_passed_no_evaluation ev E).
    cbn. eauto.
Qed.

(** ** Permanent report assertions *)

(** One report, from one predicate to another. *)
Lemma hoare_report (P Q : Mach -> Prop) (QE : Z -> Mach -> Prop) (QF : Mach -> Prop)
                   (r : Report) :
  (forall m ev, P m ->
     evaluated ev =
       firstn 1 (queued_keyboard_report_assertions_ (driver m))
       ++ permanent_keyboard_report_assertions_ (driver m) ->
     ticks ev = O -> bound ev = [] -> reports_delivered ev = O ->
     errors ev = (if underflow (driver m) then [ErrReportWithoutQueued] else []) ->
     let m' := mkMachine
                 (set_assertions_passed_
                    (assertions_passed_ (driver m) && all_passed ev)
                    (report_taken r (driver m)))
                 (subject m) (trace m ++ ev) in
     if underflow (driver m) && abort_on_first_error_ (driver m)
     then QE 1 m' else Q m') ->
  hoare P Q QE QF (processKeyboardReport eval r).
Proof.
  intros H m Hm.
  destruct (processKeyboardReport_run r m) as (ev & E & T & B & D & R & _ & Hrun).
  rewrite Hrun. specialize (H m ev Hm E T B D R). cbv zeta in *.
  destruct (underflow (driver m) && abort_on_first_error_ (driver m)); exact H.
Qed.















Lemma results_no_evaluation (ev : list Ev) : evaluated ev = [] -> results ev = [].
Proof.
  induction ev as [|e ev IH]; [reflexivity|].
  destruct e; cbn; auto. discriminate.
Qed.




(** ** The stop assertions of a scheduling call *)

(** Binding a list of assertions to the Driver. *)
Lemma bind_assertions_run (l : list A) (m : Mach) :
  forM_ l (@setDriver A Report Subject) m =
  Done tt (mkMachine (driver m) (subject m) (trace m ++ map EvSetDriver l)).
Proof.
  revert m. induction l as [|a l IH]; intros m.
  - cbn. rewrite app_nil_r. destruct m; reflexivity.
  - cbn [forM_ map]. unfold bind at 1. unfold setDriver at 1, emit.
    rewrite IH. cbn. rewrite <- app_assoc. reflexivity.
Qed.

Lemma binding_events (l : list A) :
  bound (map (@EvSetDriver A) l) = l /\ ticks (map (@EvSetDriver A) l) = O /\
  evaluated (map (@EvSetDriver A) l) = [] /\ errors (map (@EvSetDriver A) l) = [] /\
  all_passed (map (@EvSetDriver A) l) = true.
Proof.
  induction l as [|a l (B & T & E & R & P)]; cbn; [auto|].
  rewrite B. auto.
Qed.

(** The [if(!list.empty())] in front of the binding loop changes nothing. *)
Lemma bind_if_not_empty (l : list A) :
  (if negb (AssertionQueue.empty l) then forM_ l (@setDriver A Report Subject)
   else ret tt) = forM_ l setDriver.
Proof. destruct l; reflexivity. Qed.

(** Evaluating the stop assertions after the last scan cycle. *)
Lemma stop_assertions_run (l : list A) (m : Mach) :
  exists ev,
    evaluated ev = l /\ ticks ev = O /\ bound ev = [] /\ errors ev = [] /\
    (if negb (AssertionQueue.empty l) then
       bind (log (MsgProcessingOnStop (length l)))
            (fun _ => processCycleAssertions eval l)
     else ret tt) m =
    Done tt (mkMachine
               (set_assertions_passed_
                  (assertions_passed_ (driver m) && all_passed ev) (driver m))
               (subject m) (trace m ++ ev)).
Proof.
  destruct l as [|a l].
  - exists []. cbn. rewrite app_nil_r, andb_true_r.
    destruct m as [[] ? ?]. auto.
  - cbn [AssertionQueue.empty negb]. unfold processCycleAssertions.
    change (@processCycleAssertion A Report Subject eval)
      with (@processKeyboardReportAssertion A Report Subject eval).
    unfold bind, log, get_driver, emit.
    cbn -[forM_ processKeyboardReportAssertion].
    match goal with |- context [forM_ ?l _ ?m1] =>
      destruct (process_assertions_run l m1) as (ev & (E & T & B & R & _) & Hrun)
    end.
    rewrite Hrun. cbn.
    exists (EvLog (time_ (driver m)) (cycle_id_ (driver m))
                  (MsgProcessingOnStop (S (length l))) :: ev).
    cbn. rewrite <- app_assoc. auto.
Qed.

(** ** Runs of a given number of scan cycles *)

(** A negative count: no scan cycle, no error; the stop assertions are
    bound and evaluated. *)
Lemma cycles_negative (n : Z) (on_stop l : list A) (m : Mach) :
  n < 0 ->
  exists ev,
    ticks ev = O /\ errors ev = [] /\ evaluated ev = on_stop /\ bound ev = on_stop /\
    cycles eval loop n on_stop l m =
    Done tt (mkMachine
               (set_assertions_passed_
                  (assertions_passed_ (driver m) && all_passed ev) (driver m))
               (subject m) (trace m ++ ev)).
Proof.
  intros Hn. unfold cycles. destruct n as [|n|n]; try lia.
  cbn [Z.eqb Z.to_nat]. unfold cycles_loop. cbn [repeatM].
  rewrite bind_if_not_empty.
  unfold bind at 1. unfold get_driver at 1.
  unfold bind at 1. unfold log at 1, bind at 1, get_driver at 1, emit at 1.
  unfold bind at 1. rewrite bind_assertions_run.
  unfold bind at 1. unfold ret at 1.
  unfold bind at 1.
  match goal with |- context [(if _ then _ else _) ?m1] =>
    destruct (stop_assertions_run on_stop m1) as (ev & E & T & B & R & Hrun) end.
  rewrite Hrun. cbn.
  destruct (binding_events on_stop) as (Bb & Tb & Eb & Rb & Pb).
  exists (EvLog (time_ (driver m)) (cycle_id_ (driver m)) (MsgRunningCycles (Z.neg n))
          :: map EvSetDriver on_stop ++ ev
          ++ [EvLog (time_ (driver m)) (cycle_id_ (driver m)) MsgNewline]).
  unfold emit. cbn.
  rewrite !ticks_app, !errors_app, !evaluated_app, !bound_app, !all_passed_app.
  rewrite E, T, B, R, Bb, Tb, Eb, Rb, Pb. cbn.
  rewrite ?app_nil_r, ?andb_true_r, <- ?app_assoc. cbn. rewrite <- ?app_assoc.
  repeat split; reflexivity.
Qed.

Lemma exit_cycles (n : Z) (on_stop l : list A) :
  hoare (@anywhere A Report Subject) anywhere strict_abort never_starves
        (cycles eval loop n on_stop l).
Proof.
  unfold cycles, cycles_loop. repeat inv_step exit_side. apply exit_cycleInternal.
Qed.

Lemma lenient_cycles (n : Z) (on_stop l : list A) :
  hoare lenient lenient never_exits never_starves (cycles eval loop n on_stop l).
Proof.
  unfold cycles, cycles_loop. repeat inv_step lenient_side.
  apply lenient_cycleInternal.
Qed.

Lemma hoare_pre {X} (P P' Q : Mach -> Prop) (QE : Z -> Mach -> Prop)
                (QF : Mach -> Prop) (c : M X) :
  (forall m, P m -> P' m) -> hoare P' Q QE QF c -> hoare P Q QE QF c.
Proof. intros HP H m Hm. apply H. auto. Qed.

(** The scan cycles [cycles] runs for the count [n], with [dflt] the
    configured default. *)
Lemma clock_cycles (n : Z) (on_stop l : list A) (c t : Z) (k : nat) (d dflt : Z) :
  let n' := Z.to_nat (if n =? 0 then dflt else n) in
  hoare (fun m => clock c t k d m /\ scan_cycles_default_count_ (driver m) = dflt)
        (clock (c + Z.of_nat n') (t + Z.of_nat n' * d) (k + n') d)
        (fun _ m => exists j, (j < n')%nat /\
                     clock (c + Z.of_nat j + 1) (t + Z.of_nat j * d) (k + j + 1) d m)
        never_starves
        (cycles eval loop n on_stop l).
Proof.
  intros n'. unfold cycles.
  apply (hoare_read_fact _ _ _ _ (fun d0 => scan_cycles_default_count_ d0 = dflt)).
  { intros m [_ H]. exact H. }
  intros d0 ->. fold n'.
  apply (hoare_pre _ (clock c t k d)); [intros m [H _]; exact H|].
  apply (hoare_bind _ _ (clock c t k d)); [inv_step clock_side|intros _].
  apply (hoare_bind _ _ (clock c t k d)); [repeat inv_step clock_side|intros _].
  apply (hoare_bind _ _ (clock (c + Z.of_nat n') (t + Z.of_nat n' * d) (k + n') d)).
  { apply clock_cycles_loop. }
  intros _. repeat inv_step clock_side.
Qed.

(** Claim C6 (amended).  [cycles(n, ...)] runs [n] scan cycles when [n] is
    positive and the configured default count when [n] is 0 (none when that
    count is not positive), provided the call returns; it returns whenever
    the Driver is lenient, and otherwise a strict-mode error under
    abort-on-first-error may terminate the process in one of these cycles.
    A negative [n] is no error: the call returns having run no scan cycle
    and reported nothing through the error sink, after it bound and
    evaluated the stop assertions. *)
Theorem cycles_runs_the_requested_count (n : Z) (on_stop l : list A) (m : Mach) :
  let n' := Z.to_nat (if n =? 0 then scan_cycles_default_count_ (driver m) else n) in
  match cycles eval loop n on_stop l m with
  | Done _ m' =>
      ticks (trace m') = (ticks (trace m) + n')%nat /\
      cycle_id_ (driver m') = cycle_id_ (driver m) + Z.of_nat n'
  | Exited code m' =>
      strict_abort code m' /\
      exists j, (j < n')%nat /\ ticks (trace m') = (ticks (trace m) + j + 1)%nat
  | OutOfFuel _ => False
  end /\
  (0 < n -> n' = Z.to_nat n) /\
  (lenient m -> exists m', cycles eval loop n on_stop l m = Done tt m') /\
  (n < 0 ->
   exists m' ev,
     cycles eval loop n on_stop l m = Done tt m' /\ trace m' = trace m ++ ev /\
     ticks ev = O /\ errors ev = [] /\
     bound ev = on_stop /\ evaluated ev = on_stop /\
     driver m' = set_assertions_passed_
                   (assertions_passed_ (driver m) && all_passed ev) (driver m)).
Proof.
  intros n'. repeat split.
  - pose proof (clock_cycles n on_stop l _ _ _ _ _ m (conj (clock_now m) eq_refl)) as Hc.
    pose proof (exit_cycles n on_stop l m Logic.I) as He.
    cbv zeta in Hc. fold n' in Hc.
    destruct (cycles eval loop n on_stop l m) as [x m'|code m'|m'].
    + destruct Hc as (Hc & _ & Hk & _). auto.
    + destruct Hc as (j & Hj & _ & _ & Hk & _). split; [assumption|]. eauto.
    + assumption.
  - intros Hn. unfold n'. destruct (Z.eqb_spec n 0); [lia|reflexivity].
  - intros Hl.
    destruct (lenient_returns _ m (lenient_cycles n on_stop l) Hl) as ([] & m' & H).
    eauto.
  - intros Hn.
    destruct (cycles_negative n on_stop l m Hn) as (ev & T & R & E & B & Hrun).
    eexists _, ev. split; [exact Hrun|]. cbn. auto 10.
Qed.

(** ** Skipping no time *)
Lemma ltb_zero_le_zero (delta_t : double) :
  Double.le_zero delta_t -> Double.ltb (Double.of_int 0) delta_t = false.
Proof.
  destruct delta_t as [q| | |]; unfold Double.le_zero, Double.ltb, Double.of_int;
    try reflexivity; try contradiction.
  intros Hq. destruct (inject_Z 0 ?= q)%Q eqn:Hc; try reflexivity.
  apply Qlt_alt in Hc. exfalso. apply (Qle_not_lt _ _ Hq). exact Hc.
Qed.

Lemma skipTime_loop_nothing (fuel : nat) (delta_t : double) (start_time : Z)
                            (elapsed_time : double) (m : Mach) :
  Double.ltb elapsed_time delta_t = false ->
  skipTime_loop eval loop fuel delta_t start_time elapsed_time m = Done elapsed_time m.
Proof. intros H. rewrite skipTime_loop_unfold, H. reflexivity. Qed.

(** [skipTime] after the check of the cycle duration, when the loop is not
    entered. *)
Lemma skipTime_no_scan_cycle (fuel : nat) (delta_t : double) (l : list A)
                             (m m0 : Mach) :
  Double.ltb (Double.of_int 0) delta_t = false ->
  checkCycleDurationSet m = Done tt m0 ->
  exists ev,
    ticks ev = O /\ evaluated ev = l /\ bound ev = l /\ errors ev = [] /\
    skipTime eval loop fuel delta_t l m =
    Done tt (mkMachine
               (set_assertions_passed_
                  (assertions_passed_ (driver m0) && all_passed ev) (driver m0))
               (subject m0) (trace m0 ++ ev)).
Proof.
  intros Hlt Hcheck. unfold skipTime.
  unfold bind at 1. rewrite Hcheck.
  unfold bind at 1. unfold get_driver at 1.
  unfold bind at 1. unfold log at 1, bind at 1, get_driver at 1, emit at 1.
  rewrite bind_if_not_empty.
  unfold bind at 1. rewrite bind_assertions_run.
  unfold bind at 1. unfold get_driver at 1.
  unfold bind at 1. rewrite (skipTime_loop_nothing _ _ _ _ _ Hlt).
  unfold bind at 1. unfold get_driver at 1.
  unfold bind at 1. unfold log at 1, bind at 1, get_driver at 1, emit at 1.
  unfold bind at 1.
  match goal with |- context [(if _ then _ else _) ?m1] =>
    destruct (stop_assertions_run l m1) as (ev & E & T & B & R & Hrun) end.
  rewrite Hrun.
  destruct (binding_events l) as (Bb & Tb & Eb & Rb & Pb).
  exists (EvLog (time_ (driver m0)) (cycle_id_ (driver m0)) (MsgSkipping delta_t)
          :: map EvSetDriver l
          ++ EvLog (time_ (driver m0)) (cycle_id_ (driver m0))
                   (MsgSkipped (Double.of_int 0) (cycle_id_ (driver m0)))
          :: ev
          ++ [EvLog (time_ (driver m0)) (cycle_id_ (driver m0)) MsgNewline]).
  unfold log, bind, get_driver, emit. cbn.
  rewrite !ticks_app, !errors_app, !evaluated_app, !bound_app, !all_passed_app. cbn.
  rewrite !ticks_app, !errors_app, !evaluated_app, !bound_app, !all_passed_app. cbn.
  rewrite E, T, B, R, Bb, Tb, Eb, Rb, Pb. cbn.
  rewrite ?app_nil_r, ?andb_true_r, <- ?app_assoc. cbn. rewrite <- ?app_assoc. cbn.
  rewrite <- ?app_assoc.
  repeat split; reflexivity.
Qed.

(** Claim C10 (amended).  A time span that is not positive skips no scan
    cycle, whatever the fuel: unless the cycle duration is 0 and
    abort-on-first-error is set, the call returns, it has not called the
    firmware, the Driver is as before but for the aggregate pass flag, so
    the cycle id and the elapsed time are unchanged, and the stop
    assertions were bound and then evaluated, each once and in order. *)
Theorem skipTime_of_no_time_runs_no_cycle
        (fuel : nat) (delta_t : double) (l : list A) (m : Mach) :
  Double.le_zero delta_t ->
  cycle_duration_ (driver m) <> 0 \/ abort_on_first_error_ (driver m) = false ->
  exists m' ev,
    skipTime eval loop fuel delta_t l m = Done tt m' /\
    trace m' = trace m ++ ev /\
    ticks ev = O /\ evaluated ev = l /\ bound ev = l /\
    cycle_id_ (driver m') = cycle_id_ (driver m) /\
    time_ (driver m') = time_ (driver m) /\
    driver m' = set_assertions_passed_
                  (assertions_passed_ (driver m) && all_passed ev) (driver m).
Proof.
  intros Hle Hok. apply ltb_zero_le_zero in Hle.
  destruct (Z.eq_dec (cycle_duration_ (driver m)) 0) as [Hd|Hd].
  - destruct Hok as [Hok|Ha]; [contradiction|].
    pose proof (checkCycleDurationSet_unset m Hd) as Hcheck.
    cbv zeta in Hcheck. rewrite Ha in Hcheck.
    destruct (skipTime_no_scan_cycle fuel delta_t l m _ Hle Hcheck)
      as (ev & T & E & B & R & Hrun).
    eexists _, (EvError (time_ (driver m)) (cycle_id_ (driver m))
                        ErrCycleDurationNotSet :: ev).
    split; [exact Hrun|]. cbn. rewrite <- app_assoc. auto 10.
  - pose proof (checkCycleDurationSet_set m Hd) as Hcheck.
    destruct (skipTime_no_scan_cycle fuel delta_t l m _ Hle Hcheck)
      as (ev & T & E & B & R & Hrun).
    eexists _, ev. split; [exact Hrun|]. cbn. auto 10.
Qed.

(** ** Skipping a positive time span *)
Lemma ltb_of_int_true (e : Z) (q : Q) :
  (inject_Z e < q)%Q -> Double.ltb (Double.of_int e) (Finite q) = true.
Proof.
  intros H. unfold Double.ltb, Double.of_int.
  destruct (inject_Z e ?= q)%Q eqn:Hc; try reflexivity; exfalso.
  - apply Qeq_alt in Hc. apply (Qlt_not_eq _ _ H). exact Hc.
  - apply Qgt_alt in Hc. apply (Qlt_irrefl q). eapply Qlt_trans; eassumption.
Qed.

Lemma ltb_of_int_false (e : Z) (q : Q) :
  (q <= inject_Z e)%Q -> Double.ltb (Double.of_int e) (Finite q) = false.
Proof.
  intros H. unfold Double.ltb, Double.of_int.
  destruct (inject_Z e ?= q)%Q eqn:Hc; try reflexivity.
  apply Qlt_alt in Hc. exfalso. apply (Qle_not_lt _ _ H). exact Hc.
Qed.

(** [ceil(q / d)] is the number of steps of length [d] it takes to reach
    [q]: the least [k] with [q <= k * d]. *)
Lemma ceiling_steps (q : Q) (d : Z) :
  0 < d -> (0 < q)%Q ->
  let k := Z.to_nat (Qceiling (q / inject_Z d)) in
  (0 < k)%nat /\
  (q <= inject_Z (Z.of_nat k * d))%Q /\
  (forall i, (i < k)%nat -> (inject_Z (Z.of_nat i * d) < q)%Q).
Proof.
  intros Hd Hq k.
  assert (HdQ : (0 < inject_Z d)%Q).
  { change (inject_Z 0 < inject_Z d)%Q. rewrite <- Zlt_Qlt. exact Hd. }
  assert (Hdn : ~ (inject_Z d == 0)%Q).
  { intros H. rewrite H in HdQ. apply (Qlt_irrefl _ HdQ). }
  set (x := (q / inject_Z d)%Q) in *.
  assert (Hx : (0 < x)%Q).
  { unfold x. apply Qlt_shift_div_l; [exact HdQ|]. rewrite Qmult_0_l. exact Hq. }
  assert (Hxd : (x * inject_Z d == q)%Q).
  { unfold x. rewrite Qmult_comm. apply Qmult_div_r. exact Hdn. }
  pose proof (Qle_ceiling x) as Hup. pose proof (Qceiling_lt x) as Hlow.
  assert (Hc : 0 < Qceiling x).
  { rewrite Zlt_Qlt. apply (Qlt_le_trans _ x); assumption. }
  assert (Hk : Z.of_nat k = Qceiling x) by (unfold k; lia).
  repeat split.
  - lia.
  - rewrite Hk, inject_Z_mult, <- Hxd.
    apply Qmult_le_compat_r; [exact Hup|]. apply Qlt_le_weak. exact HdQ.
  - intros i Hi. rewrite inject_Z_mult, <- Hxd.
    apply Qmult_lt_compat_r; [exact HdQ|].
    apply (Qle_lt_trans _ (inject_Z (Qceiling x - 1))); [|exact Hlow].
    rewrite <- Zle_Qle. lia.
Qed.

(** One scan cycle: the clock, and the only cause of an exit. *)
Lemma tick_cycleInternal (c t : Z) (k : nat) (d : Z) (l : list A) (olr : bool) :
  hoare (clock c t k d) (clock (c + 1) (t + d) (S k) d)
        (fun code m => strict_abort code m /\ clock (c + 1) t (S k) d m)
        never_starves
        (cycleInternal eval loop l olr).
Proof.
  eapply hoare_conseq;
    [apply (hoare_conj _ _ _ _ _ _ _ _ _ (exit_cycleInternal l olr)
                       (clock_cycleInternal c t k d l olr))| | | |].
  - intros m H. split; [exact Logic.I|exact H].
  - intros m [_ H]. exact H.
  - intros code m H. exact H.
  - intros m [H _]. exact H.
Qed.

(** The loop of [skipTime], [j] scan cycles away from the time span. *)
Lemma clock_skipTime_loop (q : Q) (d start : Z) :
  0 < d ->
  forall (j fuel : nat) (c e : Z) (k : nat),
    (j <= fuel)%nat ->
    (forall i, (i < j)%nat -> (inject_Z (e + Z.of_nat i * d) < q)%Q) ->
    (q <= inject_Z (e + Z.of_nat j * d))%Q ->
    hoare (clock c (start + e) k d)
          (clock (c + Z.of_nat j) (start + e + Z.of_nat j * d) (k + j) d)
          (fun code m =>
             strict_abort code m /\
             exists i, (i < j)%nat /\
               clock (c + Z.of_nat i + 1) (start + e + Z.of_nat i * d) (k + i + 1) d m)
          never_starves
          (skipTime_loop eval loop fuel (Finite q) start (Double.of_int e)).
Proof.
  intros Hd. induction j as [|j IH]; intros fuel c e k Hfuel Hbelow Hreach.
  - rewrite skipTime_loop_unfold, ltb_of_int_false.
    + apply hoare_ret. intros m Hm.
      replace (c + Z.of_nat 0) with c by lia.
      replace (start + e + Z.of_nat 0 * d) with (start + e) by lia.
      rewrite Nat.add_0_r. exact Hm.
    + replace e with (e + Z.of_nat 0 * d) by lia. exact Hreach.
  - destruct fuel as [|fuel]; [lia|].
    rewrite skipTime_loop_unfold, ltb_of_int_true.
    2:{ replace e with (e + Z.of_nat 0 * d) by lia. apply Hbelow. lia. }
    apply (hoare_bind _ _ (clock (c + 1) (start + e + d) (S k) d)).
    + eapply hoare_conseq; [apply (tick_cycleInternal c (start + e) k d)| | | |]; auto.
      intros code m [Hs Hc]. split; [exact Hs|]. exists O. split; [lia|].
      replace (c + Z.of_nat 0 + 1) with (c + 1) by lia.
      replace (start + e + Z.of_nat 0 * d) with (start + e) by lia.
      replace (k + 0 + 1)%nat with (S k) by lia. exact Hc.
    + intros _.
      apply (hoare_read_fact _ _ _ _ (fun d0 => time_ d0 = start + e + d)).
      { intros m (_ & Ht & _). exact Ht. }
      intros d0 ->. replace (start + e + d - start) with (e + d) by lia.
      eapply hoare_conseq; [apply (IH fuel (c + 1) (e + d) (S k))| | | |].
      * lia.
      * intros i Hi. replace (e + d + Z.of_nat i * d) with (e + Z.of_nat (S i) * d) by lia.
        apply Hbelow. lia.
      * replace (e + d + Z.of_nat j * d) with (e + Z.of_nat (S j) * d) by lia.
        exact Hreach.
      * intros m Hm. replace (start + (e + d)) with (start + e + d) by lia. exact Hm.
      * intros m Hm.
        replace (c + Z.of_nat (S j)) with (c + 1 + Z.of_nat j) by lia.
        replace (start + e + Z.of_nat (S j) * d)
          with (start + (e + d) + Z.of_nat j * d) by lia.
        replace (k + S j)%nat with (S k + j)%nat by lia. exact Hm.
      * intros code m (Hs & i & Hi & Hm). split; [exact Hs|].
        exists (S i). split; [lia|].
        replace (c + Z.of_nat (S i) + 1) with (c + 1 + Z.of_nat i + 1) by lia.
        replace (start + e + Z.of_nat (S i) * d)
          with (start + (e + d) + Z.of_nat i * d) by lia.
        replace (k + S i + 1)%nat with (S k + i + 1)%nat by lia. exact Hm.
      * auto.
Qed.

Lemma lenient_skipTime (fuel : nat) (delta_t : double) (l : list A) :
  hoare (fun m => lenient m /\ cycle_duration_ (driver m) <> 0) lenient
        never_exits (@anywhere A Report Subject)
        (skipTime eval loop fuel delta_t l).
Proof.
  unfold skipTime. apply (hoare_bind _ _ lenient).
  - intros m [Hl Hd]. rewrite (checkCycleDurationSet_set m Hd). exact Hl.
  - intros _.
    repeat first [ apply inv_skipTime_loop; [|intros; exact Logic.I]
                 | inv_step lenient_side ].
    eapply hoare_conseq; [apply (lenient_cycleInternal [] true)| | | |]; auto.
    intros m [].
Qed.

(** [skipTime] for a positive time span [q] and a positive cycle duration
    [d], with fuel for [ceil(q / d)] scan cycles. *)
Lemma clock_skipTime (q : Q) (d : Z) (fuel : nat) (l : list A)
                     (c t : Z) (k : nat) :
  0 < d -> (0 < q)%Q ->
  let n := Z.to_nat (Qceiling (q / inject_Z d)) in
  (n <= fuel)%nat ->
  hoare (clock c t k d)
        (clock (c + Z.of_nat n) (t + Z.of_nat n * d) (k + n) d)
        (fun code m =>
           strict_abort code m /\
           exists i, (i < n)%nat /\
             clock (c + Z.of_nat i + 1) (t + Z.of_nat i * d) (k + i + 1) d m)
        never_starves
        (skipTime eval loop fuel (Finite q) l).
Proof.
  intros Hd Hq n Hfuel.
  destruct (ceiling_steps q d Hd Hq) as (_ & Hreach & Hbelow). fold n in Hreach, Hbelow.
  unfold skipTime.
  apply (hoare_bind _ _ (clock c t k d)).
  { intros m Hm. rewrite checkCycleDurationSet_set; [exact Hm|].
    destruct Hm as (_ & _ & _ & ->). lia. }
  intros _.
  apply (hoare_bind _ _ (clock c t k d)); [inv_step clock_side|intros d0; cbv zeta].
  apply (hoare_bind _ _ (clock c t k d)); [inv_step clock_side|intros _].
  apply (hoare_bind _ _ (clock c t k d)); [repeat inv_step clock_side|intros _].
  apply (hoare_read_fact _ _ _ _ (fun d1 => time_ d1 = t)).
  { intros m (_ & Ht & _). exact Ht. }
  intros d1 ->.
  apply (hoare_bind _ _ (clock (c + Z.of_nat n) (t + Z.of_nat n * d) (k + n) d)).
  - eapply hoare_conseq;
      [apply (clock_skipTime_loop q d t Hd n fuel c 0 k Hfuel)| | | |].
    + intros i Hi. rewrite Z.add_0_l. apply Hbelow. exact Hi.
    + rewrite Z.add_0_l. exact Hreach.
    + intros m Hm. rewrite Z.add_0_r. exact Hm.
    + intros m Hm. rewrite Z.add_0_r in Hm. exact Hm.
    + intros code m (Hs & i & Hi & Hm). split; [exact Hs|]. exists i.
      rewrite Z.add_0_r in Hm. auto.
    + auto.
  - intros elapsed. repeat inv_step clock_side.
Qed.

(** Claim C4 (amended).  For a positive cycle duration [d] and a positive,
    finite time span [q], [skipTime], given fuel for them, runs exactly
    [ceil(q / d)] scan cycles when it returns, and then the time elapsed
    since the call started, [ceil(q / d) * d], is at least [q].  It
    returns whenever the Driver is lenient; otherwise a strict-mode error
    under abort-on-first-error may terminate the process in one of these
    scan cycles.  It never needs more fuel. *)
Theorem skipTime_runs_ceiling_many_cycles
        (q : Q) (fuel : nat) (l : list A) (m : Mach) :
  0 < cycle_duration_ (driver m) -> (0 < q)%Q ->
  let n := Z.to_nat (Qceiling (q / inject_Z (cycle_duration_ (driver m)))) in
  (n <= fuel)%nat ->
  match skipTime eval loop fuel (Finite q) l m with
  | Done _ m' =>
      ticks (trace m') = (ticks (trace m) + n)%nat /\
      cycle_id_ (driver m') = cycle_id_ (driver m) + Z.of_nat n /\
      time_ (driver m') - time_ (driver m) = Z.of_nat n * cycle_duration_ (driver m) /\
      (q <= inject_Z (time_ (driver m') - time_ (driver m)))%Q
  | Exited code m' =>
      strict_abort code m' /\
      exists i, (i < n)%nat /\ ticks (trace m') = (ticks (trace m) + i + 1)%nat
  | OutOfFuel _ => False
  end /\
  (lenient m -> exists m', skipTime eval loop fuel (Finite q) l m = Done tt m').
Proof.
  intros Hd Hq n Hfuel.
  pose proof (clock_skipTime q _ fuel l _ _ _ Hd Hq Hfuel m (clock_now m)) as Hc.
  fold n in Hc.
  destruct (ceiling_steps q _ Hd Hq) as (_ & Hreach & _). fold n in Hreach.
  split.
  - destruct (skipTime eval loop fuel (Finite q) l m) as [x m'|code m'|m'].
    + destruct Hc as (Hc & Ht & Hk & _).
      assert (Hdt : time_ (driver m') - time_ (driver m)
                    = Z.of_nat n * cycle_duration_ (driver m)) by lia.
      rewrite Hdt. auto.
    + destruct Hc as (Hs & i & Hi & _ & _ & Hk & _). split; [exact Hs|]. eauto.
    + exact Hc.
  - intros Hl.
    pose proof (lenient_skipTime fuel (Finite q) l m) as H.
    destruct (skipTime eval loop fuel (Finite q) l m) as [[] m'|code m'|m'].
    + eauto.
    + exfalso. apply H. split; [exact Hl|lia].
    + destruct Hc.
Qed.

(** ** The aggregate pass flag *)
Lemma aggregates_more (tr0 ev : list Ev) (b0 : bool) (m m' : Mach) :
  aggregates tr0 b0 m ->
  trace m' = trace m ++ ev ->
  assertions_passed_ (driver m') = assertions_passed_ (driver m) && all_passed ev ->
  aggregates tr0 b0 m'.
Proof.
  intros (ev0 & Ht & Hf) Ht' Hf'. exists (ev0 ++ ev). split.
  - rewrite Ht', Ht. symmetry. apply app_assoc.
  - rewrite Hf', Hf, all_passed_app. symmetry. apply andb_assoc.
Qed.

Lemma aggregates_refl (m : Mach) :
  aggregates (trace m) (assertions_passed_ (driver m)) m.
Proof.
  exists []. split; [symmetry; apply app_nil_r|symmetry; apply andb_true_r].
Qed.

Ltac aggregates_side := cbv zeta; intros;
  try match goal with |- if ?b then _ else _ => destruct b end;
  solve [ assumption
        | eapply aggregates_more;
          [eassumption|cbn; reflexivity|cbn; rewrite ?andb_true_r; reflexivity]
        | eapply aggregates_more;
          [eassumption|cbn; symmetry; apply app_nil_r
          |cbn; rewrite ?andb_true_r; reflexivity] ].

Lemma aggregates_cycleInternal (tr0 : list Ev) (b0 : bool) (l : list A) (olr : bool) :
  hoare (aggregates tr0 b0) (aggregates tr0 b0) (fun _ => aggregates tr0 b0)
        (aggregates tr0 b0) (cycleInternal eval loop l olr).
Proof. inv_cycleInternal aggregates_side. Qed.

Lemma aggregates_cycle (tr0 : list Ev) (b0 : bool) (l : list A) :
  hoare (aggregates tr0 b0) (aggregates tr0 b0) (fun _ => aggregates tr0 b0)
        (aggregates tr0 b0) (cycle eval loop l).
Proof.
  unfold cycle.
  apply inv_bind; [inv_step aggregates_side|intros _].
  apply inv_bind; [apply aggregates_cycleInternal|intros _].
  inv_step aggregates_side.
Qed.

Lemma aggregates_cycles (tr0 : list Ev) (b0 : bool) (n : Z) (on_stop l : list A) :
  hoare (aggregates tr0 b0) (aggregates tr0 b0) (fun _ => aggregates tr0 b0)
        (aggregates tr0 b0) (cycles eval loop n on_stop l).
Proof.
  unfold cycles, cycles_loop. repeat inv_step aggregates_side.
  apply aggregates_cycleInternal.
Qed.

Lemma aggregates_skipTime (tr0 : list Ev) (b0 : bool) (fuel : nat) (delta_t : double)
                          (l : list A) :
  hoare (aggregates tr0 b0) (aggregates tr0 b0) (fun _ => aggregates tr0 b0)
        (aggregates tr0 b0) (skipTime eval loop fuel delta_t l).
Proof.
  unfold skipTime, checkCycleDurationSet.
  repeat first [ apply inv_skipTime_loop; [|aggregates_side]
               | inv_step aggregates_side ].
  apply aggregates_cycleInternal.
Qed.

(** What a triple says about the state a run ends in, however it ends. *)
Lemma hoare_machine_of {X} (P I : Mach -> Prop) (c : M X) (m : Mach) :
  hoare P I (fun _ => I) I c -> P m -> I (machine_of (c m)).
Proof. intros H Hm. specialize (H m Hm). destruct (c m); exact H. Qed.

(** Property X1.  The aggregate pass flag is the conjunction of all
    results: however a call of [cycle], [cycles] or [skipTime] ends, the
    flag afterwards is the flag before ANDed with the result of every
    evaluation the call appended to the trace.  So a flag that is false
    stays false. *)
Theorem aggregate_flag_is_conjunction_of_results (m : Mach) :
  let conjunction (m' : Mach) :=
    exists ev,
      trace m' = trace m ++ ev /\
      assertions_passed_ (driver m')
      = assertions_passed_ (driver m) && all_passed ev /\
      (assertions_passed_ (driver m) = false ->
       assertions_passed_ (driver m') = false) in
  (forall l, conjunction (machine_of (cycle eval loop l m))) /\
  (forall n on_stop l, conjunction (machine_of (cycles eval loop n on_stop l m))) /\
  (forall fuel delta_t l,
     conjunction (machine_of (skipTime eval loop fuel delta_t l m))).
Proof.
  intros conjunction.
  assert (H : forall m', aggregates (trace m) (assertions_passed_ (driver m)) m' ->
                         conjunction m').
  { intros m' (ev & Ht & Hf). exists ev. repeat split; try assumption.
    intros H0. rewrite Hf, H0. reflexivity. }
  split; [intros l|split; [intros n on_stop l|intros fuel delta_t l]]; apply H.
  - apply (hoare_machine_of _ _ _ m (aggregates_cycle _ _ l)), aggregates_refl.
  - apply (hoare_machine_of _ _ _ m (aggregates_cycles _ _ n on_stop l)), aggregates_refl.
  - apply (hoare_machine_of _ _ _ m (aggregates_skipTime _ _ fuel delta_t l)),
      aggregates_refl.
Qed.

(** ** What no scheduling call changes *)
Lemma setup_cycle (s : _) (l : list A) :
  hoare (fun m : Mach => setup (driver m) = s) (fun m => setup (driver m) = s)
        (fun _ m => setup (driver m) = s) (fun m => setup (driver m) = s)
        (cycle eval loop l).
Proof.
  unfold cycle.
  apply inv_bind; [inv_step setup_side|intros _].
  apply inv_bind; [apply setup_cycleInternal|intros _].
  inv_step setup_side.
Qed.

Lemma setup_cycles (s : _) (n : Z) (on_stop l : list A) :
  hoare (fun m : Mach => setup (driver m) = s) (fun m => setup (driver m) = s)
        (fun _ m => setup (driver m) = s) (fun m => setup (driver m) = s)
        (cycles eval loop n on_stop l).
Proof.
  unfold cycles, cycles_loop. repeat inv_step setup_side.
  apply setup_cycleInternal.
Qed.

Lemma setup_skipTime (s : _) (fuel : nat) (delta_t : double) (l : list A) :
  hoare (fun m : Mach => setup (driver m) = s) (fun m => setup (driver m) = s)
        (fun _ m => setup (driver m) = s) (fun m => setup (driver m) = s)
        (skipTime eval loop fuel delta_t l).
Proof.
  unfold skipTime, checkCycleDurationSet.
  repeat first [ apply inv_skipTime_loop; [|setup_side]
               | inv_step setup_side ].
  apply setup_cycleInternal.
Qed.

(** Property X2.  No scan cycle, scheduling call or report changes the
    configuration of the Driver (debug flag, cycle duration,
    abort-on-first-error, strict mode, default cycle count) or one of the
    two permanent collections of assertions, however the call ends. *)
Theorem scheduling_keeps_setup_and_permanent_assertions (m : Mach) :
  let kept (m' : Mach) :=
    setup (driver m') = setup (driver m) /\
    permanent_keyboard_report_assertions_ (driver m')
    = permanent_keyboard_report_assertions_ (driver m) /\
    permanent_cycle_assertions_ (driver m')
    = permanent_cycle_assertions_ (driver m) /\
    cycle_duration_ (driver m') = cycle_duration_ (driver m) /\
    abort_on_first_error_ (driver m') = abort_on_first_error_ (driver m) in
  (forall l, kept (machine_of (cycle eval loop l m))) /\
  (forall n on_stop l, kept (machine_of (cycles eval loop n on_stop l m))) /\
  (forall fuel delta_t l, kept (machine_of (skipTime eval loop fuel delta_t l m))) /\
  (forall r, kept (machine_of (processKeyboardReport eval r m))).
Proof.
  intros kept.
  assert (H : forall m', setup (driver m') = setup (driver m) -> kept m').
  { intros m' H. split; [exact H|]. unfold setup in H.
    injection H as _ Hd Ha _ _ Hp Hc. auto. }
  split; [intros l|split; [intros n on_stop l|split; [intros fuel delta_t l|intros r]]];
    apply H.
  - apply (hoare_machine_of _ _ _ m (setup_cycle _ l)). reflexivity.
  - apply (hoare_machine_of _ _ _ m (setup_cycles _ n on_stop l)). reflexivity.
  - apply (hoare_machine_of _ _ _ m (setup_skipTime _ fuel delta_t l)). reflexivity.
  - destruct (processKeyboardReport_run r m) as (ev & _ & _ & _ & _ & _ & _ & Hrun).
    cbv zeta in Hrun. rewrite Hrun.
    destruct (underflow (driver m) && abort_on_first_error_ (driver m)); reflexivity.
Qed.

(** ** The destructor *)

(** Property X3.  The destructor first writes the five lines of the
    footer, stamped with the time and the cycle id of the Driver; it
    changes no member of the Driver, runs no scan cycle and evaluates
    nothing.  It terminates the process with exit code 1 if queued report
    assertions are left over or the aggregate pass flag is false, and then
    the last thing it wrote is an error, which is "Terminating with exit
    code 1" unless abort-on-first-error stopped it earlier; otherwise it
    returns, and all it wrote after the footer is "All tests passed". *)
Theorem destructor_exits_iff_the_run_failed (m : Mach) :
  let failing := queued_keyboard_report_assertions_ (driver m) <> [] \/
                 assertions_passed_ (driver m) = false in
  let footer :=
    map (EvLog (time_ (driver m)) (cycle_id_ (driver m)))
        [MsgNewline; MsgBannerLine; MsgTestingDone; MsgBannerLine; MsgNewline] in
  exists rest,
    let ev := footer ++ rest in
    let m' := mkMachine (driver m) (subject m) (trace m ++ ev) in
    evaluated ev = [] /\ ticks ev = O /\ bound ev = [] /\
    (failing ->
       Driver_destroy m = Exited 1 m' /\
       exists tr t c e, ev = tr ++ [EvError t c e] /\
         (abort_on_first_error_ (driver m) = false -> e = ErrTerminating)) /\
    (~ failing ->
       Driver_destroy m = Done tt m' /\ errors ev = [] /\
       rest = [EvLog (time_ (driver m)) (cycle_id_ (driver m)) MsgAllTestsPassed]).
Proof.
  destruct m as [d w tr].
  destruct d as [dbg dur ab q pr qc pc cur cid t dflt ap strict no nc].
  unfold Driver_destroy, footerText, checkStatus. cbn.
  destruct q as [|a q], ap, ab; cbn; rewrite <- ?app_assoc; cbn;
    match goal with
    | |- context [tr ++ _ :: _ :: _ :: _ :: _ :: ?l] => exists l
    end;
    (split; [reflexivity|split; [reflexivity|split; [reflexivity|split]]]);
    intros H;
    try (exfalso; apply H; solve [left; discriminate | right; reflexivity]);
    try (exfalso; destruct H as [H|H]; [apply H; reflexivity|discriminate H]);
    (split; [reflexivity|]); try (split; reflexivity);
    match goal with
    | |- exists tr t c e, ?l = _ /\ _ =>
        exists (removelast l); cbn; do 3 eexists; split; [reflexivity|]
    end; intros Hab; try discriminate Hab; reflexivity.
Qed.

(** ** Process exits *)

(** One evaluation keeps an invariant that the evaluation step keeps. *)
Lemma inv_assertion (I : Mach -> Prop) (QE : Z -> Mach -> Prop) (QF : Mach -> Prop)
                    (a : A) :
  (forall m, I m ->
     I (mkMachine
          (set_assertions_passed_
             (assertions_passed_ (driver m) && eval a (driver m)) (driver m))
          (subject m)
          (trace m ++ EvEval a (eval a (driver m))
                   :: (if negb (eval a (driver m)) || debug_ (driver m)
                       then [EvReport a] else [])))) ->
  hoare I I QE QF (processKeyboardReportAssertion eval a).
Proof. intros H m Hm. rewrite processKeyboardReportAssertion_run. auto. Qed.

Ltac diagnosed_side := cbv zeta; intros; try exact Logic.I;
  unfold diagnosed; cbn;
  solve [split; [reflexivity|split; [assumption|do 4 eexists; reflexivity]]].

Lemma diagnosed_report (r : Report) :
  hoare (@anywhere A Report Subject) anywhere diagnosed never_starves
        (processKeyboardReport eval r).
Proof.
  unfold processKeyboardReport.
  repeat lazymatch goal with
         | |- hoare _ _ _ _ (processKeyboardReportAssertion _ _) =>
             apply inv_assertion; diagnosed_side
         | |- _ => inv_step diagnosed_side
         end.
Qed.

Ltac diagnosed_step :=
  lazymatch goal with
  | |- hoare _ _ _ _ (processKeyboardReport _ _) => apply diagnosed_report
  | |- _ => inv_step diagnosed_side
  end.

Lemma diagnosed_cycleInternal (l : list A) (olr : bool) :
  hoare (@anywhere A Report Subject) anywhere diagnosed never_starves
        (cycleInternal eval loop l olr).
Proof.
  unfold cycleInternal. destruct l; cbn [AssertionQueue.empty forM_ negb];
    repeat diagnosed_step.
Qed.

Lemma diagnosed_cycle (l : list A) :
  hoare (@anywhere A Report Subject) anywhere diagnosed never_starves
        (cycle eval loop l).
Proof.
  unfold cycle.
  apply inv_bind; [inv_step diagnosed_side|intros _].
  apply inv_bind; [apply diagnosed_cycleInternal|intros _].
  inv_step diagnosed_side.
Qed.

Lemma diagnosed_cycles (n : Z) (on_stop l : list A) :
  hoare (@anywhere A Report Subject) anywhere diagnosed never_starves
        (cycles eval loop n on_stop l).
Proof.
  unfold cycles, cycles_loop. repeat inv_step diagnosed_side.
  apply diagnosed_cycleInternal.
Qed.

Lemma diagnosed_skipTime (fuel : nat) (delta_t : double) (l : list A) :
  hoare (@anywhere A Report Subject) anywhere diagnosed anywhere
        (skipTime eval loop fuel delta_t l).
Proof.
  unfold skipTime, checkCycleDurationSet.
  repeat first [ apply inv_skipTime_loop; [|diagnosed_side]
               | inv_step diagnosed_side ].
  eapply hoare_conseq; [apply (diagnosed_cycleInternal [] true)| | | |]; auto.
  intros m [].
Qed.

Lemma diagnosed_checkStatus :
  hoare (@anywhere A Report Subject) anywhere diagnosed never_starves
        (@checkStatus A Report Subject).
Proof. unfold checkStatus. repeat inv_step diagnosed_side. Qed.

(** Property X4.  When [cycle], [cycles], [skipTime] or [checkStatus]
    terminates the process, abort-on-first-error is set, the exit code is
    1, and the last event of the trace is the error diagnostic that caused
    the exit: nothing is evaluated and no scan cycle runs after it. *)
Theorem process_exit_follows_an_error_diagnostic (m m' : Mach) (code : Z) :
  (exists l, cycle eval loop l m = Exited code m') \/
  (exists n on_stop l, cycles eval loop n on_stop l m = Exited code m') \/
  (exists fuel delta_t l, skipTime eval loop fuel delta_t l m = Exited code m') \/
  checkStatus m = Exited code m' ->
  code = 1 /\
  abort_on_first_error_ (driver m) = true /\
  exists tr t c e, trace m' = tr ++ [EvError t c e].
Proof.
  assert (H : diagnosed code m' ->
              abort_on_first_error_ (driver m') = abort_on_first_error_ (driver m) ->
              code = 1 /\ abort_on_first_error_ (driver m) = true /\
              exists tr t c e, trace m' = tr ++ [EvError t c e]).
  { intros (Hc & Ha & He) Hs. rewrite <- Hs. auto. }
  assert (Hs : forall m1 : Mach, setup (driver m1) = setup (driver m) ->
               abort_on_first_error_ (driver m1) = abort_on_first_error_ (driver m)).
  { intros m1 H1. unfold setup in H1. injection H1 as _ _ Ha _ _ _ _. exact Ha. }
  intros [[l Hrun]|[(n & on_stop & l & Hrun)|[(fuel & delta_t & l & Hrun)|Hrun]]];
    apply H.
  - pose proof (diagnosed_cycle l m Logic.I) as Hd. rewrite Hrun in Hd. exact Hd.
  - apply Hs. pose proof (setup_cycle _ l m eq_refl) as H1. rewrite Hrun in H1. exact H1.
  - pose proof (diagnosed_cycles n on_stop l m Logic.I) as Hd. rewrite Hrun in Hd.
    exact Hd.
  - apply Hs. pose proof (setup_cycles _ n on_stop l m eq_refl) as H1.
    rewrite Hrun in H1. exact H1.
  - pose proof (diagnosed_skipTime fuel delta_t l m Logic.I) as Hd. rewrite Hrun in Hd.
    exact Hd.
  - apply Hs. pose proof (setup_skipTime _ fuel delta_t l m eq_refl) as H1.
    rewrite Hrun in H1. exact H1.
  - pose proof (diagnosed_checkStatus m Logic.I) as Hd. rewrite Hrun in Hd. exact Hd.
  - apply Hs.
    destruct (checkStatus_run m) as (ev & _ & _ & _ & Hrun'). cbv zeta in Hrun'.
    rewrite Hrun in Hrun'.
    destruct (unfinished (driver m));
      [destruct (abort_on_first_error_ (driver m)) eqn:Ha|];
      try discriminate; injection Hrun' as _ ->; reflexivity.
Qed.

(** ** Time spans that are out of reach *)
Lemma time_cycleInternal (t d : Z) (l : list A) (olr : bool) :
  hoare (fun m : Mach => time_ (driver m) = t /\ cycle_duration_ (driver m) = d)
        (fun m => time_ (driver m) = t + d /\ cycle_duration_ (driver m) = d)
        (fun _ _ => True) never_starves
        (cycleInternal eval loop l olr).
Proof.
  intros m [Ht Hd].
  pose proof (clock_cycleInternal _ _ _ _ l olr m (clock_now m)) as H.
  destruct (cycleInternal eval loop l olr m); [|exact Logic.I|exact H].
  destruct H as (_ & Ht' & _ & Hd'). rewrite Ht', Hd', Ht, Hd. auto.
Qed.

Lemma hoare_false {X} (Q : Mach -> Prop) (QE : Z -> Mach -> Prop) (QF : Mach -> Prop)
                  (c : M X) :
  hoare (fun _ => False) Q QE QF c.
Proof. intros m []. Qed.

Lemma skipTime_loop_out_of_reach (d : Z) (delta_t : double) (start : Z) :
  out_of_reach d delta_t ->
  forall (fuel i : nat),
    hoare (fun m : Mach => time_ (driver m) = start + Z.of_nat i * d /\
                           cycle_duration_ (driver m) = d)
          (fun _ => False) (fun _ _ => True) (fun _ => True)
          (skipTime_loop eval loop fuel delta_t start (Double.of_int (Z.of_nat i * d))).
Proof.
  intros Hout. induction fuel as [|fuel IH]; intros i;
    rewrite skipTime_loop_unfold, (Hout i).
  - intros m _. exact Logic.I.
  - apply (hoare_bind _ _ (fun m => time_ (driver m) = start + Z.of_nat (S i) * d /\
                                    cycle_duration_ (driver m) = d)).
    + eapply hoare_conseq;
        [apply (time_cycleInternal (start + Z.of_nat i * d) d)| | | |]; auto.
      intros m [Ht Hd]. split; [rewrite Ht; lia|exact Hd].
    + intros _.
      apply (hoare_read_fact _ _ _ _ (fun d0 => time_ d0 = start + Z.of_nat (S i) * d)).
      { intros m [Ht _]. exact Ht. }
      intros d0 ->.
      replace (start + Z.of_nat (S i) * d - start) with (Z.of_nat (S i) * d) by lia.
      apply IH.
Qed.

Lemma out_of_reach_infinity (d : Z) : out_of_reach d PosInf.
Proof. intros i. reflexivity. Qed.

Lemma out_of_reach_backwards (d : Z) (q : Q) :
  d <= 0 -> (0 < q)%Q -> out_of_reach d (Finite q).
Proof.
  intros Hd Hq i. apply ltb_of_int_true.
  apply (Qle_lt_trans _ (inject_Z 0)); [|exact Hq].
  rewrite <- Zle_Qle. nia.
Qed.

Lemma skipTime_out_of_reach (fuel : nat) (delta_t : double) (l : list A) (d : Z) :
  out_of_reach d delta_t ->
  hoare (fun m : Mach => cycle_duration_ (driver m) = d)
        (fun _ => False) (fun _ _ => True) (fun _ => True)
        (skipTime eval loop fuel delta_t l).
Proof.
  intros Hout. unfold skipTime, checkCycleDurationSet.
  set (P := fun m : Mach => cycle_duration_ (driver m) = d).
  assert (Hside : forall (m : Mach) (e : Ev), P m -> P (with_event e m)).
  { intros m e H. exact H. }
  apply (hoare_bind _ _ P).
  { apply hoare_read. intros d0.
    apply hoare_when; [intros _|intros _ m [H _]; exact H].
    apply hoare_error; intros m [H _] _; [exact H|exact Logic.I]. }
  intros _.
  apply (hoare_bind _ _ P); [apply hoare_get_driver; auto|intros d0; cbv zeta].
  apply (hoare_bind _ _ P); [apply hoare_log; auto|intros _].
  apply (hoare_bind _ _ P).
  { rewrite bind_if_not_empty. apply hoare_forM. intros a _. apply hoare_emit. auto. }
  intros _. apply hoare_read. intros d1.
  apply (hoare_bind _ _ (fun _ => False)); [|intros x; apply hoare_false].
  change (Double.of_int 0) with (Double.of_int (Z.of_nat 0 * d)).
  eapply hoare_conseq; [apply (skipTime_loop_out_of_reach d delta_t (time_ d1) Hout fuel 0)
                       | | | |]; auto.
  intros m [H <-]. split; [cbn; lia|exact H].
Qed.

(** The scan cycles of a loop whose time span is out of reach: the loop
    runs one of them for every unit of fuel. *)
Lemma ticks_skipTime_loop_out_of_reach (d : Z) (delta_t : double) (start : Z) :
  out_of_reach d delta_t ->
  forall (fuel i k : nat),
    hoare (fun m : Mach => time_ (driver m) = start + Z.of_nat i * d /\
                           cycle_duration_ (driver m) = d /\ ticks (trace m) = k)
          (fun _ => False) (fun _ _ => True)
          (fun m => ticks (trace m) = (k + fuel)%nat)
          (skipTime_loop eval loop fuel delta_t start (Double.of_int (Z.of_nat i * d))).
Proof.
  intros Hout. induction fuel as [|fuel IH]; intros i k;
    rewrite skipTime_loop_unfold, (Hout i).
  - intros m (_ & _ & Hk). cbn. lia.
  - apply (hoare_bind _ _ (fun m => time_ (driver m) = start + Z.of_nat (S i) * d /\
                                    cycle_duration_ (driver m) = d /\
                                    ticks (trace m) = S k)).
    + intros m (Ht & Hd & Hk).
      pose proof (clock_cycleInternal _ _ _ _ [] true m (clock_now m)) as H.
      destruct (cycleInternal eval loop [] true m); [|exact Logic.I|destruct H].
      destruct H as (_ & Ht' & Hk' & Hd'). rewrite Ht', Hk', Hd', Ht, Hd, Hk.
      repeat split; lia.
    + intros _.
      apply (hoare_read_fact _ _ _ _ (fun d0 => time_ d0 = start + Z.of_nat (S i) * d)).
      { intros m [Ht _]. exact Ht. }
      intros d0 ->.
      replace (start + Z.of_nat (S i) * d - start) with (Z.of_nat (S i) * d) by lia.
      eapply hoare_conseq; [apply (IH (S i) (S k))| | | |]; auto.
      intros m H. cbv beta in H. lia.
Qed.

Lemma ticks_skipTime_out_of_reach (fuel : nat) (delta_t : double) (l : list A)
                                  (d : Z) (k : nat) :
  out_of_reach d delta_t ->
  hoare (fun m : Mach => cycle_duration_ (driver m) = d /\ ticks (trace m) = k)
        (fun _ => False) (fun _ _ => True)
        (fun m => ticks (trace m) = (k + fuel)%nat)
        (skipTime eval loop fuel delta_t l).
Proof.
  intros Hout. unfold skipTime, checkCycleDurationSet.
  set (P := fun m : Mach => cycle_duration_ (driver m) = d /\ ticks (trace m) = k).
  assert (Hside : forall (m : Mach) (e : Ev), ticks [e] = O -> P m -> P (with_event e m)).
  { intros m e He [Hd Hk]. split; [exact Hd|].
    cbn. rewrite ticks_app, He, Hk. lia. }
  apply (hoare_bind _ _ P).
  { apply hoare_read. intros d0.
    apply hoare_when; [intros _|intros _ m [H _]; exact H].
    apply hoare_error; intros m [H _] _; [apply Hside; [reflexivity|exact H]|exact Logic.I]. }
  intros _.
  apply (hoare_bind _ _ P); [apply hoare_get_driver; auto|intros d0; cbv zeta].
  apply (hoare_bind _ _ P);
    [apply hoare_log; intros m H; apply Hside; [reflexivity|exact H]|intros _].
  apply (hoare_bind _ _ P).
  { rewrite bind_if_not_empty. apply hoare_forM. intros a _. apply hoare_emit.
    intros m H; apply Hside; [reflexivity|exact H]. }
  intros _. apply hoare_read. intros d1.
  apply (hoare_bind _ _ (fun _ => False)); [|intros x; apply hoare_false].
  change (Double.of_int 0) with (Double.of_int (Z.of_nat 0 * d)).
  eapply hoare_conseq;
    [apply (ticks_skipTime_loop_out_of_reach d delta_t (time_ d1) Hout fuel 0 k)
    | | | |]; auto.
  intros m [[Hd Hk] <-]. split; [cbn; lia|split; [exact Hd|exact Hk]].
Qed.

(** Claim C5 (amended).  Called while the cycle duration is 0, [skipTime]
    reports "cycle duration not set" through the error sink before it does
    anything else: the error is the first event the call appends to the
    trace, so it precedes every scan cycle of the call, whatever the time
    span, the stop assertions and the fuel.  The call fails only under
    abort-on-first-error: the process then exits with code 1 right after
    the report and nothing else happens.  Without abort-on-first-error the
    call goes on as if the duration were set, and the report leaves the
    aggregate pass flag alone.  When the test of its loop, [0 < delta_t],
    fails, the call returns after no scan cycle and no other error, having
    bound and evaluated the stop assertions.  When the test holds, the
    elapsed time stays 0 and the loop never ends: whatever the fuel, the
    call is still running when it is used up, after one scan cycle for
    every unit of it. *)
Theorem skipTime_reports_unset_cycle_duration
        (fuel : nat) (delta_t : double) (l : list A) (m : Mach) :
  cycle_duration_ (driver m) = 0 ->
  let e := EvError (time_ (driver m)) (cycle_id_ (driver m)) ErrCycleDurationNotSet in
  (exists ev,
     trace (machine_of (skipTime eval loop fuel delta_t l m)) = trace m ++ e :: ev) /\
  (abort_on_first_error_ (driver m) = true ->
     skipTime eval loop fuel delta_t l m = Exited 1 (with_event e m)) /\
  (abort_on_first_error_ (driver m) = false ->
     (Double.ltb (Double.of_int 0) delta_t = false ->
      exists ev,
        ticks ev = O /\ errors ev = [] /\ bound ev = l /\ evaluated ev = l /\
        skipTime eval loop fuel delta_t l m =
        Done tt (mkMachine
                   (set_assertions_passed_
                      (assertions_passed_ (driver m) && all_passed ev) (driver m))
                   (subject m) (trace m ++ e :: ev))) /\
     (Double.ltb (Double.of_int 0) delta_t = true ->
      exists m',
        skipTime eval loop fuel delta_t l m = OutOfFuel m' /\
        ticks (trace m') = (ticks (trace m) + fuel)%nat)).
Proof.
  intros Hd e.
  assert (Hexit : abort_on_first_error_ (driver m) = true ->
                  skipTime eval loop fuel delta_t l m = Exited 1 (with_event e m)).
  { intros Ha. unfold skipTime, bind at 1.
    rewrite (checkCycleDurationSet_unset m Hd). cbv zeta. rewrite Ha. reflexivity. }
  assert (Hrest : abort_on_first_error_ (driver m) = false ->
                  grows (trace m ++ [e])
                        (machine_of (skipTime eval loop fuel delta_t l m))).
  { intros Ha.
    assert (Hh : hoare (fun m' => m' = m) (grows (trace m ++ [e]))
                       (fun _ => grows (trace m ++ [e])) (grows (trace m ++ [e]))
                       (skipTime eval loop fuel delta_t l)).
    { unfold skipTime. apply (hoare_bind _ _ (grows (trace m ++ [e]))).
      - intros m' ->. rewrite (checkCycleDurationSet_unset m Hd). cbv zeta.
        rewrite Ha. apply (grows_refl (with_event e m)).
      - intros _.
        repeat first [ apply inv_skipTime_loop; [|grows_side]
                     | inv_step grows_side ].
        apply grows_cycleInternal. }
    specialize (Hh m eq_refl).
    destruct (skipTime eval loop fuel delta_t l m); exact Hh. }
  split; [|split; [exact Hexit|]].
  - destruct (abort_on_first_error_ (driver m)) eqn:Ha.
    + rewrite (Hexit eq_refl). exists []. reflexivity.
    + destruct (Hrest eq_refl) as [ev Hev]. exists ev.
      rewrite Hev, <- app_assoc. reflexivity.
  - intros Ha. split; intros Hlt.
    + assert (Hcheck : checkCycleDurationSet m = Done tt (with_event e m)).
      { rewrite (checkCycleDurationSet_unset m Hd). cbv zeta. rewrite Ha. reflexivity. }
      destruct (skipTime_no_scan_cycle fuel delta_t l m _ Hlt Hcheck)
        as (ev & T & E & B & R & Hrun).
      exists ev. rewrite Hrun. cbn. rewrite <- app_assoc. auto.
    + assert (Hout : out_of_reach 0 delta_t).
      { intros i. rewrite Z.mul_0_r. exact Hlt. }
      pose proof (ticks_skipTime_out_of_reach fuel delta_t l 0 (ticks (trace m)) Hout m
                    (conj Hd eq_refl)) as Hticks.
      pose proof (diagnosed_skipTime fuel delta_t l m Logic.I) as Hdiag.
      pose proof (setup_skipTime _ fuel delta_t l m eq_refl) as Hs.
      destruct (skipTime eval loop fuel delta_t l m) as [x m1|code m1|m1].
      * destruct Hticks.
      * exfalso. destruct Hdiag as (_ & Ha' & _). unfold setup in Hs.
        injection Hs as _ _ Hab _ _ _ _. congruence.
      * exists m1. split; [reflexivity|exact Hticks].
Qed.

(** Property X5.  [skipTime] does not return when the time span is out
    of reach of the clock: for an infinite time span, and for a positive
    time span when the cycle duration is zero or negative.  Whatever the
    fuel, the call is not done; with abort-on-first-error off it is still
    running when the fuel is used up. *)
Theorem skipTime_never_returns_when_out_of_reach
        (fuel : nat) (delta_t : double) (l : list A) (m : Mach) :
  delta_t = PosInf \/
  (exists q, delta_t = Finite q /\ (0 < q)%Q /\ cycle_duration_ (driver m) <= 0) ->
  (forall m', skipTime eval loop fuel delta_t l m <> Done tt m') /\
  (abort_on_first_error_ (driver m) = false ->
   exists m', skipTime eval loop fuel delta_t l m = OutOfFuel m').
Proof.
  intros H.
  assert (Hout : out_of_reach (cycle_duration_ (driver m)) delta_t).
  { destruct H as [->|(q & -> & Hq & Hd)].
    - apply out_of_reach_infinity.
    - apply out_of_reach_backwards; assumption. }
  pose proof (skipTime_out_of_reach fuel delta_t l _ Hout m eq_refl) as Hnever.
  pose proof (diagnosed_skipTime fuel delta_t l m Logic.I) as Hd.
  pose proof (setup_skipTime _ fuel delta_t l m eq_refl) as Hs.
  destruct (skipTime eval loop fuel delta_t l m) as [x m1|code m1|m1].
  - destruct Hnever.
  - split; [discriminate|]. intros Ha. exfalso.
    destruct Hd as (_ & Ha' & _). unfold setup in Hs.
    injection Hs as _ _ Hab _ _ _ _. congruence.
  - split; [discriminate|]. eauto.
Qed.

(** ** The books of a scan cycle *)
Ltac books_side := unfold books; open_machine; subst; cbn in *;
  rewrite ?evaluated_app, ?errors_app, ?reports_delivered_app; cbn;
  repeat match goal with
         | H : errors _ = _ |- _ => rewrite H; clear H
         | H : evaluated _ = _ |- _ => rewrite H; clear H
         | H : reports_delivered _ = _ |- _ => rewrite H; clear H
         end;
  rewrite ?app_nil_r, ?Nat.add_0_r;
  try match goal with |- if ?b then _ else _ => destruct b end;
  solve [repeat split; auto].

(** The firmware sends the reports [rs] in this scan cycle. *)
Lemma hoare_loop_reports_list (P Q : Mach -> Prop) (QE : Z -> Mach -> Prop)
                              (QF : Mach -> Prop) (rs : list Report) (w' : Subject) :
  (forall m, P m -> loop (subject m) = (rs, w')) ->
  hoare P Q QE QF (bind (forM_ rs (KeyboardReportConsumer_processKeyboardReport eval))
                        (fun _ => set_subject w')) ->
  hoare P Q QE QF (loop_reports eval loop).
Proof.
  intros Hl H m Hm. specialize (H m Hm). unfold loop_reports.
  rewrite (Hl m Hm). exact H.
Qed.

(** Evaluating a list of assertions, from one predicate to another. *)
Lemma hoare_assertions (P Q : Mach -> Prop) (QE : Z -> Mach -> Prop) (QF : Mach -> Prop)
                       (l : list A) :
  (forall m ev, P m -> evaluation_of l ev ->
     Q (mkMachine
          (set_assertions_passed_
             (assertions_passed_ (driver m) && all_passed ev) (driver m))
          (subject m) (trace m ++ ev))) ->
  hoare P Q QE QF (processCycleAssertions eval l).
Proof.
  intros H m Hm. unfold processCycleAssertions.
  change (@processCycleAssertion A Report Subject eval)
    with (@processKeyboardReportAssertion A Report Subject eval).
  destruct (process_assertions_run l m) as (ev & Hev & Hrun).
  rewrite Hrun. auto.
Qed.

Section Books.
Variables (s : bool) (pr pc : list A).

Lemma books_report (q qc : list A) (o n : Z) (e : list A) (r : list ErrorMsg)
                   (c : nat) (w : Subject) (rep : Report) :
  hoare (books s pr pc q qc o n e r c w)
        (books s pr pc (tl q) qc (o + 1) (n + 1) (e ++ firstn 1 q ++ pr)
               (r ++ report_errors s 1 q) (S c) w)
        (fun _ _ => True) never_starves
        (KeyboardReportConsumer_processKeyboardReport eval rep).
Proof.
  unfold KeyboardReportConsumer_processKeyboardReport.
  apply (hoare_bind _ _ (books s pr pc q qc o n e r (S c) w)).
  { apply hoare_emit. unfold books. open_machine. subst. cbn in *.
    rewrite evaluated_app, errors_app, reports_delivered_app. cbn.
    rewrite !app_nil_r. repeat split; auto. lia. }
  intros _.
  apply hoare_report. unfold books. open_machine. subst. cbn in *.
  rewrite evaluated_app, errors_app, reports_delivered_app.
  repeat match goal with
         | H : evaluated ?ev = _ |- _ => rewrite H; clear H
         | H : errors ?ev = _ |- _ => rewrite H; clear H
         | H : reports_delivered ?ev = _ |- _ => rewrite H; clear H
         end.
  rewrite app_nil_r, Nat.add_0_r.
  match goal with |- if ?b then _ else _ => destruct b end;
    [exact Logic.I|repeat split; auto].
Qed.

Lemma skipn_S_tl (k : nat) (q : list A) : skipn (S k) q = skipn k (tl q).
Proof. destruct q; cbn; [rewrite skipn_nil|]; reflexivity. Qed.

Lemma books_reports (qc : list A) (w : Subject) (rs : list Report) :
  forall (q : list A) (o n : Z) (e : list A) (r : list ErrorMsg) (c : nat),
    hoare (books s pr pc q qc o n e r c w)
          (books s pr pc (skipn (length rs) q) qc
                 (o + Z.of_nat (length rs)) (n + Z.of_nat (length rs))
                 (e ++ report_evaluations pr (length rs) q)
                 (r ++ report_errors s (length rs) q) (c + length rs) w)
          (fun _ _ => True) never_starves
          (forM_ rs (KeyboardReportConsumer_processKeyboardReport eval)).
Proof.
  induction rs as [|rep rs IH]; intros q o n e r c.
  - apply hoare_ret. intros m Hm. cbn.
    rewrite !app_nil_r, !Z.add_0_r, Nat.add_0_r. exact Hm.
  - cbn [forM_].
    apply (hoare_bind _ _ (books s pr pc (tl q) qc (o + 1) (n + 1)
                                 (e ++ firstn 1 q ++ pr) (r ++ report_errors s 1 q)
                                 (S c) w)).
    + apply books_report.
    + intros _.
      eapply hoare_conseq;
        [apply (IH (tl q) (o + 1) (n + 1) (e ++ firstn 1 q ++ pr)
                   (r ++ report_errors s 1 q) (S c))| | | |]; auto.
      intros m Hm. cbn [length report_evaluations report_errors] in *.
      rewrite skipn_S_tl.
      replace (o + Z.of_nat (S (length rs))) with (o + 1 + Z.of_nat (length rs)) by lia.
      replace (n + Z.of_nat (S (length rs))) with (n + 1 + Z.of_nat (length rs)) by lia.
      replace (c + S (length rs))%nat with (S c + length rs)%nat by lia.
      rewrite app_nil_r in Hm. rewrite <- !app_assoc in Hm. exact Hm.
Qed.

(** The stop assertions of a scan cycle. *)
Lemma books_stop (q qc : list A) (o n : Z) (e : list A) (r : list ErrorMsg)
                 (c : nat) (w : Subject) (l : list A) :
  hoare (books s pr pc q qc o n e r c w) (books s pr pc q qc o n (e ++ l) r c w)
        (fun _ _ => True) never_starves
        (if negb (AssertionQueue.empty l) then
           bind (log (MsgProcessingOnStop (length l)))
                (fun _ => processCycleAssertions eval l)
         else ret tt).
Proof.
  destruct l as [|a l]; cbn [AssertionQueue.empty negb].
  - apply hoare_ret. intros m Hm. rewrite app_nil_r. exact Hm.
  - apply (hoare_bind _ _ (books s pr pc q qc o n e r c w));
      [inv_step books_side|intros _].
    apply hoare_assertions. books_side.
Qed.

(** One scan cycle in which the firmware sends the reports [rs]. *)
Lemma books_cycleInternal (q qc : list A) (o n : Z) (e : list A) (r : list ErrorMsg)
                          (c : nat) (w w' : Subject) (rs : list Report)
                          (l : list A) (olr : bool) :
  loop w = (rs, w') ->
  let k := length rs in
  hoare (books s pr pc q qc o n e r c w)
        (books s pr pc (skipn k q) [] (o + Z.of_nat k) (Z.of_nat k)
               (e ++ report_evaluations pr k q ++ l ++ qc ++ pc)
               (r ++ report_errors s k q) (c + k) w')
        (fun _ _ => True) never_starves
        (cycleInternal eval loop l olr).
Proof.
  intros Hloop k. unfold cycleInternal.
  apply (hoare_bind _ _ (books s pr pc q qc o n e r c w)); [inv_step books_side|intros _].
  apply (hoare_bind _ _ (books s pr pc q qc o 0 e r c w)); [inv_step books_side|intros _].
  apply (hoare_bind _ _ (books s pr pc q qc o 0 e r c w)); [inv_step books_side|intros d0].
  apply (hoare_bind _ _ (books s pr pc q qc o 0 e r c w));
    [repeat inv_step books_side|intros _].
  apply (hoare_bind _ _ (books s pr pc q qc o 0 e r c w)).
  { destruct l; cbn [AssertionQueue.empty forM_]; repeat inv_step books_side. }
  intros _.
  remember (e ++ report_evaluations pr k q) as e1 eqn:He1.
  remember (r ++ report_errors s k q) as r1 eqn:Hr1.
  remember (skipn k q) as q1 eqn:Hq1.
  remember (o + Z.of_nat k) as o1 eqn:Ho1.
  remember (Z.of_nat k) as n1 eqn:Hn1.
  remember (c + k)%nat as c1 eqn:Hc1.
  apply (hoare_bind _ _ (books s pr pc q1 qc o1 n1 e1 r1 c1 w')).
  { unfold run_loop.
    apply (hoare_bind _ _ (books s pr pc q qc o 0 e r c w)); [inv_step books_side|intros _].
    apply (hoare_loop_reports_list _ _ _ _ rs w').
    - intros m Hm. destruct Hm as (_ & _ & _ & _ & _ & _ & _ & _ & _ & _ & ->).
      exact Hloop.
    - apply (hoare_bind _ _ (books s pr pc q1 qc o1 n1 e1 r1 c1 w)).
      + subst.
        eapply hoare_conseq; [apply (books_reports qc w rs q o 0 e r c)| | | |]; auto.
      + intros _. intros m Hm. cbn. unfold books in *. cbn. tauto. }
  intros _. clear Hr1 Hq1 Ho1 Hn1 Hc1.
  apply (hoare_bind _ _ (books s pr pc q1 qc o1 n1 e1 r1 c1 w'));
    [inv_step books_side|intros d1].
  apply (hoare_bind _ _ (books s pr pc q1 qc o1 n1 e1 r1 c1 w'));
    [repeat inv_step books_side|intros _].
  apply (hoare_bind _ _ (books s pr pc q1 qc o1 n1 e1 r1 c1 w'));
    [inv_step books_side|intros _].
  apply (hoare_bind _ _ (books s pr pc q1 qc o1 n1 (e1 ++ l) r1 c1 w'));
    [apply books_stop|intros _].
  (* the queued cycle assertions *)
  apply (hoare_read_fact _ _ _ _ (fun d => queued_cycle_assertions_ d = qc)).
  { intros m Hm. destruct Hm as (_ & _ & _ & _ & _ & H & _). exact H. }
  intros d2 ->.
  apply (hoare_bind _ _ (books s pr pc q1 [] o1 n1 ((e1 ++ l) ++ qc) r1 c1 w')).
  { destruct qc as [|a qc]; cbn [AssertionQueue.empty negb].
    - apply hoare_ret. intros m Hm. rewrite app_nil_r. exact Hm.
    - apply (hoare_bind _ _ (books s pr pc q1 (a :: qc) o1 n1 (e1 ++ l) r1 c1 w'));
        [inv_step books_side|intros _].
      apply (hoare_bind _ _ (books s pr pc q1 (a :: qc) o1 n1
                                   ((e1 ++ l) ++ a :: qc) r1 c1 w')).
      + apply hoare_assertions. books_side.
      + intros _. apply hoare_modify. books_side. }
  intros _.
  (* the permanent cycle assertions *)
  apply (hoare_read_fact _ _ _ _ (fun d => permanent_cycle_assertions_ d = pc)).
  { intros m Hm. destruct Hm as (_ & _ & _ & _ & _ & _ & H & _). exact H. }
  intros d3 Hd3. rewrite Hd3.
  apply (hoare_conseq _ (books s pr pc q1 [] o1 n1 ((e1 ++ l) ++ qc) r1 c1 w')
                      _ (books s pr pc q1 [] o1 n1 (((e1 ++ l) ++ qc) ++ pc) r1 c1 w')
                      _ (fun _ _ => True) _ never_starves); auto.
  2:{ intros m Hm. subst e1. rewrite <- !app_assoc in Hm. exact Hm. }
  destruct pc as [|a pc'] eqn:Hpc; cbn [AssertionQueue.empty negb].
  - apply hoare_ret. intros m Hm. rewrite app_nil_r. exact Hm.
  - apply (hoare_bind _ _ (books s pr (a :: pc') q1 [] o1 n1 ((e1 ++ l) ++ qc) r1 c1 w'));
      [inv_step books_side|intros _].
    apply hoare_assertions. books_side.
Qed.
End Books.

Lemma books_now (m : Mach) :
  books (error_if_report_without_queued_assertions_ (driver m))
        (permanent_keyboard_report_assertions_ (driver m))
        (permanent_cycle_assertions_ (driver m))
        (queued_keyboard_report_assertions_ (driver m))
        (queued_cycle_assertions_ (driver m))
        (n_overall_keyboard_reports_ (driver m))
        (n_keyboard_reports_in_cycle_ (driver m))
        (evaluated (trace m)) (errors (trace m)) (reports_delivered (trace m))
        (subject m) m.
Proof. repeat split. Qed.

(** The books after a scan cycle that returned. *)
Lemma books_after_cycleInternal (l : list A) (olr : bool) (m m' : Mach) :
  cycleInternal eval loop l olr m = Done tt m' ->
  let k := length (fst (loop (subject m))) in
  books (error_if_report_without_queued_assertions_ (driver m))
        (permanent_keyboard_report_assertions_ (driver m))
        (permanent_cycle_assertions_ (driver m))
        (skipn k (queued_keyboard_report_assertions_ (driver m))) []
        (n_overall_keyboard_reports_ (driver m) + Z.of_nat k) (Z.of_nat k)
        (evaluated (trace m)
         ++ report_evaluations (permanent_keyboard_report_assertions_ (driver m)) k
                               (queued_keyboard_report_assertions_ (driver m))
         ++ l ++ queued_cycle_assertions_ (driver m)
         ++ permanent_cycle_assertions_ (driver m))
        (errors (trace m)
         ++ report_errors (error_if_report_without_queued_assertions_ (driver m)) k
                          (queued_keyboard_report_assertions_ (driver m)))
        (reports_delivered (trace m) + k)
        (snd (loop (subject m))) m'.
Proof.
  intros Hrun. destruct (loop (subject m)) as [rs w'] eqn:Hloop. cbn [fst snd].
  pose proof (books_cycleInternal _ _ _ _ _ _ _ _ _ _ _ w' rs l olr Hloop m (books_now m))
    as H.
  rewrite Hrun in H. exact H.
Qed.

(** What a scan cycle appended to the trace. *)
Lemma appended_by_cycleInternal (l : list A) (olr : bool) (m : Mach) :
  exists ev, trace (machine_of (cycleInternal eval loop l olr m)) = trace m ++ ev.
Proof.
  pose proof (grows_cycleInternal (trace m) l olr m (grows_refl m)) as Hg.
  destruct (cycleInternal eval loop l olr m); exact Hg.
Qed.

(** Property X6.  A scan cycle that returns has evaluated, in this order:
    for each report of the cycle the front of the queue of report
    assertions (if any is left) and then the permanent report assertions;
    the assertions passed to the cycle; the queued cycle assertions; the
    permanent cycle assertions.  Afterwards the queue of report assertions
    has lost one entry per report, the queued cycle assertions are cleared
    and the firmware is in its next state. *)
Theorem scan_cycle_evaluation_order (l : list A) (olr : bool) (m m' : Mach) :
  cycleInternal eval loop l olr m = Done tt m' ->
  let k := length (fst (loop (subject m))) in
  exists ev,
    trace m' = trace m ++ ev /\
    evaluated ev =
      report_evaluations (permanent_keyboard_report_assertions_ (driver m)) k
                         (queued_keyboard_report_assertions_ (driver m))
      ++ l ++ queued_cycle_assertions_ (driver m)
      ++ permanent_cycle_assertions_ (driver m) /\
    queued_keyboard_report_assertions_ (driver m')
    = skipn k (queued_keyboard_report_assertions_ (driver m)) /\
    queued_cycle_assertions_ (driver m') = [] /\
    subject m' = snd (loop (subject m)).
Proof.
  intros Hrun k.
  pose proof (books_after_cycleInternal l olr m m' Hrun) as H. cbv zeta in H. fold k in H.
  destruct (appended_by_cycleInternal l olr m) as [ev Hev]. rewrite Hrun in Hev.
  cbn in Hev. exists ev. split; [exact Hev|].
  destruct H as (_ & _ & _ & Hq & _ & Hqc & _ & _ & _ & He & Hw).
  rewrite Hev, evaluated_app in He. apply app_inv_head in He. auto.
Qed.

(** Property X7.  After a scan cycle that returns, the per-cycle report
    counter is the number of reports the firmware sent in this cycle, the
    overall report counter has grown by that number, and the report
    consumer has written its line to [std::cout] once per report. *)
Theorem report_counters_count_the_reports_of_a_cycle
        (l : list A) (olr : bool) (m m' : Mach) :
  cycleInternal eval loop l olr m = Done tt m' ->
  let k := length (fst (loop (subject m))) in
  n_keyboard_reports_in_cycle_ (driver m') = Z.of_nat k /\
  n_overall_keyboard_reports_ (driver m')
  = n_overall_keyboard_reports_ (driver m) + Z.of_nat k /\
  reports_delivered (trace m') = (reports_delivered (trace m) + k)%nat.
Proof.
  intros Hrun k.
  pose proof (books_after_cycleInternal l olr m m' Hrun) as H. cbv zeta in H. fold k in H.
  destruct H as (_ & _ & Hc & _ & _ & _ & _ & Ho & Hn & _). auto.
Qed.

Lemma report_errors_closed (s : bool) (k : nat) :
  forall q : list A,
    report_errors s k q
    = if s then repeat ErrReportWithoutQueued (k - length q) else [].
Proof.
  induction k as [|k IH]; intros q.
  - destruct s; reflexivity.
  - cbn [report_errors]. rewrite IH. destruct q as [|a q], s; cbn; try reflexivity.
    rewrite Nat.sub_0_r. reflexivity.
Qed.

(** Property X8.  A scan cycle that returns has reported exactly one
    "report without queued assertions" error for every report beyond the
    length of the queue when the Driver is in strict mode, and no error at
    all when it is not. *)
Theorem strict_mode_reports_each_report_beyond_the_queue
        (l : list A) (olr : bool) (m m' : Mach) :
  cycleInternal eval loop l olr m = Done tt m' ->
  let k := length (fst (loop (subject m))) in
  let unexpected :=
    (k - length (queued_keyboard_report_assertions_ (driver m)))%nat in
  exists ev,
    trace m' = trace m ++ ev /\
    errors ev =
      (if error_if_report_without_queued_assertions_ (driver m)
       then repeat ErrReportWithoutQueued unexpected else []).
Proof.
  intros Hrun k unexpected.
  pose proof (books_after_cycleInternal l olr m m' Hrun) as H. cbv zeta in H. fold k in H.
  destruct (appended_by_cycleInternal l olr m) as [ev Hev]. rewrite Hrun in Hev.
  cbn in Hev. exists ev. split; [exact Hev|].
  destruct H as (_ & He & _).
  rewrite Hev, errors_app, report_errors_closed in He. apply app_inv_head in He.
  exact He.
Qed.

(** ** The schedule of [cycles] *)
Lemma report_evaluations_nothing (k : nat) : report_evaluations (@nil A) k [] = [].
Proof. induction k as [|k IH]; [reflexivity|]. cbn. exact IH. Qed.

Lemma schedule_cycleInternal (e b : list A) (l : list A) (olr : bool) :
  hoare (schedule e b) (schedule (e ++ l) b) (fun _ _ => True) never_starves
        (cycleInternal eval loop l olr).
Proof.
  intros m ((Hq & Hpr & Hqc & Hpc) & He & Hb).
  pose proof (bound_cycleInternal b l olr m Hb) as Hbound.
  pose proof (exit_cycleInternal l olr m Logic.I) as Hexit.
  destruct (cycleInternal eval loop l olr m) as [[] m'|code m'|m'] eqn:Hrun;
    [|exact Logic.I|exact Hexit].
  pose proof (books_after_cycleInternal l olr m m' Hrun) as H. cbv zeta in H.
  rewrite Hq, Hpr, Hqc, Hpc, He in H.
  destruct H as (_ & _ & _ & Hq' & Hpr' & Hqc' & Hpc' & _ & _ & He' & _).
  rewrite skipn_nil in Hq'. rewrite report_evaluations_nothing in He'.
  cbn in He'. rewrite app_nil_r in He'.
  repeat split; assumption.
Qed.

Lemma schedule_cycles_loop (l : list A) (n : nat) :
  forall e b : list A,
    hoare (schedule e b) (schedule (e ++ concat (repeat l n)) b)
          (fun _ _ => True) never_starves (cycles_loop eval loop n l).
Proof.
  unfold cycles_loop. induction n as [|n IH]; intros e b.
  - apply hoare_ret. intros m Hm. cbn. rewrite app_nil_r. exact Hm.
  - cbn [repeatM repeat concat].
    apply (hoare_bind _ _ (schedule (e ++ l) b)); [apply schedule_cycleInternal|].
    intros _. rewrite app_assoc. apply IH.
Qed.

Ltac schedule_side := unfold schedule, no_assertions; open_machine; subst; cbn in *;
  rewrite ?evaluated_app, ?bound_app; cbn; rewrite ?app_nil_r;
  solve [repeat split; auto].

Lemma schedule_bind (e b : list A) (l : list A) :
  hoare (@schedule A Report Subject e b) (schedule e (b ++ l))
        (fun _ _ => True) never_starves
        (if negb (AssertionQueue.empty l) then forM_ l (@setDriver A Report Subject)
         else ret tt).
Proof.
  rewrite bind_if_not_empty. intros m (Hn & He & Hb). rewrite bind_assertions_run.
  destruct (binding_events l) as (Bb & _ & Eb & _).
  unfold schedule. cbn. rewrite evaluated_app, bound_app, Bb, Eb, app_nil_r, He, Hb.
  auto.
Qed.

Lemma schedule_stop (e b : list A) (l : list A) :
  hoare (@schedule A Report Subject e b) (schedule (e ++ l) b)
        (fun _ _ => True) never_starves
        (if negb (AssertionQueue.empty l) then
           bind (log (MsgProcessingOnStop (length l)))
                (fun _ => processCycleAssertions eval l)
         else ret tt).
Proof.
  intros m (Hn & He & Hb).
  destruct (stop_assertions_run l m) as (ev & E & _ & B & _ & Hrun). rewrite Hrun.
  unfold schedule. cbn. rewrite evaluated_app, bound_app, E, B, app_nil_r, He, Hb.
  auto.
Qed.

Lemma schedule_cycles (n : Z) (on_stop l : list A) (e b : list A) (dflt : Z) :
  let n' := Z.to_nat (if n =? 0 then dflt else n) in
  hoare (fun m => schedule e b m /\ scan_cycles_default_count_ (driver m) = dflt)
        (schedule ((e ++ concat (repeat l n')) ++ on_stop) (b ++ on_stop))
        (fun _ _ => True) never_starves
        (cycles eval loop n on_stop l).
Proof.
  intros n'. unfold cycles.
  apply (hoare_read_fact _ _ _ _ (fun d0 => scan_cycles_default_count_ d0 = dflt)).
  { intros m [_ H]. exact H. }
  intros d0 ->. fold n'.
  apply (hoare_pre _ (schedule e b)); [intros m [H _]; exact H|].
  apply (hoare_bind _ _ (schedule e b)); [apply hoare_log; schedule_side|intros _].
  apply (hoare_bind _ _ (schedule e (b ++ on_stop))); [apply schedule_bind|intros _].
  apply (hoare_bind _ _ (schedule (e ++ concat (repeat l n')) (b ++ on_stop)));
    [apply schedule_cycles_loop|intros _].
  apply (hoare_bind _ _ (schedule ((e ++ concat (repeat l n')) ++ on_stop)
                                  (b ++ on_stop)));
    [apply schedule_stop|intros _].
  apply hoare_log. schedule_side.
Qed.

Lemma grows_cycles (tr0 : list Ev) (n : Z) (on_stop l : list A) :
  hoare (grows tr0) (grows tr0) (fun _ => grows tr0) (grows tr0)
        (cycles eval loop n on_stop l).
Proof.
  unfold cycles, cycles_loop. repeat inv_step grows_side. apply grows_cycleInternal.
Qed.

(** Property X9.  On a Driver with no assertion registered, a call of
    [cycles] that returns has run the scheduled number of scan cycles,
    evaluated the cycle assertions of the call once after every scan cycle
    and the stop assertions once after the last, and bound the stop
    assertions only: the cycle assertions are evaluated without having
    been bound. *)
Theorem cycles_schedule_of_cycle_and_stop_assertions
        (n : Z) (on_stop l : list A) (m m' : Mach) :
  no_assertions (driver m) ->
  cycles eval loop n on_stop l m = Done tt m' ->
  let n' := Z.to_nat (if n =? 0 then scan_cycles_default_count_ (driver m) else n) in
  exists ev,
    trace m' = trace m ++ ev /\
    evaluated ev = concat (repeat l n') ++ on_stop /\
    bound ev = on_stop /\
    ticks ev = n' /\
    no_assertions (driver m').
Proof.
  intros Hn Hrun n'.
  pose proof (schedule_cycles n on_stop l _ _ _ m
                (conj (conj Hn (conj eq_refl eq_refl)) eq_refl)) as H.
  pose proof (grows_cycles (trace m) n on_stop l m (grows_refl m)) as Hg.
  pose proof (clock_cycles n on_stop l _ _ _ _ _ m (conj (clock_now m) eq_refl)) as Hc.
  cbv zeta in H, Hc. fold n' in H, Hc. rewrite Hrun in H, Hg, Hc.
  destruct Hg as [ev Hev]. destruct H as (Hn' & He & Hb). destruct Hc as (_ & _ & Hk & _).
  exists ev. split; [exact Hev|].
  rewrite Hev, evaluated_app, <- app_assoc in He. apply app_inv_head in He.
  rewrite Hev, bound_app in Hb. apply app_inv_head in Hb.
  rewrite Hev, ticks_app in Hk.
  split; [exact He|split; [exact Hb|split; [lia|exact Hn']]].
Qed.

Lemma clock_exit_free {X} (P Q : Mach -> Prop) (QE : Z -> Mach -> Prop) (c : M X) :
  hoare P Q QE never_starves c -> hoare P Q (fun _ _ => True) never_starves c.
Proof. intros H. eapply hoare_conseq; [exact H| | | |]; auto. Qed.

(** ** The clock of [cycle] and [cycles] *)
Lemma clock_cycle (l : list A) (c t : Z) (k : nat) (d : Z) :
  hoare (clock c t k d) (clock (c + 1) (t + d) (S k) d)
        (fun _ _ => True) never_starves (cycle eval loop l).
Proof.
  unfold cycle.
  apply (hoare_bind _ _ (clock c t k d)); [inv_step clock_side|intros _].
  apply (hoare_bind _ _ (clock (c + 1) (t + d) (S k) d)).
  { apply clock_exit_free with (QE := fun _ => clock (c + 1) t (S k) d).
    apply clock_cycleInternal. }
  intros _. inv_step clock_side.
Qed.

(** Property X11.  [cycle], when it returns, has run one scan cycle and
    advanced the cycle id by one and the time by the cycle duration;
    [cycles], when it returns, has advanced the time by the cycle duration
    times the number of scan cycles it was asked for. *)
Theorem simulated_time_advances_by_the_cycle_duration (m m' : Mach) :
  (forall l,
     cycle eval loop l m = Done tt m' ->
     time_ (driver m') = time_ (driver m) + cycle_duration_ (driver m) /\
     cycle_id_ (driver m') = cycle_id_ (driver m) + 1 /\
     ticks (trace m') = S (ticks (trace m))) /\
  (forall n on_stop l,
     cycles eval loop n on_stop l m = Done tt m' ->
     let n' := Z.to_nat (if n =? 0 then scan_cycles_default_count_ (driver m) else n) in
     time_ (driver m')
     = time_ (driver m) + Z.of_nat n' * cycle_duration_ (driver m)).
Proof.
  split.
  - intros l Hrun. pose proof (clock_cycle l _ _ _ _ m (clock_now m)) as H.
    rewrite Hrun in H. destruct H as (Hc & Ht & Hk & _). auto.
  - intros n on_stop l Hrun n'.
    pose proof (clock_cycles n on_stop l _ _ _ _ _ m (conj (clock_now m) eq_refl)) as H.
    cbv zeta in H. rewrite Hrun in H. destruct H as (_ & Ht & _). exact Ht.
Qed.

(** ** A time span that is not a number *)

(** Property X12.  A time span that is not a number skips nothing: the
    comparison with the elapsed time is false, so [skipTime] runs no scan
    cycle, whatever the fuel; it binds and evaluates the stop assertions
    and returns with the time and the cycle id unchanged (unless the cycle
    duration is 0 and abort-on-first-error is set). *)
Theorem skipTime_of_nan_runs_no_cycle (fuel : nat) (l : list A) (m : Mach) :
  cycle_duration_ (driver m) <> 0 \/ abort_on_first_error_ (driver m) = false ->
  exists m' ev,
    skipTime eval loop fuel NaN l m = Done tt m' /\
    trace m' = trace m ++ ev /\
    ticks ev = O /\ evaluated ev = l /\ bound ev = l /\
    time_ (driver m') = time_ (driver m) /\
    cycle_id_ (driver m') = cycle_id_ (driver m).
Proof.
  intros Hok.
  assert (Hlt : Double.ltb (Double.of_int 0) NaN = false) by reflexivity.
  destruct (Z.eq_dec (cycle_duration_ (driver m)) 0) as [Hd|Hd].
  - destruct Hok as [Hok|Ha]; [contradiction|].
    pose proof (checkCycleDurationSet_unset m Hd) as Hcheck.
    cbv zeta in Hcheck. rewrite Ha in Hcheck.
    destruct (skipTime_no_scan_cycle fuel NaN l m _ Hlt Hcheck)
      as (ev & T & E & B & R & Hrun).
    eexists _, (EvError (time_ (driver m)) (cycle_id_ (driver m))
                        ErrCycleDurationNotSet :: ev).
    split; [exact Hrun|]. cbn. rewrite <- app_assoc. auto 10.
  - pose proof (checkCycleDurationSet_set m Hd) as Hcheck.
    destruct (skipTime_no_scan_cycle fuel NaN l m _ Hlt Hcheck)
      as (ev & T & E & B & R & Hrun).
    eexists _, ev. split; [exact Hrun|]. cbn. auto 10.
Qed.

(** ** The assertions a run of scan cycles evaluates *)
Lemma ran_nothing (l : list A) (m : Mach) : ran loop l 0 m m.
Proof. split; [lia|]. cbn. symmetry. apply app_nil_r. Qed.

Lemma ran_step (l : list A) (olr : bool) (j : nat) (m m1 m' : Mach) :
  cycleInternal eval loop l olr m = Done tt m1 ->
  ran loop l j m1 m' -> ran loop l (S j) m m'.
Proof.
  intros Hrun [Hk He].
  pose proof (books_after_cycleInternal l olr m m1 Hrun) as H. cbv zeta in H.
  destruct H as (_ & _ & _ & Hq & Hpr & Hqc & Hpc & _ & _ & He1 & Hw).
  pose proof (clock_cycleInternal _ _ _ _ l olr m (clock_now m)) as Hc.
  rewrite Hrun in Hc. destruct Hc as (_ & _ & Hk1 & _).
  split; [lia|].
  rewrite He, He1, Hq, Hpr, Hqc, Hpc, Hw. cbn [cycles_evaluations].
  rewrite <- !app_assoc. reflexivity.
Qed.

Lemma ran_cycles_loop (l : list A) (n : nat) :
  forall m m' : Mach, cycles_loop eval loop n l m = Done tt m' -> ran loop l n m m'.
Proof.
  unfold cycles_loop. induction n as [|n IH]; intros m m' Hrun.
  - cbn in Hrun. injection Hrun as <-. apply ran_nothing.
  - cbn [repeatM] in Hrun. unfold bind in Hrun.
    destruct (cycleInternal eval loop l true m) as [[] m1| |] eqn:Htick;
      try discriminate Hrun.
    apply (ran_step l true n m m1 m' Htick). apply IH. exact Hrun.
Qed.

Lemma ran_skipTime_loop (delta_t : double) (start : Z) (fuel : nat) :
  forall (elapsed : double) (m m' : Mach) (x : double),
    skipTime_loop eval loop fuel delta_t start elapsed m = Done x m' ->
    exists j, ran loop [] j m m'.
Proof.
  induction fuel as [|fuel IH]; intros elapsed m m' x Hrun;
    rewrite skipTime_loop_unfold in Hrun;
    destruct (Double.ltb elapsed delta_t).
  - discriminate Hrun.
  - injection Hrun as _ <-. exists O. apply ran_nothing.
  - unfold bind at 1 in Hrun.
    destruct (cycleInternal eval loop [] true m) as [[] m1| |] eqn:Htick;
      try discriminate Hrun.
    unfold bind, get_driver in Hrun. destruct (IH _ _ _ _ Hrun) as [j Hj].
    exists (S j). apply (ran_step [] true j m m1 m' Htick Hj).
  - injection Hrun as _ <-. exists O. apply ran_nothing.
Qed.

(** A run from a state that differs from [m] in events that are neither
    scan cycles nor evaluations. *)
Lemma ran_from (l : list A) (j : nat) (m m0 m' : Mach) (ev : list Ev) :
  driver m0 = driver m -> subject m0 = subject m -> trace m0 = trace m ++ ev ->
  ticks ev = O -> evaluated ev = [] ->
  ran loop l j m0 m' -> ran loop l j m m'.
Proof.
  intros Hd Hw Ht Tk Ee [Hk He]. unfold ran.
  rewrite Hd, Hw, Ht, ticks_app, Tk in *. rewrite evaluated_app, Ee, app_nil_r in He.
  split; [lia|exact He].
Qed.

(** The steps of [cycles] in front of its loop. *)
Lemma cycles_unfold (n : Z) (on_stop l : list A) (m : Mach) :
  let n' := if n =? 0 then scan_cycles_default_count_ (driver m) else n in
  let m0 := mkMachine (driver m) (subject m)
              (trace m ++ EvLog (time_ (driver m)) (cycle_id_ (driver m))
                                (MsgRunningCycles n') :: map EvSetDriver on_stop) in
  cycles eval loop n on_stop l m =
  bind (cycles_loop eval loop (Z.to_nat n') l)
       (fun _ => bind (if negb (AssertionQueue.empty on_stop) then
                         bind (log (MsgProcessingOnStop (length on_stop)))
                              (fun _ => processCycleAssertions eval on_stop)
                       else ret tt)
                      (fun _ => log MsgNewline)) m0.
Proof.
  intros n' m0. unfold cycles. rewrite bind_if_not_empty.
  unfold bind at 1. unfold get_driver at 1. fold n'.
  unfold bind at 1. unfold log at 1, bind at 1, get_driver at 1, emit at 1.
  unfold bind at 1. rewrite bind_assertions_run. cbn [driver subject trace].
  rewrite <- app_assoc. reflexivity.
Qed.

Lemma bound_cycles_loop (b : list A) (n : nat) (l : list A) :
  hoare (fun m : Mach => bound (trace m) = b) (fun m => bound (trace m) = b)
        (fun _ m => bound (trace m) = b) (fun m => bound (trace m) = b)
        (cycles_loop eval loop n l).
Proof. apply hoare_repeatM, bound_cycleInternal. Qed.

(** ** The state the stop assertions see *)
Lemma evaluated_at_more (a : A) (dx : Driver) (tr1 ev : list Ev) (m m' : Mach) :
  evaluated_at eval a dx tr1 m -> trace m' = trace m ++ ev ->
  evaluated_at eval a dx tr1 m'.
Proof.
  intros (tr2 & Ht) H. exists (tr2 ++ ev).
  rewrite H, Ht, <- app_assoc. reflexivity.
Qed.

Ltac evaluated_at_side := cbv zeta; intros;
  try match goal with |- if ?b then _ else _ => destruct b end;
  solve [ exact Logic.I
        | assumption
        | eapply evaluated_at_more; [eassumption|cbn; reflexivity]
        | eapply evaluated_at_more; [eassumption|cbn; symmetry; apply app_nil_r] ].

(** The stop assertions [a :: l] are evaluated: [a] on the Driver as it is
    now, right after the line that announces them. *)
Lemma evaluated_at_stop (a : A) (l : list A) (size : nat) (m1 : Mach) :
  hoare (fun m => m = m1)
        (evaluated_at eval a (driver m1)
           (trace m1 ++ [EvLog (time_ (driver m1)) (cycle_id_ (driver m1))
                               (MsgProcessingOnStop size)]))
        (fun _ _ => True) never_starves
        (bind (log (MsgProcessingOnStop size))
              (fun _ => processCycleAssertions eval (a :: l))).
Proof.
  apply (hoare_bind _ _ (fun m => m = with_event
                                       (EvLog (time_ (driver m1)) (cycle_id_ (driver m1))
                                              (MsgProcessingOnStop size)) m1)).
  { apply hoare_log. intros m ->. reflexivity. }
  intros _. unfold processCycleAssertions. cbn [forM_].
  change (@processCycleAssertion A Report Subject eval)
    with (@processKeyboardReportAssertion A Report Subject eval).
  apply (hoare_bind _ _ (evaluated_at eval a (driver m1)
           (trace m1 ++ [EvLog (time_ (driver m1)) (cycle_id_ (driver m1))
                               (MsgProcessingOnStop size)]))).
  - intros m ->. rewrite processKeyboardReportAssertion_run.
    eexists. cbn. reflexivity.
  - intros _. apply inv_assertions. evaluated_at_side.
Qed.

(** Property X10.  The first stop assertion of [cycles] is evaluated on
    the Driver as it is after the last scan cycle of the call, and the
    call has bound it to the Driver before: the events of the call show
    the binding of the stop assertions and all scan cycles of the call,
    and then the evaluation of the assertion on a Driver whose cycle id
    and time have advanced by the number of scan cycles and that many
    cycle durations. *)
Theorem stop_assertions_see_the_state_after_the_last_cycle
        (n : Z) (a : A) (l cyc : list A) (m m' : Mach) :
  cycles eval loop n (a :: l) cyc m = Done tt m' ->
  let n' := Z.to_nat (if n =? 0 then scan_cycles_default_count_ (driver m) else n) in
  exists dx ev1 tr2,
    trace m' = trace m ++ ev1 ++ EvEval a (eval a dx) :: tr2 /\
    bound ev1 = a :: l /\
    ticks ev1 = n' /\
    cycle_id_ dx = cycle_id_ (driver m) + Z.of_nat n' /\
    time_ dx = time_ (driver m) + Z.of_nat n' * cycle_duration_ (driver m).
Proof.
  intros Hrun n'. rewrite cycles_unfold in Hrun. cbv zeta in Hrun.
  fold n' in Hrun.
  remember (EvLog (time_ (driver m)) (cycle_id_ (driver m))
                  (MsgRunningCycles
                     (if n =? 0 then scan_cycles_default_count_ (driver m) else n))
            :: map EvSetDriver (a :: l)) as ev0 eqn:Hev0.
  set (m0 := mkMachine (driver m) (subject m) (trace m ++ ev0)) in Hrun.
  assert (Hb0 : bound ev0 = a :: l /\ ticks ev0 = O).
  { destruct (binding_events (a :: l)) as (B & T & _). subst ev0.
    cbn [bound ticks]. split; [exact B|exact T]. }
  destruct Hb0 as [Hb0 Ht0].
  pose proof (clock_cycles_loop n' cyc _ _ _ _ m0 (clock_now m0)) as Hclock.
  pose proof (hoare_repeatM _ _ _ n' _ (grows_cycleInternal (trace m0) cyc true)
                m0 (grows_refl m0)) as Hgrows.
  pose proof (bound_cycles_loop (bound (trace m0)) n' cyc m0 eq_refl) as Hbound.
  unfold bind at 1 in Hrun. fold (cycles_loop eval loop n' cyc) in Hgrows.
  destruct (cycles_loop eval loop n' cyc m0) as [x m1|code m1|m1];
    [|discriminate Hrun|discriminate Hrun].
  destruct Hclock as (Hc & Htm & Hk & _). destruct Hgrows as [ev Hev].
  cbn [AssertionQueue.empty negb] in Hrun.
  assert (Hstop : hoare (fun m2 => m2 = m1)
                    (evaluated_at eval a (driver m1)
                       (trace m1 ++ [EvLog (time_ (driver m1)) (cycle_id_ (driver m1))
                                           (MsgProcessingOnStop (length (a :: l)))]))
                    (fun _ _ => True) never_starves
                    (bind (bind (log (MsgProcessingOnStop (length (a :: l))))
                                (fun _ => processCycleAssertions eval (a :: l)))
                          (fun _ => log MsgNewline))).
  { eapply hoare_bind; [apply evaluated_at_stop|intros _].
    inv_step evaluated_at_side. }
  specialize (Hstop m1 eq_refl). rewrite Hrun in Hstop. destruct Hstop as [tr2 Htr].
  exists (driver m1),
         (ev0 ++ ev ++ [EvLog (time_ (driver m1)) (cycle_id_ (driver m1))
                              (MsgProcessingOnStop (length (a :: l)))]),
         tr2.
  cbn [driver trace m0] in *.
  rewrite Hev, !bound_app in Hbound. rewrite <- app_assoc in Hbound.
  apply app_inv_head in Hbound. rewrite Hb0 in Hbound.
  rewrite <- (app_nil_r (a :: l)) in Hbound at 2. apply app_inv_head in Hbound.
  rewrite Hev, !ticks_app, Ht0 in Hk.
  split; [rewrite Htr, Hev, <- !app_assoc; reflexivity|].
  split; [rewrite !bound_app, Hb0, Hbound; cbn; rewrite !app_nil_r; reflexivity|].
  split; [rewrite !ticks_app, Ht0; cbn; lia|].
  split; assumption.
Qed.

(** Property X13.  A call of [cycles] that returns has run the scheduled
    number of scan cycles, bound exactly its stop assertions and evaluated
    what these scan cycles evaluate, one after the other (the reports
    consume the queue of report assertions across the cycles, the queued
    cycle assertions are evaluated in the first cycle only, the cycle
    assertions of the call and the permanent ones in every cycle),
    followed by the stop assertions. *)
Theorem cycles_evaluates_what_its_scan_cycles_evaluate
        (n : Z) (on_stop l : list A) (m m' : Mach) :
  cycles eval loop n on_stop l m = Done tt m' ->
  let n' := Z.to_nat (if n =? 0 then scan_cycles_default_count_ (driver m) else n) in
  exists ev,
    trace m' = trace m ++ ev /\
    ticks ev = n' /\
    bound ev = on_stop /\
    evaluated ev =
      cycles_evaluations loop
        (permanent_keyboard_report_assertions_ (driver m))
        (permanent_cycle_assertions_ (driver m)) l n'
        (queued_keyboard_report_assertions_ (driver m))
        (queued_cycle_assertions_ (driver m)) (subject m)
      ++ on_stop.
Proof.
  intros Hrun n'. rewrite cycles_unfold in Hrun. cbv zeta in Hrun. fold n' in Hrun.
  unfold bind at 1 in Hrun.
  destruct (binding_events on_stop) as (Bb & Tb & Eb & _).
  match type of Hrun with
  | context [trace m ++ ?e :: map EvSetDriver on_stop] =>
      set (pre := e :: map EvSetDriver on_stop) in *
  end.
  assert (Tp : ticks pre = O) by (unfold pre; cbn; exact Tb).
  assert (Ep : evaluated pre = []) by (unfold pre; cbn; exact Eb).
  assert (Bp : bound pre = on_stop) by (unfold pre; cbn; exact Bb).
  clearbody pre.
  set (m0 := mkMachine (driver m) (subject m) (trace m ++ pre)) in *.
  destruct (cycles_loop eval loop n' l m0) as [[] m1| |] eqn:Hloop; try discriminate Hrun.
  pose proof (ran_cycles_loop l n' m0 m1 Hloop) as Hran.
  pose proof (bound_cycles_loop _ n' l m0 eq_refl) as Hb. rewrite Hloop in Hb.
  assert (Hg1 : grows (trace m0) m1).
  { pose proof (hoare_repeatM _ _ _ n' _ (grows_cycleInternal (trace m0) l true) m0
                  (grows_refl m0)) as H.
    unfold cycles_loop in Hloop. rewrite Hloop in H. exact H. }
  apply (ran_from l n' m m0 m1 pre eq_refl eq_refl eq_refl Tp Ep) in Hran.
  destruct Hran as [Hk He]. destruct Hg1 as [ev1 Hev1]. cbn [trace m0] in Hev1, Hb.
  unfold bind at 1 in Hrun.
  destruct (stop_assertions_run on_stop m1) as (ev2 & E2 & T2 & B2 & _ & Hstop).
  rewrite Hstop in Hrun. unfold log, bind, get_driver, emit in Hrun. cbn in Hrun.
  injection Hrun as <-. cbn [trace].
  rewrite Hev1 in *.
  rewrite !ticks_app, Tp in Hk.
  rewrite !evaluated_app, Ep, app_nil_r in He. apply app_inv_head in He.
  rewrite !bound_app, Bp, <- app_assoc in Hb. apply app_inv_head in Hb.
  assert (Hb1 : bound ev1 = []).
  { apply (app_inv_head on_stop). rewrite app_nil_r. exact Hb. }
  exists (pre ++ ev1 ++ ev2 ++ [EvLog (time_ (driver m1)) (cycle_id_ (driver m1)) MsgNewline]).
  rewrite !ticks_app, !bound_app, !evaluated_app, Tp, Bp, Ep, T2, B2, E2, Hb1, He.
  cbn. rewrite !app_nil_r, <- !app_assoc.
  split; [reflexivity|]. split; [lia|]. split; reflexivity.
Qed.

(** The check of the cycle duration, when it returns: it changed nothing
    and appended at most its error. *)
Lemma checkCycleDurationSet_done (m m0 : Mach) :
  checkCycleDurationSet m = Done tt m0 ->
  driver m0 = driver m /\ subject m0 = subject m /\
  exists pre, trace m0 = trace m ++ pre /\
              ticks pre = O /\ evaluated pre = [] /\ bound pre = [].
Proof.
  intros H. destruct (Z.eq_dec (cycle_duration_ (driver m)) 0) as [Hd|Hd].
  - rewrite (checkCycleDurationSet_unset m Hd) in H. cbv zeta in H.
    destruct (abort_on_first_error_ (driver m)); [discriminate H|].
    injection H as <-. repeat split. eexists [_]. cbn. auto.
  - rewrite (checkCycleDurationSet_set m Hd) in H. injection H as <-.
    repeat split. exists []. rewrite app_nil_r. auto.
Qed.

(** The steps of [skipTime] in front of its loop. *)
Lemma skipTime_unfold (fuel : nat) (delta_t : double) (l : list A) (m m0 : Mach) :
  checkCycleDurationSet m = Done tt m0 ->
  skipTime eval loop fuel delta_t l m =
  bind (skipTime_loop eval loop fuel delta_t (time_ (driver m0)) (Double.of_int 0))
       (fun elapsed_time =>
          bind get_driver (fun d =>
          bind (log (MsgSkipped elapsed_time (cycle_id_ d))) (fun _ =>
          bind (if negb (AssertionQueue.empty l) then
                  bind (log (MsgProcessingOnStop (length l)))
                       (fun _ => processCycleAssertions eval l)
                else ret tt)
               (fun _ => log MsgNewline))))
       (mkMachine (driver m0) (subject m0)
          (trace m0 ++ EvLog (time_ (driver m0)) (cycle_id_ (driver m0))
                             (MsgSkipping delta_t) :: map EvSetDriver l)).
Proof.
  intros Hcheck. unfold skipTime.
  unfold bind at 1. rewrite Hcheck.
  unfold bind at 1. unfold get_driver at 1.
  unfold bind at 1. unfold log at 1, bind at 1, get_driver at 1, emit at 1.
  rewrite bind_if_not_empty.
  unfold bind at 1. rewrite bind_assertions_run.
  unfold bind at 1. unfold get_driver at 1. cbn [driver subject trace].
  rewrite <- app_assoc. reflexivity.
Qed.

Lemma grows_skipTime_loop (tr0 : list Ev) (fuel : nat) (delta_t : double)
                          (start : Z) (elapsed : double) :
  hoare (grows tr0) (grows tr0) (fun _ => grows tr0) (grows tr0)
        (skipTime_loop eval loop fuel delta_t start elapsed).
Proof. apply inv_skipTime_loop; [apply grows_cycleInternal|auto]. Qed.

Lemma bound_skipTime_loop (b : list A) (fuel : nat) (delta_t : double)
                          (start : Z) (elapsed : double) :
  hoare (fun m : Mach => bound (trace m) = b) (fun m => bound (trace m) = b)
        (fun _ m => bound (trace m) = b) (fun m => bound (trace m) = b)
        (skipTime_loop eval loop fuel delta_t start elapsed).
Proof. apply inv_skipTime_loop; [apply bound_cycleInternal|auto]. Qed.

(** Property X14.  A call of [skipTime] that returns has bound exactly
    its stop assertions and evaluated what the scan cycles it ran
    evaluate, one after the other, followed by the stop assertions. *)
Theorem skipTime_evaluates_what_its_scan_cycles_evaluate
        (fuel : nat) (delta_t : double) (on_stop : list A) (m m' : Mach) :
  skipTime eval loop fuel delta_t on_stop m = Done tt m' ->
  exists ev,
    trace m' = trace m ++ ev /\
    bound ev = on_stop /\
    evaluated ev =
      cycles_evaluations loop
        (permanent_keyboard_report_assertions_ (driver m))
        (permanent_cycle_assertions_ (driver m)) [] (ticks ev)
        (queued_keyboard_report_assertions_ (driver m))
        (queued_cycle_assertions_ (driver m)) (subject m)
      ++ on_stop.
Proof.
  intros Hrun.
  destruct (checkCycleDurationSet m) as [[] m0| |] eqn:Hcheck;
    try (unfold skipTime, bind at 1 in Hrun; rewrite Hcheck in Hrun; discriminate Hrun).
  rewrite (skipTime_unfold fuel delta_t on_stop m m0 Hcheck) in Hrun.
  destruct (checkCycleDurationSet_done m m0 Hcheck)
    as (Hd0 & Hw0 & pre0 & Ht0 & Tp0 & Ep0 & Bp0).
  destruct (binding_events on_stop) as (Bb & Tb & Eb & _).
  unfold bind at 1 in Hrun.
  match type of Hrun with
  | context [trace m0 ++ ?e :: map EvSetDriver on_stop] =>
      set (pre1 := e :: map EvSetDriver on_stop) in *
  end.
  assert (Tp1 : ticks pre1 = O) by (unfold pre1; cbn; exact Tb).
  assert (Ep1 : evaluated pre1 = []) by (unfold pre1; cbn; exact Eb).
  assert (Bp1 : bound pre1 = on_stop) by (unfold pre1; cbn; exact Bb).
  clearbody pre1.
  set (m1 := mkMachine (driver m0) (subject m0) (trace m0 ++ pre1)) in *.
  destruct (skipTime_loop eval loop fuel delta_t (time_ (driver m0)) (Double.of_int 0) m1)
    as [elapsed m2| |] eqn:Hloop; try discriminate Hrun.
  destruct (ran_skipTime_loop _ _ _ _ _ _ _ Hloop) as [j Hran].
  pose proof (bound_skipTime_loop _ fuel delta_t (time_ (driver m0)) (Double.of_int 0)
                m1 eq_refl) as Hb.
  pose proof (grows_skipTime_loop _ fuel delta_t (time_ (driver m0)) (Double.of_int 0)
                m1 (grows_refl m1)) as Hg.
  rewrite Hloop in Hb, Hg. destruct Hg as [ev1 Hev1]. cbn [trace m1] in Hev1, Hb.
  assert (Hran' : ran loop [] j m m2).
  { apply (ran_from [] j m m1 m2 (pre0 ++ pre1)); try assumption.
    - cbn. rewrite Ht0. symmetry. apply app_assoc.
    - rewrite ticks_app, Tp0, Tp1. reflexivity.
    - rewrite evaluated_app, Ep0, Ep1. reflexivity. }
  destruct Hran' as [Hk He].
  unfold bind at 1 in Hrun. unfold get_driver at 1 in Hrun.
  unfold bind at 1 in Hrun. unfold log at 1, bind at 1, get_driver at 1, emit at 1 in Hrun.
  unfold bind at 1 in Hrun.
  match type of Hrun with context [(if _ then _ else _) ?m3] =>
    destruct (stop_assertions_run on_stop m3) as (ev2 & E2 & T2 & B2 & _ & Hstop) end.
  rewrite Hstop in Hrun. unfold log, bind, get_driver, emit in Hrun. cbn in Hrun.
  injection Hrun as <-. cbn [trace].
  rewrite Hev1, Ht0 in *.
  rewrite !ticks_app, Tp0, Tp1 in Hk.
  rewrite !evaluated_app, Ep0, Ep1, !app_nil_r in He. apply app_inv_head in He.
  rewrite !bound_app, Bp0, Bp1, app_nil_r, <- app_assoc in Hb. apply app_inv_head in Hb.
  assert (Hb1 : bound ev1 = []).
  { apply (app_inv_head on_stop). rewrite app_nil_r. exact Hb. }
  assert (Hj : ticks ev1 = j) by lia.
  match goal with |- context [((?a ++ [?e1]) ++ ev2) ++ [?e2]] =>
    exists (pre0 ++ pre1 ++ ev1 ++ [e1] ++ ev2 ++ [e2]) end.
  rewrite !ticks_app, !bound_app, !evaluated_app.
  rewrite Tp0, Tp1, Bp0, Bp1, Ep0, Ep1, T2, B2, E2, Hb1, He, Hj.
  cbn. rewrite !app_nil_r, <- !app_assoc. rewrite Nat.add_0_r.
  split; [reflexivity|]. split; reflexivity.
Qed.

(** ** The verdict after a run of scan cycles *)
Lemma queue_after_cycles_loop (l : list A) (n : nat) :
  forall m m' : Mach,
    cycles_loop eval loop n l m = Done tt m' ->
    queued_keyboard_report_assertions_ (driver m')
    = skipn (reports_in loop n (subject m))
            (queued_keyboard_report_assertions_ (driver m)) /\
    n_overall_keyboard_reports_ (driver m')
    = n_overall_keyboard_reports_ (driver m)
      + Z.of_nat (reports_in loop n (subject m)).
Proof.
  unfold cycles_loop. induction n as [|n IH]; intros m m' Hrun.
  - cbn in Hrun. injection Hrun as <-. cbn. split; [reflexivity|lia].
  - cbn [repeatM] in Hrun. unfold bind in Hrun.
    destruct (cycleInternal eval loop l true m) as [[] m1| |] eqn:Htick;
      try discriminate Hrun.
    pose proof (books_after_cycleInternal l true m m1 Htick) as H. cbv zeta in H.
    destruct H as (_ & _ & _ & Hq & _ & _ & _ & Ho & _ & _ & Hw).
    destruct (IH m1 m' Hrun) as [Hq' Ho']. cbn [reports_in].
    rewrite Hq', Ho', Hq, Ho, Hw, skipn_skipn. split.
    + f_equal. lia.
    + lia.
Qed.

Lemma skipn_nil_iff {X : Type} (k : nat) (q : list X) :
  skipn k q = [] <-> (length q <= k)%nat.
Proof.
  revert q. induction k as [|k IH]; intros q.
  - cbn. destruct q; cbn; split; intros H; try reflexivity; try discriminate; lia.
  - destruct q as [|x q]; cbn; [split; [lia|reflexivity]|].
    rewrite IH. lia.
Qed.

(** Property X15.  After a call of [cycles] that returns, the queue of
    report assertions has lost one entry for every report the firmware
    sent during the call, the overall report counter has grown by the
    number of these reports, and [checkStatus], when it returns, returns
    true if and only if the reports were enough to empty the queue, the
    aggregate pass flag was true before the call and every evaluation of
    the call passed. *)
Theorem verdict_after_a_run_of_scan_cycles
        (n : Z) (on_stop l : list A) (m m1 : Mach) :
  cycles eval loop n on_stop l m = Done tt m1 ->
  let n' := Z.to_nat (if n =? 0 then scan_cycles_default_count_ (driver m) else n) in
  let total := reports_in loop n' (subject m) in
  queued_keyboard_report_assertions_ (driver m1)
  = skipn total (queued_keyboard_report_assertions_ (driver m)) /\
  n_overall_keyboard_reports_ (driver m1)
  = n_overall_keyboard_reports_ (driver m) + Z.of_nat total /\
  exists ev,
    trace m1 = trace m ++ ev /\
    forall b m2,
      checkStatus m1 = Done b m2 ->
      (b = true <->
       (length (queued_keyboard_report_assertions_ (driver m)) <= total)%nat /\
       assertions_passed_ (driver m) = true /\ all_passed ev = true).
Proof.
  intros Hrun n' total.
  pose proof (aggregates_cycles _ _ n on_stop l m (aggregates_refl m)) as Hagg.
  rewrite Hrun in Hagg. destruct Hagg as (ev & Hev & Hflag).
  assert (Hbooks :
    queued_keyboard_report_assertions_ (driver m1)
    = skipn total (queued_keyboard_report_assertions_ (driver m)) /\
    n_overall_keyboard_reports_ (driver m1)
    = n_overall_keyboard_reports_ (driver m) + Z.of_nat total).
  { rewrite cycles_unfold in Hrun. cbv zeta in Hrun. fold n' in Hrun.
    unfold bind at 1 in Hrun.
    match type of Hrun with context [cycles_loop _ _ _ _ ?x] => set (m0 := x) in * end.
    destruct (cycles_loop eval loop n' l m0) as [[] m3| |] eqn:Hloop;
      try discriminate Hrun.
    destruct (queue_after_cycles_loop l n' m0 m3 Hloop) as [Hq Ho].
    unfold bind at 1 in Hrun.
    destruct (stop_assertions_run on_stop m3) as (ev2 & _ & _ & _ & _ & Hstop).
    rewrite Hstop in Hrun. unfold log, bind, get_driver, emit in Hrun. cbn in Hrun.
    injection Hrun as <-. cbn. exact (conj Hq Ho). }
  destruct Hbooks as [Hq Ho]. split; [exact Hq|]. split; [exact Ho|].
  exists ev. split; [exact Hev|]. intros b m2 Hcheck.
  destruct (checkStatus_run m1) as (ev' & _ & _ & _ & Hrun'). cbv zeta in Hrun'.
  rewrite Hcheck in Hrun'. unfold unfinished in Hrun'. rewrite Hq, Hflag in Hrun'.
  rewrite <- skipn_nil_iff.
  destruct (skipn total (queued_keyboard_report_assertions_ (driver m))) as [|a q'];
    destruct (assertions_passed_ (driver m)); destruct (all_passed ev);
    cbn in Hrun'; try destruct (abort_on_first_error_ (driver m1));
    try discriminate Hrun'; injection Hrun' as -> _;
    split; try discriminate; try (intros (H1 & H2 & H3); discriminate);
    auto.
Qed.

(** ** The evaluation policy *)
Lemma reported_app (tr1 tr2 : list Ev) : reported (tr1 ++ tr2) = reported tr1 ++ reported tr2.
Proof.
  induction tr1 as [|e tr1 IH]; [reflexivity|].
  destruct e; cbn; rewrite IH; reflexivity.
Qed.

Lemma failed_app (tr1 tr2 : list Ev) : failed (tr1 ++ tr2) = failed tr1 ++ failed tr2.
Proof.
  induction tr1 as [|e tr1 IH]; [reflexivity|].
  destruct e as [| | | | |a [|]|]; cbn; rewrite IH; reflexivity.
Qed.

Lemma reports_by_policy_app (dbg : bool) (ev1 ev2 : list Ev) :
  reports_by_policy dbg ev1 -> reports_by_policy dbg ev2 ->
  reports_by_policy dbg (ev1 ++ ev2).
Proof.
  unfold reports_by_policy. intros H1 H2.
  rewrite reported_app, H1, H2. destruct dbg; [rewrite evaluated_app|rewrite failed_app];
    reflexivity.
Qed.

Lemma follows_policy_more (tr0 ev : list Ev) (dbg : bool) (m m' : Mach) :
  follows_policy tr0 dbg m ->
  trace m' = trace m ++ ev -> debug_ (driver m') = debug_ (driver m) ->
  reports_by_policy dbg ev ->
  follows_policy tr0 dbg m'.
Proof.
  intros (Hd & ev0 & Ht & Hp) Ht' Hd' Hp'. split; [congruence|].
  exists (ev0 ++ ev). split.
  - rewrite Ht', Ht. symmetry. apply app_assoc.
  - apply reports_by_policy_app; assumption.
Qed.

Lemma follows_policy_refl (m : Mach) : follows_policy (trace m) (debug_ (driver m)) m.
Proof.
  split; [reflexivity|]. exists []. split; [symmetry; apply app_nil_r|].
  unfold reports_by_policy. destruct (debug_ (driver m)); reflexivity.
Qed.

Ltac policy_side := cbv zeta; intros;
  try match goal with |- if ?b then _ else _ => destruct b end;
  solve [ assumption
        | eapply follows_policy_more;
          [eassumption|cbn; reflexivity|cbn; reflexivity
          |match goal with |- reports_by_policy ?d _ => destruct d; reflexivity end]
        | eapply follows_policy_more;
          [eassumption|cbn; symmetry; apply app_nil_r|cbn; reflexivity
          |match goal with |- reports_by_policy ?d _ => destruct d; reflexivity end] ].

Section Policy.
Variables (tr0 : list Ev) (dbg : bool).

Lemma policy_assertion (a : A) :
  hoare (@follows_policy A Report Subject tr0 dbg) (follows_policy tr0 dbg)
        (fun _ => follows_policy tr0 dbg) (follows_policy tr0 dbg)
        (processKeyboardReportAssertion eval a).
Proof.
  apply inv_assertion. intros m H.
  eapply follows_policy_more; [exact H|cbn; reflexivity|reflexivity|].
  destruct H as [Hd _]. rewrite Hd. unfold reports_by_policy.
  destruct (eval a (driver m)), dbg; reflexivity.
Qed.

Lemma policy_report (r : Report) :
  hoare (@follows_policy A Report Subject tr0 dbg) (follows_policy tr0 dbg)
        (fun _ => follows_policy tr0 dbg) (follows_policy tr0 dbg)
        (processKeyboardReport eval r).
Proof.
  unfold processKeyboardReport.
  repeat lazymatch goal with
         | |- hoare _ _ _ _ (processKeyboardReportAssertion _ _) =>
             apply policy_assertion
         | |- hoare _ _ _ _ (forM_ _ (processKeyboardReportAssertion _)) =>
             apply hoare_forM; intros ? ?
         | |- _ => inv_step policy_side
         end.
Qed.

Ltac policy_step :=
  lazymatch goal with
  | |- hoare _ _ _ _ (processKeyboardReportAssertion _ _) => apply policy_assertion
  | |- hoare _ _ _ _ (forM_ _ (processKeyboardReportAssertion _)) =>
      apply hoare_forM; intros ? ?
  | |- hoare _ _ _ _ (processCycleAssertions _ _) =>
      unfold processCycleAssertions;
      change (@processCycleAssertion A Report Subject eval)
        with (@processKeyboardReportAssertion A Report Subject eval)
  | |- hoare _ _ _ _ (processKeyboardReport _ _) => apply policy_report
  | |- _ => inv_step policy_side
  end.

Lemma policy_cycleInternal (l : list A) (olr : bool) :
  hoare (follows_policy tr0 dbg) (follows_policy tr0 dbg)
        (fun _ => follows_policy tr0 dbg) (follows_policy tr0 dbg)
        (cycleInternal eval loop l olr).
Proof.
  unfold cycleInternal. destruct l; cbn [AssertionQueue.empty forM_ negb];
    repeat policy_step.
Qed.

Lemma policy_cycle (l : list A) :
  hoare (follows_policy tr0 dbg) (follows_policy tr0 dbg)
        (fun _ => follows_policy tr0 dbg) (follows_policy tr0 dbg)
        (cycle eval loop l).
Proof.
  unfold cycle.
  apply inv_bind; [inv_step policy_side|intros _].
  apply inv_bind; [apply policy_cycleInternal|intros _].
  inv_step policy_side.
Qed.

Lemma policy_cycles (n : Z) (on_stop l : list A) :
  hoare (follows_policy tr0 dbg) (follows_policy tr0 dbg)
        (fun _ => follows_policy tr0 dbg) (follows_policy tr0 dbg)
        (cycles eval loop n on_stop l).
Proof.
  unfold cycles, cycles_loop.
  repeat lazymatch goal with
         | |- hoare _ _ _ _ (cycleInternal _ _ _ _) => apply policy_cycleInternal
         | |- _ => policy_step
         end.
Qed.

Lemma policy_skipTime (fuel : nat) (delta_t : double) (l : list A) :
  hoare (follows_policy tr0 dbg) (follows_policy tr0 dbg)
        (fun _ => follows_policy tr0 dbg) (follows_policy tr0 dbg)
        (skipTime eval loop fuel delta_t l).
Proof.
  unfold skipTime, checkCycleDurationSet.
  repeat lazymatch goal with
         | |- hoare _ _ _ _ (skipTime_loop _ _ _ _ _ _) =>
             apply inv_skipTime_loop; [apply policy_cycleInternal|policy_side]
         | |- _ => policy_step
         end.
Qed.
End Policy.

(** Property X16.  The evaluation policy holds for everything a report,
    [cycle], [cycles] or [skipTime] evaluates, however the call ends: the
    assertions asked to report are exactly the assertions whose evaluation
    failed, in order, and in debug mode they are all evaluated
    assertions. *)
Theorem assertions_report_when_they_fail_or_in_debug_mode (m : Mach) :
  let by_policy (m' : Mach) :=
    exists ev,
      trace m' = trace m ++ ev /\
      reported ev = if debug_ (driver m) then evaluated ev else failed ev in
  (forall l, by_policy (machine_of (cycle eval loop l m))) /\
  (forall n on_stop l, by_policy (machine_of (cycles eval loop n on_stop l m))) /\
  (forall fuel delta_t l,
     by_policy (machine_of (skipTime eval loop fuel delta_t l m))) /\
  (forall r, by_policy (machine_of (processKeyboardReport eval r m))).
Proof.
  intros by_policy.
  assert (H : forall m', follows_policy (trace m) (debug_ (driver m)) m' -> by_policy m').
  { intros m' (_ & ev & Ht & Hp). exists ev. split; assumption. }
  split; [intros l|split; [intros n on_stop l|split; [intros fuel delta_t l|intros r]]];
    apply H.
  - apply (hoare_machine_of _ _ _ m (policy_cycle _ _ l)), follows_policy_refl.
  - apply (hoare_machine_of _ _ _ m (policy_cycles _ _ n on_stop l)), follows_policy_refl.
  - apply (hoare_machine_of _ _ _ m (policy_skipTime _ _ fuel delta_t l)),
      follows_policy_refl.
  - apply (hoare_machine_of _ _ _ m (policy_report _ _ r)), follows_policy_refl.
Qed.

(** ** The summary line of [skipTime] *)

(** The elapsed time the loop of [skipTime] ends with. *)
Lemma elapsed_skipTime_loop (delta_t : double) (start : Z) (fuel : nat) :
  forall (elapsed x : double) (m m' : Mach),
    skipTime_loop eval loop fuel delta_t start elapsed m = Done x m' ->
    (x = elapsed /\ m' = m) \/ x = Double.of_int (time_ (driver m') - start).
Proof.
  induction fuel as [|fuel IH]; intros elapsed x m m' Hrun;
    rewrite skipTime_loop_unfold in Hrun;
    destruct (Double.ltb elapsed delta_t).
  - discriminate Hrun.
  - injection Hrun as <- <-. left. split; reflexivity.
  - unfold bind at 1 in Hrun.
    destruct (cycleInternal eval loop [] true m) as [[] m1| |]; try discriminate Hrun.
    unfold bind, get_driver in Hrun. right.
    destruct (IH _ _ _ _ Hrun) as [[-> ->] | ->]; reflexivity.
  - injection Hrun as <- <-. left. split; reflexivity.
Qed.

(** Property X19.  When [skipTime] returns, the trace shows its summary
    line after the last scan cycle and before the evaluation of the stop
    assertions.  The line is stamped with the time and the cycle id the
    Driver has reached, and it reports the time that elapsed during the
    call and, as the number of cycles skipped, the cycle id of the Driver:
    the cycles of the whole run, not those of this call. *)
Theorem skipTime_summary_line
        (fuel : nat) (delta_t : double) (on_stop : list A) (m m' : Mach) :
  skipTime eval loop fuel delta_t on_stop m = Done tt m' ->
  exists tr1 tr2,
    trace m' =
      tr1 ++ EvLog (time_ (driver m')) (cycle_id_ (driver m'))
                   (MsgSkipped (Double.of_int (time_ (driver m') - time_ (driver m)))
                               (cycle_id_ (driver m')))
          :: tr2 /\
    ticks tr1 = ticks (trace m') /\
    evaluated tr2 = on_stop.
Proof.
  intros Hrun.
  destruct (checkCycleDurationSet m) as [[] m0| |] eqn:Hcheck;
    try (unfold skipTime, bind at 1 in Hrun; rewrite Hcheck in Hrun; discriminate Hrun).
  rewrite (skipTime_unfold fuel delta_t on_stop m m0 Hcheck) in Hrun.
  destruct (checkCycleDurationSet_done m m0 Hcheck) as (Hd0 & _).
  unfold bind at 1 in Hrun.
  match type of Hrun with context [skipTime_loop _ _ _ _ _ _ ?x] => set (m1 := x) in * end.
  destruct (skipTime_loop eval loop fuel delta_t (time_ (driver m0)) (Double.of_int 0) m1)
    as [elapsed m2| |] eqn:Hloop; try discriminate Hrun.
  assert (He : elapsed = Double.of_int (time_ (driver m2) - time_ (driver m))).
  { destruct (elapsed_skipTime_loop _ _ _ _ _ _ _ Hloop) as [[-> ->] | ->].
    - unfold m1. cbn. rewrite Hd0, Z.sub_diag. reflexivity.
    - rewrite Hd0. reflexivity. }
  unfold bind at 1 in Hrun. unfold get_driver at 1 in Hrun.
  unfold bind at 1 in Hrun. unfold log at 1, bind at 1, get_driver at 1, emit at 1 in Hrun.
  unfold bind at 1 in Hrun.
  match type of Hrun with context [(if _ then _ else _) ?m3] =>
    destruct (stop_assertions_run on_stop m3) as (ev2 & E2 & T2 & _ & _ & Hstop) end.
  rewrite Hstop in Hrun. unfold log, bind, get_driver, emit in Hrun. cbn in Hrun.
  injection Hrun as <-. cbn [trace driver time_ cycle_id_ set_assertions_passed_].
  rewrite He.
  exists (trace m2),
         (ev2 ++ [EvLog (time_ (driver m2)) (cycle_id_ (driver m2)) MsgNewline]).
  rewrite <- !app_assoc. cbn [app]. split; [reflexivity|].
  rewrite ticks_app, evaluated_app, E2. cbn. rewrite ticks_app, T2, app_nil_r. cbn.
  split; [lia|reflexivity].
Qed.

End Properties.

(** * The simulated key matrix *)
Section KeyProperties.
Import Keys.

Context {A Report : Type}.
Variables matrix_rows matrix_columns : Z.

Lemma byte_incr_small (b : Z) : 0 <= b < 255 -> byte_incr b = b + 1.
Proof. intros H. unfold byte_incr. apply Z.mod_small. lia. Qed.

Lemma byte_incr_range (b : Z) : 0 <= byte_incr b < 256.
Proof. unfold byte_incr. apply Z.mod_pos_bound. lia. Qed.

(** The inner loop, [j] columns away from the end of the row. *)
Lemma clear_columns_run (row : Z) (j : nat) :
  forall (fuel : nat) (col : Z),
    0 <= col -> matrix_columns <= 255 ->
    Z.to_nat (matrix_columns - col) = j -> (j <= fuel)%nat ->
    clear_columns matrix_columns fuel row col
    = Some (map (fun c => EvSetKeystate row c NOT_PRESSED) (count_from col j)).
Proof.
  induction j as [|j IH]; intros fuel col Hcol Hmax Hj Hfuel.
  - destruct fuel; cbn; destruct (Z.ltb_spec col matrix_columns); try reflexivity; lia.
  - destruct fuel as [|fuel]; [lia|]. cbn [clear_columns].
    destruct (Z.ltb_spec col matrix_columns); [|lia].
    rewrite byte_incr_small by lia.
    rewrite (IH fuel (col + 1)) by lia. reflexivity.
Qed.

(** The outer loop, [j] rows away from the end of the matrix. *)
Lemma clear_rows_run (j : nat) :
  forall (fuel : nat) (row : Z),
    0 <= row -> matrix_rows <= 255 -> matrix_columns <= 255 ->
    Z.to_nat (matrix_rows - row) = j ->
    (j + Z.to_nat matrix_columns <= fuel)%nat ->
    clear_rows matrix_rows matrix_columns fuel row
    = Some (flat_map (fun r => map (fun c => EvSetKeystate r c NOT_PRESSED)
                                   (count_from 0 (Z.to_nat matrix_columns)))
                     (count_from row j)).
Proof.
  induction j as [|j IH]; intros fuel row Hrow Hmax Hcmax Hj Hfuel.
  - destruct fuel; cbn; destruct (Z.ltb_spec row matrix_rows); try reflexivity; lia.
  - destruct fuel as [|fuel]; [lia|]. cbn [clear_rows].
    destruct (Z.ltb_spec row matrix_rows); [|lia].
    rewrite (clear_columns_run row (Z.to_nat matrix_columns)) by lia.
    rewrite byte_incr_small by lia.
    rewrite (IH fuel (row + 1)) by lia. reflexivity.
Qed.

Lemma count_from_spec (j : nat) :
  forall (c x : Z), In x (count_from c j) <-> c <= x < c + Z.of_nat j.
Proof.
  induction j as [|j IH]; intros c x; cbn [count_from In].
  - split; [intros []|lia].
  - rewrite IH. lia.
Qed.

Lemma count_from_NoDup (j : nat) : forall c : Z, NoDup (count_from c j).
Proof.
  induction j as [|j IH]; intros c; cbn [count_from]; constructor.
  - rewrite count_from_spec. lia.
  - apply IH.
Qed.

Lemma length_count_from (j : nat) : forall c : Z, length (count_from c j) = j.
Proof. induction j as [|j IH]; intros c; cbn; [reflexivity|]. rewrite IH. reflexivity. Qed.

Lemma length_keys_of_matrix (rows columns : Z) :
  length (keys_of_matrix rows columns) = (Z.to_nat rows * Z.to_nat columns)%nat.
Proof.
  unfold keys_of_matrix. generalize 0 at 2 as r0.
  induction (Z.to_nat rows) as [|nr IH]; intros r0; [reflexivity|].
  cbn [count_from flat_map].
  rewrite length_app, length_map, length_count_from, IH. reflexivity.
Qed.

Lemma NoDup_map_injective {X Y : Type} (f : X -> Y) (l : list X) :
  (forall x y, f x = f y -> x = y) -> NoDup l -> NoDup (map f l).
Proof.
  intros Hinj Hl. apply NoDup_map_NoDup_ForallPairs; [|exact Hl].
  intros x y _ _. apply Hinj.
Qed.

Lemma keys_of_matrix_NoDup (rows columns : Z) : NoDup (keys_of_matrix rows columns).
Proof.
  unfold keys_of_matrix. generalize 0 at 2 as r0.
  induction (Z.to_nat rows) as [|nr IH]; intros r0; [constructor|].
  cbn [count_from flat_map]. apply NoDup_app.
  - apply NoDup_map_injective; [|apply count_from_NoDup].
    intros x y H. injection H as ->. reflexivity.
  - apply IH.
  - intros [r c] Hin Hin'. apply in_map_iff in Hin. destruct Hin as (c' & Heq & _).
    injection Heq as <- _. apply in_flat_map in Hin'. destruct Hin' as (r' & Hr' & Hin').
    apply in_map_iff in Hin'. destruct Hin' as (c'' & Heq & _). injection Heq as -> _.
    apply count_from_spec in Hr'. lia.
Qed.

(** The keys of a matrix: every key once. *)
Lemma keys_of_matrix_spec (rows columns row col : Z) :
  In (row, col) (keys_of_matrix rows columns)
  <-> 0 <= row < rows /\ 0 <= col < columns.
Proof.
  unfold keys_of_matrix. rewrite in_flat_map. split.
  - intros (r & Hr & Hin). apply in_map_iff in Hin. destruct Hin as (c & Heq & Hc).
    injection Heq as -> ->. apply count_from_spec in Hr, Hc. lia.
  - intros [Hr Hc]. exists row. split.
    + apply count_from_spec. lia.
    + apply in_map_iff. exists col. split; [reflexivity|]. apply count_from_spec. lia.
Qed.

(** Property X17.  For a matrix of at most 255 rows and 255 columns,
    [clearAllKeys] returns after it logged one line and set every key of
    the matrix to [NOT_PRESSED], row by row and each key exactly once; it
    sets no key outside the matrix and no other state.  [initKeyboard]
    does the same and then initializes the keyboard of the HID layer. *)
Theorem clearAllKeys_releases_every_key_once (fuel : nat) (d : @Driver A Report) :
  matrix_rows <= 255 -> matrix_columns <= 255 ->
  (Z.to_nat matrix_rows + Z.to_nat matrix_columns <= fuel)%nat ->
  exists evs,
    clearAllKeys matrix_rows matrix_columns fuel d
    = Some (EvKeyLog (time_ d) (cycle_id_ d) MsgClearingAllKeys :: evs) /\
    initKeyboard matrix_rows matrix_columns fuel d
    = Some (EvKeyLog (time_ d) (cycle_id_ d) MsgClearingAllKeys
              :: evs ++ [EvInitializeKeyboard]) /\
    evs = map (fun k => EvSetKeystate (fst k) (snd k) NOT_PRESSED)
              (keys_of_matrix matrix_rows matrix_columns) /\
    (forall row col,
       In (EvSetKeystate row col NOT_PRESSED) evs
       <-> 0 <= row < matrix_rows /\ 0 <= col < matrix_columns) /\
    (forall row col state,
       In (EvSetKeystate row col state) evs -> state = NOT_PRESSED) /\
    NoDup evs /\
    length evs = (Z.to_nat matrix_rows * Z.to_nat matrix_columns)%nat.
Proof.
  intros Hr Hc Hfuel.
  assert (Hrun : clearAllKeys matrix_rows matrix_columns fuel d
                 = Some (EvKeyLog (time_ d) (cycle_id_ d) MsgClearingAllKeys
                           :: map (fun k => EvSetKeystate (fst k) (snd k) NOT_PRESSED)
                                  (keys_of_matrix matrix_rows matrix_columns))).
  { unfold clearAllKeys.
    rewrite (clear_rows_run (Z.to_nat matrix_rows) fuel 0) by lia.
    cbn [option_map]. unfold log, keys_of_matrix. do 2 f_equal.
    generalize (count_from 0 (Z.to_nat matrix_rows)) as rows.
    generalize (count_from 0 (Z.to_nat matrix_columns)) as cols.
    intros cols rows. induction rows as [|r rows IH]; [reflexivity|].
    cbn [flat_map]. rewrite map_app, map_map, IH. reflexivity. }
  eexists. split; [exact Hrun|]. split; [|split; [reflexivity|]].
  - unfold initKeyboard. rewrite Hrun. reflexivity.
  - split; [|split; [|split]].
    + intros row col. rewrite <- keys_of_matrix_spec, in_map_iff. split.
      * intros ([r c] & Heq & Hin). cbn in Heq. injection Heq as -> ->. exact Hin.
      * intros Hin. exists (row, col). split; [reflexivity|exact Hin].
    + intros row col state Hin. apply in_map_iff in Hin.
      destruct Hin as (k & Heq & _). injection Heq as _ _ <-. reflexivity.
    + apply NoDup_map_injective; [|apply keys_of_matrix_NoDup].
      intros [r c] [r' c'] H. cbn in H. injection H as -> ->. reflexivity.
    + rewrite length_map. apply length_keys_of_matrix.
Qed.

(** A [byte] cannot count up to 256. *)
Lemma clear_columns_hangs (row : Z) (fuel : nat) :
  forall col : Z,
    256 <= matrix_columns -> 0 <= col < 256 ->
    clear_columns matrix_columns fuel row col = None.
Proof.
  induction fuel as [|fuel IH]; intros col Hmax Hcol; cbn [clear_columns];
    destruct (Z.ltb_spec col matrix_columns); try lia; [reflexivity|].
  rewrite IH; [reflexivity|exact Hmax|apply byte_incr_range].
Qed.

Lemma clear_rows_hangs (fuel : nat) :
  forall row : Z,
    256 <= matrix_rows \/ 256 <= matrix_columns ->
    0 <= row < 256 -> row < matrix_rows ->
    clear_rows matrix_rows matrix_columns fuel row = None.
Proof.
  induction fuel as [|fuel IH]; intros row Hmax Hrow Hlt; cbn [clear_rows];
    destruct (Z.ltb_spec row matrix_rows); try lia; [reflexivity|].
  destruct Hmax as [Hmax|Hmax].
  - destruct (clear_columns matrix_columns (S fuel) row 0); [|reflexivity].
    rewrite IH; [reflexivity|left; exact Hmax|apply byte_incr_range|].
    pose proof (byte_incr_range row). lia.
  - rewrite clear_columns_hangs; [reflexivity|exact Hmax|lia].
Qed.

(** Property X18.  The loop counters of [clearAllKeys] are bytes: when
    the matrix has 256 or more rows, or has a row and 256 or more columns,
    a counter wraps around before it reaches the bound, and [clearAllKeys]
    and [initKeyboard] are still running when the fuel is used up,
    whatever the fuel. *)
Theorem clearAllKeys_never_returns_on_a_matrix_beyond_a_byte
        (fuel : nat) (d : @Driver A Report) :
  256 <= matrix_rows \/ (0 < matrix_rows /\ 256 <= matrix_columns) ->
  clearAllKeys matrix_rows matrix_columns fuel d = None /\
  initKeyboard matrix_rows matrix_columns fuel d = None.
Proof.
  intros H.
  assert (Hrows : clear_rows matrix_rows matrix_columns fuel 0 = None).
  { apply clear_rows_hangs; lia. }
  unfold initKeyboard, clearAllKeys. rewrite Hrows. split; reflexivity.
Qed.

End KeyProperties.


(** * Runs on the test bench *)
Import Bench.

(** C1 at work: the report 1 arrives while the assertions 1 and 2 are
    queued. *)
Lemma processKeyboardReport_consumes_queue_in_order_witness :
  queued_keyboard_report_assertions_ (driver expecting) = [1; 2]%nat /\
  exists m' ev0 ev1,
    processKeyboardReport expects 1%nat expecting = Done tt m' /\
    AssertionQueue.popFront (queued_keyboard_report_assertions_ (driver expecting))
    = Some (1%nat, queued_keyboard_report_assertions_ (driver m')) /\
    S (AssertionQueue.size (queued_keyboard_report_assertions_ (driver m')))
    = AssertionQueue.size (queued_keyboard_report_assertions_ (driver expecting)) /\
    current_keyboard_report_ (report_taken 1%nat (driver expecting)) = 1%nat /\
    trace m' =
      trace expecting
      ++ ev0 ++ EvEval 1%nat (expects 1%nat (report_taken 1%nat (driver expecting)))
             :: ev1 /\
    evaluated ev0 = [] /\
    evaluated ev1 = permanent_keyboard_report_assertions_ (driver expecting).
Proof.
  split; [reflexivity|].
  apply (proj1 (processKeyboardReport_consumes_queue_in_order expects)
               1%nat 1%nat [2%nat] expecting).
  reflexivity.
Defined.

(** C2 at the failing input: a single scan cycle with the stop assertion 7
    evaluates 7 and never binds it. *)
Lemma cycle_evaluates_unbound_assertion :
  let m' := machine_of (cycle expects quiet [7%nat] calm) in
  bound (trace m') = [] /\ evaluated (trace m') = [7%nat] /\ ticks (trace m') = 1%nat.
Proof. vm_compute. auto. Qed.

(** The sibling methods bind the same list. *)
Lemma cycles_binds_stop_assertions :
  bound (trace (machine_of (cycles expects quiet 1 [7%nat] [] calm))) = [7%nat].
Proof. reflexivity. Qed.

(** C3 refuted: a strict Driver without abort-on-first-error receives a
    report while nothing is queued; the error is reported, the aggregate
    pass flag stays true and [checkStatus] returns true. *)
Lemma strict_report_error_counterexample :
  exists m1 m2,
    processKeyboardReport expects 0%nat strict_calm = Done tt m1 /\
    errors (trace m1) = [ErrReportWithoutQueued] /\
    assertions_passed_ (driver m1) = true /\
    checkStatus m1 = Done true m2.
Proof. eexists _, _. vm_compute. auto. Qed.

Lemma strict_report_error_is_not_accumulated_witness :
  queued_keyboard_report_assertions_ (driver strict_calm) = [] /\
  error_if_report_without_queued_assertions_ (driver strict_calm) = true /\
  exists ev,
    let m' := mkMachine
                (set_assertions_passed_
                   (assertions_passed_ (driver strict_calm) && all_passed ev)
                   (report_taken 0%nat (driver strict_calm)))
                (subject strict_calm) (trace strict_calm ++ ev) in
    processKeyboardReport expects 0%nat strict_calm =
      (if abort_on_first_error_ (driver strict_calm)
       then Exited 1 m' else Done tt m') /\
    errors ev = [ErrReportWithoutQueued] /\
    evaluated ev = permanent_keyboard_report_assertions_ (driver strict_calm) /\
    (permanent_keyboard_report_assertions_ (driver strict_calm) = [] ->
       assertions_passed_ (driver m') = assertions_passed_ (driver strict_calm) /\
       (assertions_passed_ (driver strict_calm) = true ->
        abort_on_first_error_ (driver strict_calm) = false ->
        exists m'', checkStatus m' = Done true m'')).
Proof.
  split; [reflexivity|]. split; [reflexivity|].
  apply (strict_report_error_is_not_accumulated expects 0%nat strict_calm);
    reflexivity.
Defined.

(** C4 refuted: with a cycle duration of 10, [skipTime(25)] on a strict
    Driver with abort-on-first-error in front of the chatty firmware does
    not run 3 scan cycles: the report of the first cycle finds nothing
    queued and terminates the process, whatever the fuel. *)
Lemma skipTime_aborted_counterexample :
  (exists m1,
     skipTime expects chatty 3 (Finite (25 # 1)) [] strict_aborting = Exited 1 m1 /\
     ticks (trace m1) = 1%nat /\ cycle_id_ (driver m1) = 1 /\ time_ (driver m1) = 0) /\
  ~ (exists fuel m',
       skipTime expects chatty fuel (Finite (25 # 1)) [] strict_aborting = Done tt m').
Proof.
  split.
  - eexists. vm_compute. auto.
  - intros (fuel & m' & H). destruct fuel; vm_compute in H; discriminate H.
Qed.

(** C4 at work: with a cycle duration of 10, [skipTime(25)] runs exactly
    [ceil(25 / 10) = 3] scan cycles and 30 >= 25 time units elapse. *)
Lemma skipTime_runs_ceiling_many_cycles_witness :
  0 < cycle_duration_ (driver calm) /\ (0 < 25 # 1)%Q /\
  Z.to_nat (Qceiling ((25 # 1) / inject_Z (cycle_duration_ (driver calm)))) = 3%nat /\
  (match skipTime expects quiet 3 (Finite (25 # 1)) [] calm with
   | Done _ m' =>
       ticks (trace m') = (ticks (trace calm) + 3)%nat /\
       cycle_id_ (driver m') = cycle_id_ (driver calm) + Z.of_nat 3 /\
       time_ (driver m') - time_ (driver calm)
       = Z.of_nat 3 * cycle_duration_ (driver calm) /\
       (25 # 1 <= inject_Z (time_ (driver m') - time_ (driver calm)))%Q
   | Exited code m' =>
       strict_abort code m' /\
       exists i, (i < 3)%nat /\ ticks (trace m') = (ticks (trace calm) + i + 1)%nat
   | OutOfFuel _ => False
   end /\
   (lenient calm ->
    exists m', skipTime expects quiet 3 (Finite (25 # 1)) [] calm = Done tt m')).
Proof.
  split; [reflexivity|]. split; [reflexivity|]. split; [reflexivity|].
  apply (skipTime_runs_ceiling_many_cycles expects quiet (25 # 1) 3 [] calm).
  - reflexivity.
  - reflexivity.
  - vm_compute. lia.
Defined.

(** C5 refuted: the cycle duration is 0 and abort-on-first-error is off.
    [skipTime(0)] reports the error and returns; the aggregate pass flag is
    still true and the status check that follows succeeds.  [skipTime(1)]
    reports the error and goes on into its loop, which runs a scan cycle
    for every unit of fuel. *)
Lemma skipTime_unset_goes_on_counterexample :
  cycle_duration_ (driver unset) = 0 /\
  (exists m1 m2,
     skipTime expects quiet 0 (Finite 0) [] unset = Done tt m1 /\
     errors (trace m1) = [ErrCycleDurationNotSet] /\
     assertions_passed_ (driver m1) = true /\
     checkStatus m1 = Done true m2) /\
  (exists m1,
     skipTime expects quiet 3 (Finite 1) [] unset = OutOfFuel m1 /\
     errors (trace m1) = [ErrCycleDurationNotSet] /\
     ticks (trace m1) = 3%nat).
Proof.
  split; [reflexivity|]. split.
  - eexists _, _. vm_compute. auto.
  - eexists. vm_compute. auto.
Qed.

(** C5 at work: the cycle duration is 0 and abort-on-first-error is off;
    a time span of 25 ms is never skipped. *)
Lemma skipTime_reports_unset_cycle_duration_witness :
  cycle_duration_ (driver unset) = 0 /\
  let e := EvError (time_ (driver unset)) (cycle_id_ (driver unset))
                   ErrCycleDurationNotSet in
  (exists ev,
     trace (machine_of (skipTime expects quiet 4 (Finite (25 # 1)) [] unset))
     = trace unset ++ e :: ev) /\
  (exists m',
     skipTime expects quiet 4 (Finite (25 # 1)) [] unset = OutOfFuel m' /\
     ticks (trace m') = (ticks (trace unset) + 4)%nat).
Proof.
  split; [reflexivity|].
  destruct (skipTime_reports_unset_cycle_duration expects quiet 4 (Finite (25 # 1)) []
              unset eq_refl) as (Hfirst & _ & Hon).
  split; [exact Hfirst|].
  exact (proj2 (Hon eq_refl) eq_refl).
Defined.

(** C6 refuted: a negative count is not reported as an error, the call
    returns after no scan cycle; and a positive count is not always run in
    full. *)
Lemma cycles_negative_counterexample :
  (exists m1,
     cycles expects quiet (-1) [] [] calm = Done tt m1 /\
     errors (trace m1) = [] /\ ticks (trace m1) = O) /\
  (exists m1,
     cycles expects chatty 2 [] [] strict_aborting = Exited 1 m1 /\
     ticks (trace m1) = 1%nat).
Proof. split; eexists; vm_compute; auto. Qed.

Lemma cycles_runs_the_requested_count_witness :
  let n' := Z.to_nat (if 3 =? 0 then scan_cycles_default_count_ (driver calm) else 3) in
  match cycles expects quiet 3 [] [] calm with
  | Done _ m' =>
      ticks (trace m') = (ticks (trace calm) + n')%nat /\
      cycle_id_ (driver m') = cycle_id_ (driver calm) + Z.of_nat n'
  | Exited code m' =>
      strict_abort code m' /\
      exists j, (j < n')%nat /\ ticks (trace m') = (ticks (trace calm) + j + 1)%nat
  | OutOfFuel _ => False
  end /\
  (0 < 3 -> n' = Z.to_nat 3) /\
  (lenient calm -> exists m', cycles expects quiet 3 [] [] calm = Done tt m') /\
  (3 < 0 ->
   exists m' ev,
     cycles expects quiet 3 [] [] calm = Done tt m' /\ trace m' = trace calm ++ ev /\
     ticks ev = O /\ errors ev = [] /\
     bound ev = [] /\ evaluated ev = [] /\
     driver m' = set_assertions_passed_
                   (assertions_passed_ (driver calm) && all_passed ev) (driver calm)).
Proof. apply (cycles_runs_the_requested_count expects quiet 3 [] [] calm). Defined.

(** C7 refuted: with abort-on-first-error and a left-over queued report
    assertion, [checkStatus] does not return false: it does not return. *)
Lemma checkStatus_aborts_counterexample :
  queued_keyboard_report_assertions_ (driver aborting_leftover) <> [] /\
  (exists m1, checkStatus aborting_leftover = Exited 1 m1) /\
  ~ (exists m1, checkStatus aborting_leftover = Done false m1).
Proof.
  split; [discriminate|]. split.
  - eexists. vm_compute. reflexivity.
  - intros [m1 H]. vm_compute in H. discriminate H.
Qed.

Lemma checkStatus_spec_witness :
  abort_on_first_error_ (driver expecting) = false /\
  exists b m', checkStatus expecting = Done b m'.
Proof.
  split; [reflexivity|].
  apply (proj1 (proj2 (checkStatus_spec expecting))). left. reflexivity.
Defined.

(** C8 refuted: two scan cycles are scheduled on a strict Driver with
    abort-on-first-error and no assertion registered; the chatty firmware
    sends a report in the first cycle, the process exits there and the cycle
    id has grown by one, not by two. *)
Lemma cycle_id_aborted_counterexample :
  no_assertions (driver strict_aborting) /\
  (exists m1,
     cycles_loop expects chatty 2 [] strict_aborting = Exited 1 m1 /\
     cycle_id_ (driver m1) = cycle_id_ (driver strict_aborting) + 1 /\
     assertions_passed_ (driver m1) = true) /\
  ~ (exists m',
       cycles_loop expects chatty 2 [] strict_aborting = Done tt m' /\
       cycle_id_ (driver m') = cycle_id_ (driver strict_aborting) + 2).
Proof.
  split; [repeat split|]. split.
  - eexists. vm_compute. auto.
  - intros (m' & H & _). vm_compute in H. discriminate H.
Qed.

(** C8 at work: three scan cycles of the quiet firmware. *)
Lemma cycle_id_counts_scan_cycles_witness :
  no_assertions (driver calm) /\
  (match cycles_loop expects quiet 3 [] calm with
   | Done _ m' =>
       cycle_id_ (driver m') = cycle_id_ (driver calm) + Z.of_nat 3 /\
       ticks (trace m') = (ticks (trace calm) + 3)%nat /\
       assertions_passed_ (driver m') = assertions_passed_ (driver calm)
   | Exited code m' =>
       strict_abort code m' /\
       (exists j, (j < 3)%nat /\
          cycle_id_ (driver m') = cycle_id_ (driver calm) + Z.of_nat j + 1 /\
          ticks (trace m') = (ticks (trace calm) + j + 1)%nat) /\
       assertions_passed_ (driver m') = assertions_passed_ (driver calm)
   | OutOfFuel _ => False
   end /\
   (lenient calm -> exists m', cycles_loop expects quiet 3 [] calm = Done tt m')).
Proof.
  assert (H : no_assertions (driver calm)) by (repeat split).
  split; [exact H|].
  apply (cycle_id_counts_scan_cycles expects quiet 3 calm H).
Defined.



(** C10 refuted: the cycle duration is 0 and abort-on-first-error is set;
    [skipTime(0)] with the stop assertion 7 terminates the process at the
    check of the cycle duration and 7 is never evaluated. *)
Lemma skipTime_of_no_time_counterexample :
  Double.le_zero (Finite 0) /\
  (exists m1,
     skipTime expects quiet 1 (Finite 0) [7%nat] unset_aborting = Exited 1 m1 /\
     evaluated (trace m1) = [] /\ bound (trace m1) = []) /\
  ~ (exists fuel m',
       skipTime expects quiet fuel (Finite 0) [7%nat] unset_aborting = Done tt m').
Proof.
  split; [discriminate|]. split.
  - eexists. vm_compute. auto.
  - intros (fuel & m' & H). vm_compute in H. discriminate H.
Qed.

Lemma skipTime_of_no_time_runs_no_cycle_witness :
  Double.le_zero (Finite 0) /\
  (cycle_duration_ (driver unset) <> 0 \/ abort_on_first_error_ (driver unset) = false) /\
  exists m' ev,
    skipTime expects quiet 0 (Finite 0) [7%nat] unset = Done tt m' /\
    trace m' = trace unset ++ ev /\
    ticks ev = O /\ evaluated ev = [7%nat] /\ bound ev = [7%nat] /\
    cycle_id_ (driver m') = cycle_id_ (driver unset) /\
    time_ (driver m') = time_ (driver unset) /\
    driver m' = set_assertions_passed_
                  (assertions_passed_ (driver unset) && all_passed ev) (driver unset).
Proof.
  assert (H1 : Double.le_zero (Finite 0)) by discriminate.
  assert (H2 : cycle_duration_ (driver unset) <> 0 \/
               abort_on_first_error_ (driver unset) = false) by (right; reflexivity).
  split; [exact H1|]. split; [exact H2|].
  apply (skipTime_of_no_time_runs_no_cycle expects quiet 0 (Finite 0) [7%nat] unset H1 H2).
Defined.

(** A process exit at work: the report of the first scan cycle finds
    nothing queued on a strict Driver with abort-on-first-error. *)
Lemma process_exit_follows_an_error_diagnostic_witness :
  let m' := machine_of (cycle expects chatty [] strict_aborting) in
  cycle expects chatty [] strict_aborting = Exited 1 m' /\
  1 = 1 /\
  abort_on_first_error_ (driver strict_aborting) = true /\
  exists tr t c e, trace m' = tr ++ [EvError t c e].
Proof.
  intros m'.
  assert (H : cycle expects chatty [] strict_aborting = Exited 1 m')
    by (vm_compute; reflexivity).
  split; [exact H|].
  apply (process_exit_follows_an_error_diagnostic expects chatty strict_aborting m' 1).
  left. exists []. exact H.
Defined.

(** A time span out of reach: the cycle duration is 0, so the clock does
    not move. *)
Lemma skipTime_never_returns_when_out_of_reach_witness :
  (exists q, Finite 1 = Finite q /\ (0 < q)%Q /\ cycle_duration_ (driver unset) <= 0) /\
  (forall m', skipTime expects quiet 3 (Finite 1) [] unset <> Done tt m') /\
  (abort_on_first_error_ (driver unset) = false ->
   exists m', skipTime expects quiet 3 (Finite 1) [] unset = OutOfFuel m').
Proof.
  assert (H : exists q, Finite 1 = Finite q /\ (0 < q)%Q /\
                        cycle_duration_ (driver unset) <= 0).
  { exists 1%Q. split; [reflexivity|]. split; [reflexivity|]. cbn. lia. }
  split; [exact H|].
  apply (skipTime_never_returns_when_out_of_reach expects quiet 3 (Finite 1) [] unset).
  right. exact H.
Defined.

(** One scan cycle of the busy Driver: the report 0 is evaluated against
    the front of the queue and the permanent report assertion, then come
    the stop assertion 7, the queued cycle assertion 3 and the permanent
    cycle assertion 4. *)
Lemma scan_cycle_evaluation_order_witness :
  let m' := machine_of (cycleInternal expects chatty [7%nat] true busy) in
  cycleInternal expects chatty [7%nat] true busy = Done tt m' /\
  exists ev,
    trace m' = trace busy ++ ev /\
    evaluated ev = [0; 0; 7; 3; 4]%nat /\
    queued_keyboard_report_assertions_ (driver m') = [1%nat] /\
    queued_cycle_assertions_ (driver m') = [] /\
    subject m' = 1%nat.
Proof.
  intros m'.
  assert (H : cycleInternal expects chatty [7%nat] true busy = Done tt m')
    by (vm_compute; reflexivity).
  split; [exact H|].
  exact (scan_cycle_evaluation_order expects chatty [7%nat] true busy m' H).
Defined.

(** The bursty firmware sends two reports in a scan cycle. *)
Lemma report_counters_count_the_reports_of_a_cycle_witness :
  let m' := machine_of (cycleInternal expects bursty [] true strict_bursty) in
  cycleInternal expects bursty [] true strict_bursty = Done tt m' /\
  n_keyboard_reports_in_cycle_ (driver m') = 2 /\
  n_overall_keyboard_reports_ (driver m')
  = n_overall_keyboard_reports_ (driver strict_bursty) + 2 /\
  reports_delivered (trace m') = (reports_delivered (trace strict_bursty) + 2)%nat.
Proof.
  intros m'.
  assert (H : cycleInternal expects bursty [] true strict_bursty = Done tt m')
    by (vm_compute; reflexivity).
  split; [exact H|].
  exact (report_counters_count_the_reports_of_a_cycle expects bursty [] true
           strict_bursty m' H).
Defined.

(** Two reports arrive while one report assertion is queued, in strict
    mode: one error. *)
Lemma strict_mode_reports_each_report_beyond_the_queue_witness :
  let m' := machine_of (cycleInternal expects bursty [] true strict_bursty) in
  cycleInternal expects bursty [] true strict_bursty = Done tt m' /\
  exists ev,
    trace m' = trace strict_bursty ++ ev /\
    errors ev = [ErrReportWithoutQueued].
Proof.
  intros m'.
  assert (H : cycleInternal expects bursty [] true strict_bursty = Done tt m')
    by (vm_compute; reflexivity).
  split; [exact H|].
  exact (strict_mode_reports_each_report_beyond_the_queue expects bursty [] true
           strict_bursty m' H).
Defined.

(** Three scan cycles with the cycle assertion 8 and the stop assertion 7
    on a Driver with no assertion registered. *)
Lemma cycles_schedule_of_cycle_and_stop_assertions_witness :
  let m' := machine_of (cycles expects quiet 3 [7%nat] [8%nat] calm) in
  no_assertions (driver calm) /\
  cycles expects quiet 3 [7%nat] [8%nat] calm = Done tt m' /\
  exists ev,
    trace m' = trace calm ++ ev /\
    evaluated ev = [8; 8; 8; 7]%nat /\
    bound ev = [7%nat] /\
    ticks ev = 3%nat /\
    no_assertions (driver m').
Proof.
  intros m'.
  assert (Hn : no_assertions (driver calm)) by (repeat split).
  assert (H : cycles expects quiet 3 [7%nat] [8%nat] calm = Done tt m')
    by (vm_compute; reflexivity).
  split; [exact Hn|]. split; [exact H|].
  exact (cycles_schedule_of_cycle_and_stop_assertions expects quiet 3 [7%nat] [8%nat]
           calm m' Hn H).
Defined.

(** Two scan cycles of the busy Driver. *)
Lemma cycles_evaluates_what_its_scan_cycles_evaluate_witness :
  let m' := machine_of (cycles expects chatty 2 [7%nat] [8%nat] busy) in
  cycles expects chatty 2 [7%nat] [8%nat] busy = Done tt m' /\
  exists ev,
    trace m' = trace busy ++ ev /\
    ticks ev = 2%nat /\
    bound ev = [7%nat] /\
    evaluated ev = [0; 0; 8; 3; 4; 1; 0; 8; 4; 7]%nat.
Proof.
  intros m'.
  assert (H : cycles expects chatty 2 [7%nat] [8%nat] busy = Done tt m')
    by (vm_compute; reflexivity).
  split; [exact H|].
  exact (cycles_evaluates_what_its_scan_cycles_evaluate expects chatty 2 [7%nat] [8%nat]
           busy m' H).
Defined.

(** Skipping 15 time units with a cycle duration of 10 on the busy
    Driver. *)
Lemma skipTime_evaluates_what_its_scan_cycles_evaluate_witness :
  let m' := machine_of (skipTime expects chatty 5 (Finite (15 # 1)) [7%nat] busy) in
  skipTime expects chatty 5 (Finite (15 # 1)) [7%nat] busy = Done tt m' /\
  exists ev,
    trace m' = trace busy ++ ev /\
    bound ev = [7%nat] /\
    evaluated ev =
      cycles_evaluations chatty [0%nat] [4%nat] [] (ticks ev) [0; 1]%nat [3%nat] 0%nat
      ++ [7%nat].
Proof.
  intros m'.
  assert (H : skipTime expects chatty 5 (Finite (15 # 1)) [7%nat] busy = Done tt m')
    by (vm_compute; reflexivity).
  split; [exact H|].
  exact (skipTime_evaluates_what_its_scan_cycles_evaluate expects chatty 5
           (Finite (15 # 1)) [7%nat] busy m' H).
Defined.

(** A time span that is not a number, on a Driver whose cycle duration is
    not set. *)
Lemma skipTime_of_nan_runs_no_cycle_witness :
  (cycle_duration_ (driver unset) <> 0 \/ abort_on_first_error_ (driver unset) = false) /\
  exists m' ev,
    skipTime expects quiet 0 NaN [7%nat] unset = Done tt m' /\
    trace m' = trace unset ++ ev /\
    ticks ev = O /\ evaluated ev = [7%nat] /\ bound ev = [7%nat] /\
    time_ (driver m') = time_ (driver unset) /\
    cycle_id_ (driver m') = cycle_id_ (driver unset).
Proof.
  assert (H : cycle_duration_ (driver unset) <> 0 \/
              abort_on_first_error_ (driver unset) = false) by (right; reflexivity).
  split; [exact H|].
  apply (skipTime_of_nan_runs_no_cycle expects quiet 0 [7%nat] unset H).
Defined.

(** The destructor of a Driver with a left-over report assertion. *)
Lemma destructor_exits_iff_the_run_failed_witness :
  queued_keyboard_report_assertions_ (driver expecting) <> [] /\
  exists rest,
    Driver_destroy expecting
    = Exited 1 (mkMachine (driver expecting) (subject expecting)
                  (trace expecting
                   ++ map (EvLog 0 0)
                          [MsgNewline; MsgBannerLine; MsgTestingDone; MsgBannerLine;
                           MsgNewline]
                   ++ rest)).
Proof.
  assert (H : queued_keyboard_report_assertions_ (driver expecting) <> [])
    by discriminate.
  split; [exact H|].
  destruct (destructor_exits_iff_the_run_failed expecting)
    as (rest & _ & _ & _ & Hf & _).
  destruct (Hf (or_introl H)) as [Hrun _].
  exists rest. exact Hrun.
Defined.

(** The stop assertion 7 of three scan cycles is bound and then evaluated
    on the Driver after the third. *)
Lemma stop_assertions_see_the_state_after_the_last_cycle_witness :
  let m' := machine_of (cycles expects quiet 3 [7%nat] [] calm) in
  cycles expects quiet 3 [7%nat] [] calm = Done tt m' /\
  exists dx ev1 tr2,
    trace m' = trace calm ++ ev1 ++ EvEval 7%nat (expects 7%nat dx) :: tr2 /\
    bound ev1 = [7%nat] /\ ticks ev1 = 3%nat /\
    cycle_id_ dx = 3 /\ time_ dx = 30.
Proof.
  intros m'.
  assert (H : cycles expects quiet 3 [7%nat] [] calm = Done tt m')
    by (vm_compute; reflexivity).
  split; [exact H|].
  exact (stop_assertions_see_the_state_after_the_last_cycle expects quiet
           3 7%nat [] [] calm m' H).
Defined.

(** Three scan cycles of 10 time units. *)
Lemma simulated_time_advances_by_the_cycle_duration_witness :
  let m' := machine_of (cycles expects quiet 3 [] [] calm) in
  cycles expects quiet 3 [] [] calm = Done tt m' /\
  time_ (driver m') = time_ (driver calm) + 30.
Proof.
  intros m'.
  assert (H : cycles expects quiet 3 [] [] calm = Done tt m')
    by (vm_compute; reflexivity).
  split; [exact H|].
  exact (proj2 (simulated_time_advances_by_the_cycle_duration expects quiet calm m')
               3 [] [] H).
Defined.

(** A matrix of 2 rows and 3 columns. *)
Lemma clearAllKeys_releases_every_key_once_witness :
  2 <= 255 /\ 3 <= 255 /\ (Z.to_nat 2 + Z.to_nat 3 <= 5)%nat /\
  exists evs,
    Keys.clearAllKeys 2 3 5 (driver calm)
    = Some (Keys.EvKeyLog (time_ (driver calm)) (cycle_id_ (driver calm))
                          Keys.MsgClearingAllKeys :: evs) /\
    Keys.initKeyboard 2 3 5 (driver calm)
    = Some (Keys.EvKeyLog (time_ (driver calm)) (cycle_id_ (driver calm))
                          Keys.MsgClearingAllKeys
              :: evs ++ [Keys.EvInitializeKeyboard]) /\
    evs = map (fun k => Keys.EvSetKeystate (fst k) (snd k) Keys.NOT_PRESSED)
              (Keys.keys_of_matrix 2 3) /\
    (forall row col,
       In (Keys.EvSetKeystate row col Keys.NOT_PRESSED) evs
       <-> 0 <= row < 2 /\ 0 <= col < 3) /\
    (forall row col state,
       In (Keys.EvSetKeystate row col state) evs -> state = Keys.NOT_PRESSED) /\
    NoDup evs /\
    length evs = (Z.to_nat 2 * Z.to_nat 3)%nat.
Proof.
  assert (H1 : 2 <= 255) by lia. assert (H2 : 3 <= 255) by lia.
  assert (H3 : (Z.to_nat 2 + Z.to_nat 3 <= 5)%nat) by lia.
  split; [exact H1|]. split; [exact H2|]. split; [exact H3|].
  apply (clearAllKeys_releases_every_key_once 2 3 5 (driver calm) H1 H2 H3).
Defined.

(** A matrix of 300 columns. *)
Lemma clearAllKeys_never_returns_on_a_matrix_beyond_a_byte_witness :
  (256 <= 1 \/ (0 < 1 /\ 256 <= 300)) /\
  Keys.clearAllKeys 1 300 1000 (driver calm) = None /\
  Keys.initKeyboard 1 300 1000 (driver calm) = None.
Proof.
  assert (H : 256 <= 1 \/ (0 < 1 /\ 256 <= 300)) by (right; lia).
  split; [exact H|].
  apply (clearAllKeys_never_returns_on_a_matrix_beyond_a_byte 1 300 1000 (driver calm) H).
Defined.

(** Two scan cycles of the chatty firmware consume the queue of the busy
    Driver, but its cycle assertions fail: the verdict is false. *)
Lemma verdict_after_a_run_of_scan_cycles_witness :
  let m1 := machine_of (cycles expects chatty 2 [] [] busy) in
  cycles expects chatty 2 [] [] busy = Done tt m1 /\
  queued_keyboard_report_assertions_ (driver m1) = [] /\
  n_overall_keyboard_reports_ (driver m1) = 2 /\
  exists ev,
    trace m1 = trace busy ++ ev /\
    forall b m2,
      checkStatus m1 = Done b m2 ->
      (b = true <->
       (2 <= 2)%nat /\ assertions_passed_ (driver busy) = true /\
       all_passed ev = true).
Proof.
  intros m1.
  assert (H : cycles expects chatty 2 [] [] busy = Done tt m1)
    by (vm_compute; reflexivity).
  split; [exact H|].
  exact (verdict_after_a_run_of_scan_cycles expects chatty 2 [] [] busy m1 H).
Defined.

(** Two calls of [skipTime(15)] with a cycle duration of 10: each runs two
    scan cycles, and the second reports 4 cycles. *)
Lemma skipTime_summary_line_witness :
  let m1 := machine_of (skipTime expects quiet 5 (Finite (15 # 1)) [] calm) in
  let m2 := machine_of (skipTime expects quiet 5 (Finite (15 # 1)) [7%nat] m1) in
  skipTime expects quiet 5 (Finite (15 # 1)) [7%nat] m1 = Done tt m2 /\
  exists tr1 tr2,
    trace m2 = tr1 ++ EvLog 40 4 (MsgSkipped (Double.of_int 20) 4) :: tr2 /\
    ticks tr1 = ticks (trace m2) /\
    evaluated tr2 = [7%nat].
Proof.
  intros m1 m2.
  assert (H : skipTime expects quiet 5 (Finite (15 # 1)) [7%nat] m1 = Done tt m2)
    by (vm_compute; reflexivity).
  split; [exact H|].
  exact (skipTime_summary_line expects quiet 5 (Finite (15 # 1)) [7%nat] m1 m2 H).
Defined.
